(** * Nextra loader: page map, locale fallback filter and locale dispatch

    A shallow embedding of [dist/loader.esm.js]: the route-naming helpers
    and their regular expressions, the page-map tree builder [getPageMap],
    the locale fallback filter [filterRouteLocale], the sibling analyzer
    [analyzeLocalizedEntries], the locale-dispatch module generated by
    [loader], the object merge [_extends] and the search index kept by
    [addStorkIndex]. *)

From Stdlib Require Import List String Ascii Bool Arith NArith ZArith Lia Sorted Permutation.
From Stdlib Require Import DecimalString.
Import ListNotations.

Set Implicit Arguments.
Open Scope string_scope.
Open Scope list_scope.

(** ** Regular expressions

    The loader only uses a small fragment of JavaScript's regular
    expressions: literals, character classes, concatenation, alternation,
    greedy [?], greedy [+] over a character class, capture groups and the
    anchors [^] and [$].  The matcher below is the usual backtracking one,
    written with a continuation: alternatives are tried left to right, [?]
    and [+] first try to consume as much as they can.

    A string is a sequence of characters of eight bits, each standing for
    the code unit of that number: the strings of the embedding are the
    JavaScript strings whose code units are below 256.  Every literal and
    every class of the loader's expressions is ASCII but [.], which takes
    any character that is no line terminator. *)

Module Regex.

Inductive regex : Type :=
| Eps
| Lit (c : ascii)
| Cls (p : ascii -> bool)
| Cat (r1 r2 : regex)
| Alt (r1 r2 : regex)
| Opt (r : regex)
| PlusCls (p : ascii -> bool)
| Grp (i : nat) (r : regex)
| Bos
| Eos.

(** A position in the subject: how many characters were consumed, what is
    left, and the captures made so far (most recent first). *)
Record mstate : Type := MState {
  pos : nat;
  rest : list ascii;
  caps : list (nat * list ascii)
}.

Definition cont := mstate -> option mstate.

Fixpoint plus_cls (p : ascii -> bool) (n : nat) (s : list ascii)
         (k : nat -> list ascii -> option mstate) : option mstate :=
  match s with
  | c :: s' =>
      if p c then
        match plus_cls p (S n) s' k with
        | Some r => Some r
        | None => k (S n) s'
        end
      else None
  | [] => None
  end.

Fixpoint m (r : regex) (st : mstate) (k : cont) : option mstate :=
  match r with
  | Eps => k st
  | Lit c =>
      match rest st with
      | c' :: s' => if Ascii.eqb c c' then k (MState (S (pos st)) s' (caps st)) else None
      | [] => None
      end
  | Cls p =>
      match rest st with
      | c' :: s' => if p c' then k (MState (S (pos st)) s' (caps st)) else None
      | [] => None
      end
  | Cat r1 r2 => m r1 st (fun st' => m r2 st' k)
  | Alt r1 r2 =>
      match m r1 st k with
      | Some res => Some res
      | None => m r2 st k
      end
  | Opt r1 =>
      match m r1 st k with
      | Some res => Some res
      | None => k st
      end
  | PlusCls p =>
      plus_cls p (pos st) (rest st) (fun n s' => k (MState n s' (caps st)))
  | Grp i r1 =>
      m r1 st (fun st' =>
        k (MState (pos st') (rest st')
                  ((i, firstn (pos st' - pos st) (rest st)) :: caps st')))
  | Bos => if Nat.eqb (pos st) 0 then k st else None
  | Eos => match rest st with [] => k st | _ :: _ => None end
  end.

(** The leftmost match: start index and final state. *)
Fixpoint search (r : regex) (i : nat) (s : list ascii) : option (nat * mstate) :=
  match m r (MState i s []) Some with
  | Some st => Some (i, st)
  | None =>
      match s with
      | [] => None
      | _ :: s' => search r (S i) s'
      end
  end.

Fixpoint lookup_cap (i : nat) (cs : list (nat * list ascii)) : option (list ascii) :=
  match cs with
  | [] => None
  | (j, w) :: cs' => if Nat.eqb i j then Some w else lookup_cap i cs'
  end.

(** [re.test(s)] *)
Definition test (r : regex) (s : string) : bool :=
  match search r 0 (list_ascii_of_string s) with
  | Some _ => true
  | None => false
  end.

(** [s.match(re)] for a non-global [re]: [None] is JavaScript's [null];
    otherwise the function gives [match[i]], itself [None] when the group
    took no part in the match ([undefined]). *)
Definition exec (r : regex) (s : string) : option (nat -> option string) :=
  match search r 0 (list_ascii_of_string s) with
  | Some (_, st) =>
      Some (fun i => option_map string_of_list_ascii (lookup_cap i (caps st)))
  | None => None
  end.

(** [s.replace(re, repl)] for a non-global [re]. *)
Definition replace (r : regex) (repl : string) (s : string) : string :=
  let cs := list_ascii_of_string s in
  match search r 0 cs with
  | Some (i, st) =>
      string_of_list_ascii
        (firstn i cs ++ list_ascii_of_string repl ++ rest st)
  | None => s
  end.

Fixpoint lits (s : string) : regex :=
  match s with
  | EmptyString => Eps
  | String c EmptyString => Lit c
  | String c s' => Cat (Lit c) (lits s')
  end.

Definition in_range (lo hi c : ascii) : bool :=
  (N_of_ascii lo <=? N_of_ascii c)%N && (N_of_ascii c <=? N_of_ascii hi)%N.

(** [[a-zA-Z-]] *)
Definition letter_or_hyphen (c : ascii) : bool :=
  in_range "a" "z" c || in_range "A" "Z" c || Ascii.eqb c "-".

(** [[^.]] *)
Definition not_dot (c : ascii) : bool := negb (Ascii.eqb c ".").

(** [.] in an expression without the [s] flag: any character but a line
    terminator. *)
Definition not_line_terminator (c : ascii) : bool :=
  negb (Ascii.eqb c "010") && negb (Ascii.eqb c "013").

(** [Matches r n s n' s']: from position [n], with [s] left, [r] can
    consume down to [s'] and reach position [n']. *)
Inductive Matches : regex -> nat -> list ascii -> nat -> list ascii -> Prop :=
| M_Eps n s : Matches Eps n s n s
| M_Lit c n s : Matches (Lit c) n (c :: s) (S n) s
| M_Cls p c n s : p c = true -> Matches (Cls p) n (c :: s) (S n) s
| M_Cat r1 r2 n s n1 s1 n2 s2 :
    Matches r1 n s n1 s1 -> Matches r2 n1 s1 n2 s2 -> Matches (Cat r1 r2) n s n2 s2
| M_AltL r1 r2 n s n' s' : Matches r1 n s n' s' -> Matches (Alt r1 r2) n s n' s'
| M_AltR r1 r2 n s n' s' : Matches r2 n s n' s' -> Matches (Alt r1 r2) n s n' s'
| M_OptSome r n s n' s' : Matches r n s n' s' -> Matches (Opt r) n s n' s'
| M_OptNone r n s : Matches (Opt r) n s n s
| M_Plus p w n s :
    w <> [] -> forallb p w = true -> Matches (PlusCls p) n (w ++ s) (n + List.length w) s
| M_Grp i r n s n' s' : Matches r n s n' s' -> Matches (Grp i r) n s n' s'
| M_Bos s : Matches Bos 0 s 0 s
| M_Eos n : Matches Eos n [] n [].

End Regex.

Import Regex.

Declare Scope regex_scope.
Delimit Scope regex_scope with re.
Infix "~>" := Cat (at level 61, right associativity) : regex_scope.
Infix "<|>" := Alt (at level 62, right associativity) : regex_scope.

(** ** Route naming *)

(** [/\.([a-zA-Z-]+)?\.(mdx?|jsx?|json)$/] *)
Definition localeRegex : regex :=
  (Lit "." ~> Opt (Grp 1 (PlusCls letter_or_hyphen)) ~> Lit "." ~>
   Grp 2 ((lits "md" ~> Opt (Lit "x")) <|> (lits "js" ~> Opt (Lit "x")) <|> lits "json") ~>
   Eos)%re.

Definition getLocaleFromFilename (name : string) : option string :=
  match exec localeRegex name with
  | Some mt => mt 1
  | None => None
  end.

(** [/^([^.]+)/] *)
Definition removeExtensionRegex : regex := (Bos ~> Grp 1 (PlusCls not_dot))%re.

Definition removeExtension (name : string) : string :=
  match exec removeExtensionRegex name with
  | Some mt => match mt 1 with Some w => w | None => "" end
  | None => ""
  end.

(** [/\.(mdx?|jsx?|tsx?)$/] *)
Definition extension : regex :=
  (Lit "." ~>
   Grp 1 ((lits "md" ~> Opt (Lit "x")) <|> (lits "js" ~> Opt (Lit "x")) <|>
          (lits "ts" ~> Opt (Lit "x"))) ~>
   Eos)%re.

(** [/\.mdx?$/] *)
Definition mdxExtension : regex := (Lit "." ~> lits "md" ~> Opt (Lit "x") ~> Eos)%re.

(** [/meta\.?([a-zA-Z-]+)?\.json/] *)
Definition metaExtension : regex :=
  (lits "meta" ~> Opt (Lit ".") ~> Opt (Grp 1 (PlusCls letter_or_hyphen)) ~>
   Lit "." ~> lits "json")%re.

(** [/^index$/] *)
Definition indexRegex : regex := (Bos ~> lits "index" ~> Eos)%re.

(** ** JavaScript values used by the loader *)

(** Parsed JSON and front matter.  Numbers are kept as integers: the loader
    only ever looks at their truthiness.  [JBuiltin name] is the one value
    that is not data: the member that a plain object inherits from
    [Object.prototype] under [name], a function (for [__proto__], the
    prototype itself); it is what reading [object[name]] gives when the
    object has no such property of its own. *)
#[warnings="-register-all"] Inductive json : Type :=
| JNull
| JBool (b : bool)
| JNum (z : Z)
| JStr (s : string)
| JArr (items : list json)
| JObj (fields : list (string * json))
| JBuiltin (name : string).

(** The object a meta file or a front matter holds.  [lookup] reads an own
    property; the first binding of a key is the one that counts. *)
Definition mapping := list (string * json).

Fixpoint lookup (k : string) (mp : mapping) : option json :=
  match mp with
  | [] => None
  | (k', v) :: mp' => if String.eqb k k' then Some v else lookup k mp'
  end.

(** The value is truthy: anything but [false], [0], the empty string and
    [null]. *)
Definition json_truthy (v : json) : bool :=
  match v with
  | JNull => false
  | JBool b => b
  | JNum z => negb (Z.eqb z 0)
  | JStr s => negb (String.eqb s "")
  | JArr _ | JObj _ | JBuiltin _ => true
  end.

(** A locale is a string or [undefined].  [!locale] holds for [undefined]
    and for the empty string. *)
Definition falsy (l : option string) : bool :=
  match l with
  | None => true
  | Some s => String.eqb s ""
  end.

(** [a === b] on values that are strings or [undefined]. *)
Definition strict_eq (a b : option string) : bool :=
  match a, b with
  | None, None => true
  | Some x, Some y => String.eqb x y
  | _, _ => false
  end.

(** ** Plain objects used as maps

    [fallbackPages] is a plain object keyed by page names, and it is
    enumerated with [for ... in].  Own property keys come in the order the
    language fixes: first the keys that are canonical array indices, in
    ascending numeric order, then the other string keys in the order they
    were created.  An object is kept as the list of its properties in that
    enumeration order.

    Only own properties are kept.  A plain object also inherits the
    members of [Object.prototype]; [objectPrototype] lists their names.
    All of them but one are data properties that [for ... in] skips and
    that an assignment shadows with an own property, and reading one gives
    a function, which is truthy and is not [null].  The one left is
    [__proto__]: reading it gives the prototype and assigning to it
    replaces the prototype instead of creating a property.  What is said
    below of an object used as a map is said for the keys that the code
    at hand treats as own properties; the statements name them. *)

Module JsObject.

(** The names of the members of [Object.prototype]. *)
Definition objectPrototype : list string :=
  ["constructor"; "__defineGetter__"; "__defineSetter__"; "hasOwnProperty";
   "__lookupGetter__"; "__lookupSetter__"; "isPrototypeOf"; "propertyIsEnumerable";
   "toString"; "valueOf"; "__proto__"; "toLocaleString"].

(** Reading [o[name]] on an object without such an own property finds a
    member of the prototype. *)
Definition inherited (name : string) : bool :=
  existsb (String.eqb name) objectPrototype.

Definition digit (c : ascii) : option N :=
  if in_range "0" "9" c then Some (N_of_ascii c - 48)%N else None.

Fixpoint digits (acc : N) (s : list ascii) : option N :=
  match s with
  | [] => Some acc
  | c :: s' =>
      match digit c with
      | Some d => digits (10 * acc + d)%N s'
      | None => None
      end
  end.

(** The key is a canonical numeric string for an integer below 2^32 - 1. *)
Definition array_index (k : string) : option N :=
  match list_ascii_of_string k with
  | [] => None
  | c :: s =>
      if Ascii.eqb c "0" && negb (Nat.eqb (List.length s) 0) then None
      else
        match digits 0 (c :: s) with
        | Some n => if (n <=? 4294967294)%N then Some n else None
        | None => None
        end
  end.

Section Obj.
Variable V : Type.

Definition t := list (string * V).

Definition empty : t := [].

Fixpoint get (k : string) (o : t) : option V :=
  match o with
  | [] => None
  | (k', v) :: o' => if String.eqb k k' then Some v else get k o'
  end.

Definition has (k : string) (o : t) : bool :=
  match get k o with Some _ => true | None => false end.

(** Overwriting keeps the property where it is. *)
Fixpoint update (k : string) (v : V) (o : t) : t :=
  match o with
  | [] => []
  | (k', v') :: o' =>
      if String.eqb k k' then (k', v) :: o' else (k', v') :: update k v o'
  end.

(** A new array-index key goes after the index keys that are not
    larger, before everything else. *)
Fixpoint add_index (n : N) (k : string) (v : V) (o : t) : t :=
  match o with
  | [] => [(k, v)]
  | (k', v') :: o' =>
      match array_index k' with
      | Some n' =>
          if (n' <=? n)%N then (k', v') :: add_index n k v o'
          else (k, v) :: o
      | None => (k, v) :: o
      end
  end.

Definition add (k : string) (v : V) (o : t) : t :=
  match array_index k with
  | Some n => add_index n k v o
  | None => o ++ [(k, v)]
  end.

(** [o[k] = v] *)
Definition set (k : string) (v : V) (o : t) : t :=
  if has k o then update k v o else add k v o.

(** The keys [for (const k in o)] runs through. *)
Definition keys (o : t) : list string := map fst o.

End Obj.

(** *** The enumeration order, on keys alone *)

Definition isIndex (k : string) : bool :=
  match array_index k with Some _ => true | None => false end.

Definition indexOf (k : string) : N :=
  match array_index k with Some n => n | None => 0%N end.

(** Stable insertion into a list that ascends by index. *)
Fixpoint insertSorted (k : string) (ks : list string) : list string :=
  match ks with
  | [] => [k]
  | k' :: ks' =>
      if (indexOf k' <=? indexOf k)%N then k' :: insertSorted k ks' else k :: ks
  end.

Definition sortByIndex (ks : list string) : list string :=
  fold_left (fun acc k => insertSorted k acc) ks [].

(** The order in which keys created in the order [ks] are enumerated:
    array indices first, ascending, then the others as created. *)
Definition jsOrder (ks : list string) : list string :=
  sortByIndex (filter isIndex ks) ++ filter (fun k => negb (isIndex k)) ks.

(** Creating a property, seen on the keys. *)
Definition insertKey (k : string) (ks : list string) : list string :=
  match array_index k with
  | Some n =>
      (fix go (ks : list string) : list string :=
         match ks with
         | [] => [k]
         | k' :: ks' =>
             match array_index k' with
             | Some n' => if (n' <=? n)%N then k' :: go ks' else k :: ks
             | None => k :: ks
             end
         end) ks
  | None => ks ++ [k]
  end.

Definition leIndex (a b : string) : Prop := (indexOf a <= indexOf b)%N.

End JsObject.

(** ** The page map *)

#[warnings="-register-all"] Inductive PageMapNode : Type :=
| Directory (name route : string) (children : list PageMapNode)
| Page (name route : string) (locale : option string) (frontMatter : option mapping)
| MetaFile (meta : json) (locale : option string).

Definition isDirectory (p : PageMapNode) : bool :=
  match p with Directory _ _ _ => true | _ => false end.

Definition node_name (p : PageMapNode) : string :=
  match p with
  | Directory n _ _ => n
  | Page n _ _ _ => n
  | MetaFile _ _ => "meta.json"
  end.

(** [page.locale]; a directory has none. *)
Definition node_locale (p : PageMapNode) : option string :=
  match p with
  | Directory _ _ _ => None
  | Page _ _ l _ => l
  | MetaFile _ l => l
  end.

(** [page.route]; a meta file has none. *)
Definition node_route (p : PageMapNode) : option string :=
  match p with
  | Directory _ r _ => Some r
  | Page _ r _ _ => Some r
  | MetaFile _ _ => None
  end.

(** ** The locale fallback filter *)

(** [fallbackPages] is a plain object keyed by page names.
    [fallbackPages[page.name] = ...] creates or overwrites an own property
    for every name but [__proto__], for which it replaces the prototype of
    [fallbackPages]; and every name but [__proto__] reads as not [null]
    until it is assigned, the members of [Object.prototype] being
    functions.  The filter is embedded for the page names that are kept as
    own properties. *)
Definition ownName (name : string) : bool := negb (String.eqb name "__proto__").

Section FilterRouteLocale.
Variables locale defaultLocale : option string.

Definition isDefaultLocale : bool := falsy locale || strict_eq locale defaultLocale.

Definition localDoesMatch (page : PageMapNode) : bool :=
  (falsy (node_locale page) && isDefaultLocale) || strict_eq (node_locale page) locale.

(** [!page.locale || page.locale === defaultLocale] *)
Definition fallbackEligible (page : PageMapNode) : bool :=
  falsy (node_locale page) || strict_eq (node_locale page) defaultLocale.

(** A property of [fallbackPages] holds a page or [null] ([None]). *)
Definition fallbacks := JsObject.t (option PageMapNode).

(** [fallbackPages[name] !== null] *)
Definition notNull (name : string) (fb : fallbacks) : bool :=
  match JsObject.get name fb with
  | Some None => false
  | _ => true
  end.

(** The body of the first loop for a page that is not a directory and
    whose name is an [ownName]. *)
Definition visitPage (page : PageMapNode) (st : list PageMapNode * fallbacks)
  : list PageMapNode * fallbacks :=
  let '(filteredPageMap, fallbackPages) := st in
  if localDoesMatch page then
    (filteredPageMap ++ [page], JsObject.set (node_name page) None fallbackPages)
  else if notNull (node_name page) fallbackPages && fallbackEligible page then
    (filteredPageMap, JsObject.set (node_name page) (Some page) fallbackPages)
  else (filteredPageMap, fallbackPages).

(** The second loop: [for (const name in fallbackPages)]. *)
Fixpoint pushFallbacks (names : list string) (fallbackPages : fallbacks)
         (filteredPageMap : list PageMapNode) : list PageMapNode :=
  match names with
  | [] => filteredPageMap
  | name :: names' =>
      match JsObject.get name fallbackPages with
      | Some (Some page) => pushFallbacks names' fallbackPages (filteredPageMap ++ [page])
      | _ => pushFallbacks names' fallbackPages filteredPageMap
      end
  end.

(** The two loops, given what to push for a directory. *)
Section Loops.
Variable onDirectory : PageMapNode -> PageMapNode.

Fixpoint visitAll (pageMap : list PageMapNode) (st : list PageMapNode * fallbacks)
  : list PageMapNode * fallbacks :=
  match pageMap with
  | [] => st
  | page :: pageMap' =>
      if isDirectory page then
        visitAll pageMap' (fst st ++ [onDirectory page], snd st)
      else visitAll pageMap' (visitPage page st)
  end.

Definition filterPages (pageMap : list PageMapNode) : list PageMapNode :=
  let '(filteredPageMap, fallbackPages) := visitAll pageMap ([], JsObject.empty _) in
  pushFallbacks (JsObject.keys fallbackPages) fallbackPages filteredPageMap.
End Loops.

(** [_extends({}, page, { children: filterRouteLocale(page.children, ...) })] *)
Fixpoint filterChildren (page : PageMapNode) : PageMapNode :=
  match page with
  | Directory name route children =>
      Directory name route (filterPages filterChildren children)
  | _ => page
  end.

Definition filterRouteLocale (pageMap : list PageMapNode) : list PageMapNode :=
  filterPages filterChildren pageMap.

End FilterRouteLocale.

(** No page or meta file of the level is named [__proto__]. *)
Definition ownNames (pageMap : list PageMapNode) : bool :=
  forallb (fun p => isDirectory p || ownName (node_name p)) pageMap.

(** Nor is one below the node, at any depth. *)
Fixpoint ownNamesBelow (p : PageMapNode) : bool :=
  match p with
  | Directory _ _ children => forallb ownNamesBelow children
  | _ => ownName (node_name p)
  end.



(** ** Strings and paths *)

Infix "+++" := String.append (right associativity, at level 60).

Definition newline : string := String (ascii_of_nat 10) "".
Definition tab : string := String (ascii_of_nat 9) "".

(** [`${n}`] for a natural number. *)
Definition show_nat (n : nat) : string := NilZero.string_of_uint (Nat.to_uint n).

(** [`${b}`] for a boolean. *)
Definition show_bool (b : bool) : string := if b then "true" else "false".

(** [`${locale}`] for a string or [undefined]. *)
Definition show_locale (l : option string) : string :=
  match l with Some s => s | None => "undefined" end.

Fixpoint join (sep : string) (parts : list string) : string :=
  match parts with
  | [] => ""
  | [x] => x
  | x :: rest => x +++ sep +++ join sep rest
  end.

Definition ends_with_slash (s : string) : bool :=
  match rev (list_ascii_of_string s) with
  | c :: _ => Ascii.eqb c "/"
  | [] => false
  end.

(** [path.resolve(dir, name)] for an absolute [dir] and an entry name. *)
Definition path_resolve (dir name : string) : string := dir +++ "/" +++ name.

(** [path.join(route, segment)] for a route and a segment that has neither
    dots nor slashes (an empty segment leaves the route as it is). *)
Definition path_join (route segment : string) : string :=
  if String.eqb segment "" then route
  else if ends_with_slash route then route +++ segment
  else route +++ "/" +++ segment.

(** What follows the last slash. *)
Definition path_basename (p : string) : string :=
  string_of_list_ascii
    (fold_left (fun acc c => if Ascii.eqb c "/" then [] else acc ++ [c])
               (list_ascii_of_string p) []).

Definition getFileName (resourcePath : string) : string :=
  removeExtension (path_basename resourcePath).

(** ** The content directory *)

(** What [readdir(dir, { withFileTypes: true })] lists: files with their
    text, directories with their own entries, in enumeration order. *)
#[warnings="-register-all"] Inductive Dirent : Type :=
| FileEnt (name : string) (content : string)
| DirEnt (name : string) (entries : list Dirent).

Definition dirent_name (f : Dirent) : string :=
  match f with FileEnt name _ => name | DirEnt name _ => name end.

(** ** The tree builder *)

(** [activeRoute], [activeRouteTitle], what was written to the console, and
    whether a [TypeError] was thrown: the call of [getFiles] it was thrown
    in is rejected, and so is every call that awaits it. *)
Record BuildState : Type := {
  activeRoute : string;
  activeRouteTitle : json;
  console : list string;
  thrown : bool
}.

Section GetPageMap.
(** [JSON.parse]: the parsed value, or the text of the syntax error.  A
    meta file holds an object as a rule, but any JSON text parses. *)
Variable JSON_parse : string -> json + string.
(** [value[name]] for a [value] that is an array, a string, a number or a
    boolean, where the property is an element, a character, the length or
    a member of the prototype of such values; [None] is [undefined]. *)
Variable getProperty : json -> string -> option json.
(** The [data] of [grayMatter(fileContents)]. *)
Variable grayMatter : string -> mapping.
(** When the [readFile] of a path completes.  The callbacks of
    [Promise.all(files.map(async f => ...))] read concurrently, and what
    follows an [await readFile] runs when that read completes. *)
Variable readDone : string -> nat.
Variable currentResourcePath : string.

Definition activeRouteLocale : option string := getLocaleFromFilename currentResourcePath.

Definition parseJsonFile (content path : string) : json * list string :=
  match JSON_parse content with
  | inl parsed => (parsed, [])
  | inr err =>
      (JObj [], ["Error parsing " +++ path +++ ", make sure it's a valid JSON " +++
                 newline +++ err])
  end.

Definition fileRouteOf (route name : string) : string :=
  path_join route (replace indexRegex "" (removeExtension name)).

(** [!activeRouteLocale || locale === activeRouteLocale] *)
Definition qualifies (locale : option string) : bool :=
  falsy activeRouteLocale || strict_eq locale activeRouteLocale.

(** [f.name.match(metaExtension)[1]] *)
Definition metaLocale (name : string) : option string :=
  match exec metaExtension name with
  | Some mt => mt 1
  | None => None
  end.

(** The last assignment [dirMeta = meta]: the time it was made at, and
    the value. *)
Definition assignMeta (time : nat) (meta : json) (dirMeta : option (nat * json))
  : option (nat * json) :=
  match dirMeta with
  | Some (t, m) => if (t <=? time)%nat then Some (time, meta) else Some (t, m)
  | None => Some (time, meta)
  end.

(** What the callback returns for a file, what it logs, and the
    assignment to [dirMeta] it makes. *)
Definition visitFile (dir route name content : string)
  : option PageMapNode * list string * option (nat * json) :=
  let filePath := path_resolve dir name in
  let fileRoute := fileRouteOf route name in
  if test extension name then
    let locale := getLocaleFromFilename name in
    if test mdxExtension name then
      let data := grayMatter content in
      if negb (Nat.eqb (List.length data) 0) then
        (Some (Page (removeExtension name) fileRoute locale (Some data)), [], None)
      else (Some (Page (removeExtension name) fileRoute locale None), [], None)
    else (Some (Page (removeExtension name) fileRoute locale None), [], None)
  else if test metaExtension name then
    let '(meta, messages) := parseJsonFile content filePath in
    let locale := metaLocale name in
    (Some (MetaFile meta locale), messages,
     if qualifies locale then Some (readDone filePath, meta) else None)
  else (None, [], None).

(** The part of the callbacks that runs before their first [await]:
    [if (filePath === currentResourcePath) activeRoute = fileRoute]. *)
Definition discoverActiveRoute (dir route : string) (files : list Dirent)
           (activeRoute : string) : string :=
  fold_left
    (fun active f =>
       match f with
       | FileEnt name _ =>
           if test extension name &&
              String.eqb (path_resolve dir name) currentResourcePath
           then fileRouteOf route name else active
       | DirEnt _ _ => active
       end)
    files activeRoute.

(** Reading a property of [null] throws a [TypeError]. *)
Definition isNull (v : json) : bool :=
  match v with JNull => true | _ => false end.

(** [dirMeta[name]] for a [dirMeta] that is not [null]; [None] is
    [undefined].  An object gives its own property, else the member of
    [Object.prototype] of that name if there is one. *)
Definition readMeta (dirMeta : json) (name : string) : option json :=
  match dirMeta with
  | JObj fields =>
      match lookup name fields with
      | Some v => Some v
      | None => if JsObject.inherited name then Some (JBuiltin name) else None
      end
  | _ => getProperty dirMeta name
  end.

(** [dirMeta[item.name] || item.name] *)
Definition titleOf (dirMeta : json) (item : PageMapNode) : json :=
  match readMeta dirMeta (node_name item) with
  | Some v => if json_truthy v then v else JStr (node_name item)
  | None => JStr (node_name item)
  end.

(** [item.route === activeRoute] *)
Definition isActive (activeRoute : string) (item : PageMapNode) : bool :=
  match node_route item with
  | Some r => String.eqb r activeRoute
  | None => false
  end.

(** [.filter(Boolean)] *)
Definition present (items : list (option PageMapNode)) : list PageMapNode :=
  flat_map (fun item => match item with Some it => [it] | None => [] end) items.

(** The [.map(item => ...)] that follows [Promise.all] throws: [dirMeta]
    is [null] and some item has the active route. *)
Definition mapThrows (dirMeta : json) (activeRoute : string)
           (items : list (option PageMapNode)) : bool :=
  isNull dirMeta && existsb (isActive activeRoute) (present items).

(** The title that the [.map(item => ...)] leaves; when it throws, the
    title is as it was. *)
Definition resolveTitle (dirMeta : json) (activeRoute : string)
           (items : list (option PageMapNode)) (title : json) : json :=
  if isNull dirMeta then title
  else
    fold_left
      (fun title item =>
         match item with
         | Some it => if isActive activeRoute it then titleOf dirMeta it else title
         | None => title
         end)
      items title.

(** What the callbacks of one directory have produced so far. *)
Record DirState : Type := {
  items : list (option PageMapNode);
  dirMeta : option (nat * json);
  state : BuildState
}.

Section Walk.
(** [getFiles(filePath, fileRoute)] for an entry that is a directory. *)
Variable getFilesIn : Dirent -> string -> string -> BuildState -> list PageMapNode * BuildState.

Definition visitEntry (dir route : string) (f : Dirent) (acc : DirState) : DirState :=
  match f with
  | DirEnt name _ =>
      let filePath := path_resolve dir name in
      let fileRoute := fileRouteOf route name in
      let '(children, st) := getFilesIn f filePath fileRoute (state acc) in
      {| items := items acc ++
                  [if Nat.eqb (List.length children) 0 then None
                   else Some (Directory name fileRoute children)];
         dirMeta := dirMeta acc;
         state := st |}
  | FileEnt name content =>
      let '(item, messages, assigned) := visitFile dir route name content in
      {| items := items acc ++ [item];
         dirMeta := match assigned with
                    | Some (time, meta) => assignMeta time meta (dirMeta acc)
                    | None => dirMeta acc
                    end;
         state := {| activeRoute := activeRoute (state acc);
                     activeRouteTitle := activeRouteTitle (state acc);
                     console := console (state acc) ++ messages;
                     thrown := thrown (state acc) |} |}
  end.

Fixpoint visitEntries (dir route : string) (files : list Dirent) (acc : DirState)
  : DirState :=
  match files with
  | [] => acc
  | f :: files' => visitEntries dir route files' (visitEntry dir route f acc)
  end.

(** The entries are walked in enumeration order, a subdirectory to its
    end before the next entry.  [Promise.all] runs the callbacks
    concurrently: the items and their order are the same whatever the
    interleaving, [dirMeta] is the assignment made last, which [readDone]
    tells, and the active route that the [.map] of a directory finds is
    the one discovered by the time it runs. *)
Definition getFilesOf (dir route : string) (files : list Dirent) (st : BuildState)
  : list PageMapNode * BuildState :=
  let st0 := {| activeRoute := discoverActiveRoute dir route files (activeRoute st);
                activeRouteTitle := activeRouteTitle st;
                console := console st;
                thrown := thrown st |} in
  let acc := visitEntries dir route files
               {| items := []; dirMeta := None; state := st0 |} in
  let meta := match dirMeta acc with Some (_, m) => m | None => JObj [] end in
  (present (items acc),
   {| activeRoute := activeRoute (state acc);
      activeRouteTitle :=
        resolveTitle meta (activeRoute (state acc)) (items acc)
                     (activeRouteTitle (state acc));
      console := console (state acc);
      thrown := thrown (state acc) ||
                mapThrows meta (activeRoute (state acc)) (items acc) |}).
End Walk.

Fixpoint getFilesIn (d : Dirent) (dir route : string) (st : BuildState)
  : list PageMapNode * BuildState :=
  match d with
  | DirEnt _ entries => getFilesOf getFilesIn dir route entries st
  | FileEnt _ _ => ([], st)
  end.

(** [getFiles(dir, route)], where [files] is what [readdir(dir)] lists. *)
Definition getFiles (dir route : string) (files : list Dirent) (st : BuildState)
  : list PageMapNode * BuildState :=
  getFilesOf getFilesIn dir route files st.

(** [pagesDir] is [path.join(process.cwd(), 'pages')], [pages] its
    entries.  This is what the promise is fulfilled with;
    [getPageMapRejects] tells when it is rejected instead. *)
Definition getPageMap (pagesDir : string) (pages : list Dirent)
  : list PageMapNode * string * json :=
  let '(pageMap, st) :=
    getFiles pagesDir "/" pages
             {| activeRoute := ""; activeRouteTitle := JStr ""; console := [];
                thrown := false |} in
  (pageMap, activeRoute st, activeRouteTitle st).


End GetPageMap.

(** *** The tree builder, said on the directory *)

Definition initialState : BuildState :=
  {| activeRoute := ""; activeRouteTitle := JStr ""; console := []; thrown := false |}.

Section TreeSpec.
Variable JSON_parse : string -> json + string.
Variable getProperty : json -> string -> option json.
Variable grayMatter : string -> mapping.
Variable readDone : string -> nat.
Variable currentResourcePath : string.

(** The item an entry contributes to its directory. *)
Definition entryItem (dir route : string) (f : Dirent) : option PageMapNode :=
  match f with
  | DirEnt name entries =>
      let children :=
        fst (getFiles JSON_parse getProperty grayMatter readDone currentResourcePath
                      (path_resolve dir name) (fileRouteOf route name) entries
                      initialState) in
      if Nat.eqb (List.length children) 0 then None
      else Some (Directory name (fileRouteOf route name) children)
  | FileEnt name content =>
      fst (fst (visitFile JSON_parse grayMatter readDone currentResourcePath
                          dir route name content))
  end.

(** A subdirectory that is not empty once built, a content file or a
    meta file. *)
Definition contributes (dir route : string) (f : Dirent) : bool :=
  match f with
  | DirEnt name entries =>
      negb (Nat.eqb
              (List.length
                 (fst (getFiles JSON_parse getProperty grayMatter readDone currentResourcePath
                                (path_resolve dir name) (fileRouteOf route name) entries
                                initialState)))
              0)
  | FileEnt name _ => test extension name || test metaExtension name
  end.

(** The file is handled as a meta file. *)
Definition isMetaFile (name : string) : bool :=
  negb (test extension name) && test metaExtension name.

(** The meta files of the directory that may become [dirMeta], with their
    paths, in enumeration order. *)
Definition qualifyingMetas (dir : string) (files : list Dirent) : list (string * json) :=
  flat_map
    (fun f =>
       match f with
       | FileEnt name content =>
           if isMetaFile name && qualifies currentResourcePath (metaLocale name)
           then [(path_resolve dir name,
                  fst (parseJsonFile JSON_parse content (path_resolve dir name)))]
           else []
       | DirEnt _ _ => []
       end)
    files.

(** The value of the last of them, [{}] when there is none. *)
Definition authoritativeMeta (dir : string) (files : list Dirent) : json :=
  match rev (qualifyingMetas dir files) with
  | (_, m) :: _ => m
  | [] => JObj []
  end.

(** The reads of these meta files complete in enumeration order. *)
Definition completesInOrder (dir : string) (files : list Dirent) : Prop :=
  StronglySorted le (map (fun pm => readDone (fst pm)) (qualifyingMetas dir files)).

(** The value of [dirMeta] when the callbacks of the directory are done. *)
Definition dirMetaOf (dir route : string) (files : list Dirent) (st : BuildState) : json :=
  match dirMeta
          (visitEntries
             JSON_parse grayMatter readDone currentResourcePath
             (getFilesIn JSON_parse getProperty grayMatter readDone currentResourcePath)
             dir route files
             {| items := []; dirMeta := None;
                state := {| activeRoute :=
                              discoverActiveRoute currentResourcePath dir route files
                                                  (activeRoute st);
                            activeRouteTitle := activeRouteTitle st;
                            console := console st;
                            thrown := thrown st |} |})
  with
  | Some (_, m) => m
  | None => JObj []
  end.
End TreeSpec.




Fixpoint noEmptyDirectory (p : PageMapNode) : bool :=
  match p with
  | Directory _ _ children =>
      negb (Nat.eqb (List.length children) 0) && forallb noEmptyDirectory children
  | _ => true
  end.

(** What [parseJsonFile] writes to the console. *)
Definition parseError (path err : string) : string :=
  "Error parsing " +++ path +++ ", make sure it's a valid JSON " +++ newline +++ err.

(** ** The sibling locale analyzer *)

(** One entry of [filteredFiles]. *)
Record LocaleFile : Type := {
  file_name : string;
  file_locale : option string;
  file_ssr : bool;
  file_ssg : bool
}.

(** What [analyzeLocalizedEntries] returns. *)
Record Analysis : Type := {
  ssr : bool;
  ssg : bool;
  files : list LocaleFile;
  defaultIndex : nat
}.

(** The characters that have a meaning in the source of an expression. *)
Definition syntaxCharacters : string := "^$\.*+?()[]{}|".

Definition syntaxCharacter (c : ascii) : bool :=
  existsb (Ascii.eqb c) (list_ascii_of_string syntaxCharacters).

(** The file name stands for itself in the source of an expression. *)
Definition literalName (filename : string) : bool :=
  forallb (fun c => negb (syntaxCharacter c)) (list_ascii_of_string filename).

(** ['^' + filename + '.[a-zA-Z-]+.(mdx?|jsx?|tsx?|json)$'] *)
Definition filenameRe (filename : string) : string :=
  "^" +++ filename +++ ".[a-zA-Z-]+.(mdx?|jsx?|tsx?|json)$".

(** The expression of that source, for a file name that stands for
    itself.  The two dots of the source are not escaped: each takes any
    character. *)
Definition variantRegex (filename : string) : regex :=
  (Bos ~> lits filename ~> Cls not_line_terminator ~> PlusCls letter_or_hyphen ~>
   Cls not_line_terminator ~>
   Grp 1 ((lits "md" ~> Opt (Lit "x")) <|> (lits "js" ~> Opt (Lit "x")) <|>
          (lits "ts" ~> Opt (Lit "x")) <|> lits "json") ~>
   Eos)%re.

Section Analyze.
(** [new RegExp(source, flags).test(text)] for the two expressions that
    use the multiline flag. *)
Variable RegExp_test : string -> string -> string -> bool.
(** [new RegExp(source)] for a source into which the file name brings
    characters that have a meaning in an expression: [None] when the
    source is no expression and the constructor throws a [SyntaxError],
    else the [test] of the expression. *)
Variable RegExp : string -> option (string -> bool).

(** [new RegExp('^' + filename + '.[a-zA-Z-]+.(mdx?|jsx?|tsx?|json)$')],
    as its [test]. *)
Definition newFilenameRe (filename : string) : option (string -> bool) :=
  if literalName filename then Some (test (variantRegex filename))
  else RegExp (filenameRe filename).

(** [/^export .+ getServerSideProps[=| |\(]/m.test(content)] *)
Definition exportsSSR (content : string) : bool :=
  RegExp_test "^export .+ getServerSideProps[=| |\(]" "m" content.

(** [/^export .+ getStaticProps[=| |\(]/m.test(content)] *)
Definition exportsSSG (content : string) : bool :=
  RegExp_test "^export .+ getStaticProps[=| |\(]" "m" content.

(** One turn of the loop, [accepts] being [filenameRe.test]; [None] when
    [readFile] rejects, which it does for an entry that is a directory. *)
Definition analyzeEntry (defaultLocale : option string) (accepts : string -> bool)
           (file : Dirent) (acc : Analysis) : option Analysis :=
  if negb (accepts (dirent_name file)) then Some acc
  else
    match file with
    | DirEnt _ _ => None
    | FileEnt name content =>
        let locale := getLocaleFromFilename name in
        let exportSSR := exportsSSR content in
        let exportSSG := exportsSSG content in
        Some {| ssr := ssr acc || exportSSR;
                ssg := ssg acc || exportSSG;
                files := files acc ++
                         [{| file_name := name; file_locale := locale;
                             file_ssr := exportSSR; file_ssg := exportSSG |}];
                defaultIndex := if strict_eq locale defaultLocale
                                then List.length (files acc)
                                else defaultIndex acc |}
    end.

Fixpoint analyzeEntries (defaultLocale : option string) (accepts : string -> bool)
         (listing : list Dirent) (acc : Analysis) : option Analysis :=
  match listing with
  | [] => Some acc
  | file :: listing' =>
      match analyzeEntry defaultLocale accepts file acc with
      | Some acc' => analyzeEntries defaultLocale accepts listing' acc'
      | None => None
      end
  end.

(** [listing] is what [readdir(path.dirname(currentResourcePath))]
    lists.  [None]: the call is rejected, by the [SyntaxError] of the
    constructor or by a read. *)
Definition analyzeLocalizedEntries (currentResourcePath : string)
           (defaultLocale : option string) (listing : list Dirent) : option Analysis :=
  match newFilenameRe (getFileName currentResourcePath) with
  | None => None
  | Some accepts =>
      analyzeEntries defaultLocale accepts listing
                     {| ssr := false; ssg := false; files := []; defaultIndex := 0 |}
  end.

End Analyze.

(** *** The analysis, said on the listing *)

Section Variants.
Variable RegExp_test : string -> string -> string -> bool.
(** [filenameRe.test] *)
Variable accepts : string -> bool.

(** The accepted files, in enumeration order, with what is detected in
    each. *)
Definition variants (listing : list Dirent) : list LocaleFile :=
  flat_map
    (fun f =>
       if accepts (dirent_name f) then
         match f with
         | FileEnt name content =>
             [{| file_name := name;
                 file_locale := getLocaleFromFilename name;
                 file_ssr := exportsSSR RegExp_test content;
                 file_ssg := exportsSSG RegExp_test content |}]
         | DirEnt _ _ => []
         end
       else [])
    listing.
End Variants.

(** The position of the last variant with this locale. *)
Fixpoint lastWithLocale (D : option string) (vs : list LocaleFile) : option nat :=
  match vs with
  | [] => None
  | v :: vs' =>
      match lastWithLocale D vs' with
      | Some i => Some (S i)
      | None => if strict_eq (file_locale v) D then Some 0%nat else None
      end
  end.

(** ** The locale dispatch module *)

(** [files.map((file, index) => f(file, index))] *)
Fixpoint mapi_from (A B : Type) (f : nat -> A -> B) (i : nat) (l : list A) : list B :=
  match l with
  | [] => []
  | a :: l' => f i a :: mapi_from f (S i) l'
  end.

Definition mapi (A B : Type) (f : nat -> A -> B) (l : list A) : list B := mapi_from f 0 l.

Definition importLine (index : nat) (file : LocaleFile) : string :=
  "import Page_" +++ show_nat index +++
  (if file_ssg file || file_ssr file then
     ", { " +++ (if file_ssg file then "getStaticProps" else "getServerSideProps") +++
     " as page_data_" +++ show_nat index +++ " }"
   else "") +++
  " from './" +++ file_name file +++ "?nextra-raw'".

Definition pageBranch (index : nat) (file : LocaleFile) : string :=
  "if (locale === '" +++ show_locale (file_locale file) +++ "') {" +++ newline +++
  "    return <Page_" +++ show_nat index +++ " {...props}/>" +++ newline +++
  "  } else ".

Definition fetchBranch (ssg : bool) (index : nat) (file : LocaleFile) : string :=
  "if (locale === '" +++ show_locale (file_locale file) +++ "' && " +++
  show_bool (if ssg then file_ssg file else file_ssr file) +++ ") {" +++ newline +++
  "    return page_data_" +++ show_nat index +++ "(context)" +++ newline +++
  "  } else ".

Definition pageDispatcher (files : list LocaleFile) (defaultIndex : nat) : string :=
  join "" (mapi pageBranch files) +++ " {" +++ tab +++ newline +++
  "    return <Page_" +++ show_nat defaultIndex +++ " {...props}/>" +++ tab +++ newline +++
  "  }".

Definition fetchDispatcher (files : list LocaleFile) (ssg : bool) : string :=
  join "" (mapi (fetchBranch ssg) files) +++ " {" +++ tab +++ newline +++
  "    return { props: {} }" +++ newline +++
  "  }".

(** The last interpolation of the template: the fetch export, or nothing. *)
Definition fetchExport (files : list LocaleFile) (ssg ssr : bool) : string :=
  if ssg || ssr then
    "export async function " +++
    (if ssg then "getStaticProps" else "getServerSideProps") +++ " (context) {" +++ newline +++
    "  const locale = context.locale" +++ newline +++
    "  " +++ fetchDispatcher files ssg +++ newline +++
    "}"
  else "".


(** *** What the generated dispatchers do

    Both dispatchers are one chain of [if (locale === '...') { return ... }
    else ...] closed by a default.  The chain is kept as data: [printChain]
    gives its text, [runChain] what it returns for the locale at hand.  A
    locale literal is taken to hold its own text, which it does for the
    tags [getLocaleFromFilename] gives. *)

Inductive Outcome : Type :=
| RenderPage (index : nat)
| CallPageData (index : nat)
| EmptyProps.

Inductive Chain : Type :=
| Otherwise (o : Outcome)
| IfLocale (literal : string) (guard : option bool) (o : Outcome) (rest : Chain).

Definition printReturn (o : Outcome) : string :=
  match o with
  | RenderPage index => "return <Page_" +++ show_nat index +++ " {...props}/>"
  | CallPageData index => "return page_data_" +++ show_nat index +++ "(context)"
  | EmptyProps => "return { props: {} }"
  end.

Fixpoint printChain (c : Chain) : string :=
  match c with
  | Otherwise o =>
      " {" +++ tab +++ newline +++
      "    " +++ printReturn o +++
      (match o with RenderPage _ => tab | _ => "" end) +++ newline +++
      "  }"
  | IfLocale literal guard o rest =>
      "if (locale === '" +++ literal +++ "'" +++
      (match guard with Some b => " && " +++ show_bool b | None => "" end) +++
      ") {" +++ newline +++
      "    " +++ printReturn o +++ newline +++
      "  } else " +++ printChain rest
  end.

(** [locale] is the locale at run time: a string or [undefined]. *)
Fixpoint runChain (locale : option string) (c : Chain) : Outcome :=
  match c with
  | Otherwise o => o
  | IfLocale literal guard o rest =>
      if strict_eq locale (Some literal) &&
         match guard with Some b => b | None => true end
      then o else runChain locale rest
  end.

Fixpoint pageChain_from (i : nat) (files : list LocaleFile) (defaultIndex : nat) : Chain :=
  match files with
  | [] => Otherwise (RenderPage defaultIndex)
  | file :: files' =>
      IfLocale (show_locale (file_locale file)) None (RenderPage i)
               (pageChain_from (S i) files' defaultIndex)
  end.

Definition pageChain (files : list LocaleFile) (defaultIndex : nat) : Chain :=
  pageChain_from 0 files defaultIndex.

Fixpoint fetchChain_from (i : nat) (ssg : bool) (files : list LocaleFile) : Chain :=
  match files with
  | [] => Otherwise EmptyProps
  | file :: files' =>
      IfLocale (show_locale (file_locale file))
               (Some (if ssg then file_ssg file else file_ssr file))
               (CallPageData i) (fetchChain_from (S i) ssg files')
  end.

Definition fetchChain (ssg : bool) (files : list LocaleFile) : Chain :=
  fetchChain_from 0 ssg files.

(** The variant exports the fetch function the module dispatches to. *)
Definition exportsChosen (ssg : bool) (file : LocaleFile) : bool :=
  if ssg then file_ssg file else file_ssr file.

(** The flags of a descriptor are the disjunctions over its variants. *)
Definition consistent (d : Analysis) : Prop :=
  ssg d = existsb file_ssg (files d) /\ ssr d = existsb file_ssr (files d).

(** For every locale whose resolved variant lacks the chosen fetch
    function, the fetch dispatcher returns empty properties. *)
Definition emptyForResolvedVariant (d : Analysis) : Prop :=
  forall locale i file,
    runChain locale (pageChain (files d) (defaultIndex d)) = RenderPage i ->
    nth_error (files d) i = Some file ->
    exportsChosen (ssg d) file = false ->
    runChain locale (fetchChain (ssg d) (files d)) = EmptyProps.

(** ** The filter, said in two phases

    What one directory level of [filterRouteLocale] produces, written as
    the specification words it: the exact matches in place, then one
    fallback for every name that no exact match resolved.  [exact] and
    [eligible] are the two tests on a node, [order] is the order in which the
    names of the fallbacks come out, given the order in which the names
    were first introduced. *)

Section LevelSpec.
Variables exact eligible : PageMapNode -> bool.
Variable order : list string -> list string.

Definition named (name : string) (p : PageMapNode) : bool :=
  String.eqb (node_name p) name.

(** Some node with this name is an exact match. *)
Definition resolved (nodes : list PageMapNode) (name : string) : bool :=
  existsb (fun p => exact p && named name p) nodes.

(** The fallback candidates of the names that are never resolved. *)
Definition pending (nodes : list PageMapNode) : list PageMapNode :=
  filter (fun p => eligible p && negb (resolved nodes (node_name p))) nodes.

(** The last node with this name, if there is one. *)
Definition lastNamed (name : string) (nodes : list PageMapNode) : list PageMapNode :=
  match rev (filter (named name) nodes) with
  | [] => []
  | p :: _ => [p]
  end.

(** The names in the order of their first occurrences. *)
Definition firstSeen (names : list string) : list string :=
  fold_left (fun seen x => if existsb (String.eqb x) seen then seen else seen ++ [x])
            names [].

Definition fallbackPart (nodes : list PageMapNode) : list PageMapNode :=
  flat_map (fun name => lastNamed name (pending nodes))
           (order (firstSeen (map node_name (pending nodes)))).

Definition levelSpec (nodes : list PageMapNode) : list PageMapNode :=
  filter exact nodes ++ fallbackPart nodes.
End LevelSpec.

Definition absent (l : option string) : bool :=
  match l with None => true | Some _ => false end.

(** [node.locale == L], or [node.locale] absent and [L == D]. *)
Definition isExact (L D : option string) (p : PageMapNode) : bool :=
  strict_eq (node_locale p) L || (absent (node_locale p) && strict_eq L D).

(** [node.locale] is absent or equals [D]. *)
Definition isFallbackCandidate (D : option string) (p : PageMapNode) : bool :=
  absent (node_locale p) || strict_eq (node_locale p) D.

(** A locale tag, when there is one, is not the empty string. *)
Definition tagged (l : option string) : bool :=
  match l with None => true | Some s => negb (String.eqb s "") end.

(** What the first loop leaves in place: directories with their children
    filtered, and the exact matches. *)
Definition keptInPlace (L D : option string) (pageMap : list PageMapNode)
  : list PageMapNode :=
  flat_map (fun p =>
              if isDirectory p then [filterChildren L D p]
              else if localDoesMatch L D p then [p] else [])
           pageMap.

Definition leaves (pageMap : list PageMapNode) : list PageMapNode :=
  filter (fun p => negb (isDirectory p)) pageMap.

(** ** The state of the filter's loop

    What the first loop does to [fallbackPages] alone, what the second loop
    pushes, and the value the object holds for a name once the nodes [ls]
    were visited. *)

Section LoopState.
Variables L D : option string.

Definition record (p : PageMapNode) (fb : fallbacks) : fallbacks :=
  snd (visitPage L D p ([], fb)).

Definition pushed (names : list string) (fb : fallbacks) : list PageMapNode :=
  flat_map (fun name => match JsObject.get name fb with
                        | Some (Some p) => [p]
                        | _ => []
                        end) names.

Definition valueOf (ls : list PageMapNode) (name : string) : option (option PageMapNode) :=
  if resolved (localDoesMatch L D) ls name then Some None
  else match lastNamed name (filter (fallbackEligible D) ls) with
       | p :: _ => Some (Some p)
       | [] => None
       end.

(** The nodes that create or overwrite a property. *)
Definition touched (ls : list PageMapNode) : list PageMapNode :=
  filter (fun p => localDoesMatch L D p || fallbackEligible D p) ls.
End LoopState.

(** Every directory of the input sits at the same index in the output. *)
Definition directoriesKeepPosition (L D : option string) (pageMap : list PageMapNode) : Prop :=
  forall i name route children,
    nth_error pageMap i = Some (Directory name route children) ->
    nth_error (filterRouteLocale L D pageMap) i =
    Some (Directory name route (filterRouteLocale L D children)).

(** ** Notions used in the proofs *)

(** Induction on a page map node, with the hypothesis for every child. *)
Fixpoint PageMapNode_children_ind (P : PageMapNode -> Prop)
  (Hdir : forall name route children,
      Forall P children -> P (Directory name route children))
  (Hpage : forall name route locale frontMatter, P (Page name route locale frontMatter))
  (Hmeta : forall meta locale, P (MetaFile meta locale))
  (p : PageMapNode) : P p :=
  match p with
  | Directory name route children =>
      Hdir name route children
           ((fix all (l : list PageMapNode) : Forall P l :=
               match l with
               | [] => Forall_nil P
               | q :: l' =>
                   Forall_cons q (PageMapNode_children_ind Hdir Hpage Hmeta q) (all l')
               end) children)
  | Page name route locale frontMatter => Hpage name route locale frontMatter
  | MetaFile meta locale => Hmeta meta locale
  end.

(** Induction on an entry, with the hypothesis for every entry below it. *)
Fixpoint Dirent_entries_ind (P : Dirent -> Prop)
  (Hfile : forall name content, P (FileEnt name content))
  (Hdir : forall name entries, Forall P entries -> P (DirEnt name entries))
  (d : Dirent) : P d :=
  match d with
  | FileEnt name content => Hfile name content
  | DirEnt name entries =>
      Hdir name entries
           ((fix all (l : list Dirent) : Forall P l :=
               match l with
               | [] => Forall_nil P
               | f :: l' => Forall_cons f (Dirent_entries_ind Hfile Hdir f) (all l')
               end) entries)
  end.

Section TreeNotions.
Variable JSON_parse : string -> json + string.
Variable getProperty : json -> string -> option json.
Variable grayMatter : string -> mapping.
Variable readDone : string -> nat.
Variable currentResourcePath : string.

(** The children built for a directory do not depend on the state. *)
Definition stateless (d : Dirent) : Prop :=
  forall dir route st st',
    fst (getFilesIn JSON_parse getProperty grayMatter readDone currentResourcePath d dir route st) = fst (getFilesIn JSON_parse getProperty grayMatter readDone currentResourcePath d dir route st').

(** No directory without children is built. *)
Definition prunes (d : Dirent) : Prop :=
  forall dir route st, forallb noEmptyDirectory (fst (getFilesIn JSON_parse getProperty grayMatter readDone currentResourcePath d dir route st)) = true.

(** Nothing is ever removed from the console. *)
Definition keepsConsole (d : Dirent) : Prop :=
  forall dir route st message,
    In message (console st) -> In message (console (snd (getFilesIn JSON_parse getProperty grayMatter readDone currentResourcePath d dir route st))).

(** The assignments to [dirMeta], one after the other. *)
Definition assignAll (metas : list (string * json)) (dm : option (nat * json))
  : option (nat * json) :=
  fold_left (fun dm pm => assignMeta (readDone (fst pm)) (snd pm) dm) metas dm.
End TreeNotions.

(** The literal the branches of a variant compare the locale with. *)
Definition literalOf (file : LocaleFile) : string := show_locale (file_locale file).

(** How many dots a string has. *)
Definition dots (s : list ascii) : nat := List.length (filter (Ascii.eqb ".") s).

Definition localeExtensions : list (list ascii) :=
  map list_ascii_of_string ["md"; "mdx"; "js"; "jsx"; "json"].

(** The extensions the locale expression knows. *)
Definition localeRegexExtensions : list string := ["md"; "mdx"; "js"; "jsx"; "json"].

(** The characters of a locale segment. *)
Definition isLocaleSegment (locale : string) : bool :=
  negb (String.eqb locale "") && forallb letter_or_hyphen (list_ascii_of_string locale).

Definition hasNoDot (s : string) : bool := forallb not_dot (list_ascii_of_string s).

(** ** Examples *)

(** The siblings [a.md], [a.en.md], [a.fr.md]. *)
Definition sample : list PageMapNode :=
  [Page "a" "/a" None None; Page "a" "/a" (Some "en") None; Page "a" "/a" (Some "fr") None].

(** Two variants of one locale, the second with a static fetch. *)
Definition duplicated : Analysis :=
  {| ssr := false; ssg := true;
     files := [{| file_name := "a.fr.md"; file_locale := Some "fr";
                  file_ssr := false; file_ssg := false |};
               {| file_name := "a.fr.mdx"; file_locale := Some "fr";
                  file_ssr := false; file_ssg := true |}];
     defaultIndex := 0 |}.

(** The siblings [about.md] and [404.md], neither with a locale. *)
Definition numbered : list PageMapNode :=
  [Page "about" "/about" None None; Page "404" "/404" None None].

(** A page without a locale before a directory. *)
Definition pageThenDirectory : list PageMapNode :=
  [Page "a" "/a" None None; Directory "d" "/d" [Page "x" "/d/x" None None]].

(** The variants of the specification's example: [en] with a static fetch,
    [fr] without. *)
Definition englishStatic : Analysis :=
  {| ssr := false; ssg := true;
     files := [{| file_name := "a.en.md"; file_locale := Some "en";
                  file_ssr := false; file_ssg := true |};
               {| file_name := "a.fr.md"; file_locale := Some "fr";
                  file_ssr := false; file_ssg := false |}];
     defaultIndex := 0 |}.

Definition dquote : string := String (ascii_of_nat 34) "".

(** A meta file that gives [about] the empty title, and one that gives it
    a title. *)
Definition emptyTitleMeta : string :=
  "{" +++ dquote +++ "about" +++ dquote +++ ":" +++ dquote +++ dquote +++ "}".

Definition aboutTitleMeta : string :=
  "{" +++ dquote +++ "about" +++ dquote +++ ":" +++ dquote +++ "About us" +++ dquote +++ "}".

(** [JSON.parse] on the meta files of the examples; any other text is
    taken for a syntax error. *)
Definition exampleParse (content : string) : json + string :=
  if String.eqb content emptyTitleMeta then inl (JObj [("about", JStr "")])
  else if String.eqb content aboutTitleMeta then inl (JObj [("about", JStr "About us")])
  else if String.eqb content "null" then inl JNull
  else inr "SyntaxError: Unexpected token".

(** No meta file of the examples holds an array, a string, a number or a
    boolean. *)
Definition exampleProperty (value : json) (name : string) : option json := None.

(** No page of the examples has front matter. *)
Definition exampleMatter (content : string) : mapping := [].

(** All reads complete at once. *)
Definition exampleDone (path : string) : nat := 0%nat.


Definition aboutTitlePages : list Dirent :=
  [FileEnt "about.md" ""; FileEnt "meta.json" aboutTitleMeta].

Definition brokenMetaPages : list Dirent :=
  [FileEnt "about.md" ""; FileEnt "meta.json" "{oops"].


(** The detections of the analyzer on the examples: the static fetch is
    found in the one text that exports it. *)
Definition exampleRegExp (source flags text : string) : bool :=
  String.eqb flags "m" &&
  String.eqb source "^export .+ getStaticProps[=| |\(]" &&
  String.eqb text "export const getStaticProps = load".

(** [new RegExp] on the sources that the examples bring to it: the one
    base name with a character that has a meaning in an expression is
    [a(], and the source made from it has a parenthesis that is never
    closed. *)
Definition exampleCompile (source : string) : option (string -> bool) := None.

Definition exampleListing : list Dirent :=
  [FileEnt "a.en.md" "export const getStaticProps = load"; FileEnt "b.md" "";
   FileEnt "a.fr.md" ""].

(** A variant in TypeScript beside one in Markdown. *)
Definition typescriptListing : list Dirent :=
  [FileEnt "a.en.md" ""; FileEnt "a.fr.tsx" ""].

(** A page whose name starts like the base name. *)
Definition aboutListing : list Dirent :=
  [FileEnt "about.md" ""; FileEnt "a.en.md" ""].

(** ** Notions for the further properties *)

(** Every node that is not a directory passes the test, at any depth. *)
Fixpoint allLeaves (f : PageMapNode -> bool) (p : PageMapNode) : bool :=
  match p with
  | Directory _ _ children => forallb (allLeaves f) children
  | _ => f p
  end.

(** The node has no locale, the request locale or the default locale. *)
Definition localeAmong (L D : option string) (p : PageMapNode) : bool :=
  falsy (node_locale p) || strict_eq (node_locale p) L || strict_eq (node_locale p) D.

(** *** Matches, with what they capture *)

(** [Captures r st st']: from the state [st], [r] can reach [st']; the
    captures of [st'] are those of [st] and the groups [r] went through. *)
Inductive Captures : regex -> mstate -> mstate -> Prop :=
| C_Eps st : Captures Eps st st
| C_Lit c n s cs : Captures (Lit c) (MState n (c :: s) cs) (MState (S n) s cs)
| C_Cls p c n s cs :
    p c = true -> Captures (Cls p) (MState n (c :: s) cs) (MState (S n) s cs)
| C_Cat r1 r2 st st1 st2 :
    Captures r1 st st1 -> Captures r2 st1 st2 -> Captures (Cat r1 r2) st st2
| C_AltL r1 r2 st st' : Captures r1 st st' -> Captures (Alt r1 r2) st st'
| C_AltR r1 r2 st st' : Captures r2 st st' -> Captures (Alt r1 r2) st st'
| C_OptSome r st st' : Captures r st st' -> Captures (Opt r) st st'
| C_OptNone r st : Captures (Opt r) st st
| C_Plus p w n s cs :
    w <> [] -> forallb p w = true ->
    Captures (PlusCls p) (MState n (w ++ s) cs) (MState (n + List.length w) s cs)
| C_Grp i r st st' :
    Captures r st st' ->
    Captures (Grp i r) st
             (MState (pos st') (rest st')
                     ((i, firstn (pos st' - pos st) (rest st)) :: caps st'))
| C_Bos s cs : Captures Bos (MState 0 s cs) (MState 0 s cs)
| C_Eos n cs : Captures Eos (MState n [] cs) (MState n [] cs).

(** The expression has no [^]. *)
Fixpoint unanchored (r : regex) : bool :=
  match r with
  | Bos => false
  | Cat r1 r2 | Alt r1 r2 => unanchored r1 && unanchored r2
  | Opt r1 | Grp _ r1 => unanchored r1
  | _ => true
  end.

(** The same state, [d] characters further in the subject. *)
Definition shift (d : nat) (st : mstate) : mstate :=
  MState (pos st + d) (rest st) (caps st).

(** The longest prefix whose characters are all in the class. *)
Fixpoint prefixWhile (p : ascii -> bool) (s : list ascii) : list ascii :=
  match s with
  | c :: s' => if p c then c :: prefixWhile p s' else []
  | [] => []
  end.

(** The extensions of a content file, and of a Markdown file. *)
Definition contentExtensions : list string := ["md"; "mdx"; "js"; "jsx"; "ts"; "tsx"].
Definition markdownExtensions : list string := ["md"; "mdx"].

(** *** Notions about the built page map *)

(** The route of the node, if it has one, starts with [route]. *)
Definition routeUnder (route : string) (p : PageMapNode) : bool :=
  match node_route p with
  | Some r => String.prefix route r
  | None => true
  end.

(** Below a directory, every route extends the route of the directory. *)
Fixpoint routesNested (p : PageMapNode) : bool :=
  match p with
  | Directory _ route children =>
      forallb (fun c => routeUnder route c && routesNested c) children
  | _ => true
  end.

(** No locale, or a non-empty run of letters and hyphens. *)
Definition localeTag (l : option string) : bool :=
  match l with
  | Some s => isLocaleSegment s
  | None => true
  end.

(** The name of a page has no dot, and the locale of a page or of a meta
    file is a locale tag. *)
Definition wellNamed (p : PageMapNode) : bool :=
  match p with
  | Page name _ locale _ => hasNoDot name && localeTag locale
  | MetaFile _ locale => localeTag locale
  | Directory _ _ _ => true
  end.

(** No content file at or below the entry has the path [path]; [dir] is
    the directory the entry is in. *)
Fixpoint noFileAt (path dir : string) (f : Dirent) : bool :=
  match f with
  | FileEnt name _ =>
      negb (test extension name && String.eqb (path_resolve dir name) path)
  | DirEnt name entries => forallb (noFileAt path (path_resolve dir name)) entries
  end.

Section ActiveNotions.
Variable JSON_parse : string -> json + string.
Variable getProperty : json -> string -> option json.
Variable grayMatter : string -> mapping.
Variable readDone : string -> nat.
Variable currentResourcePath : string.

(** When nothing at or below the entry is the resource, building the
    entry leaves the active route and its title as they are. *)
Definition leavesActive (d : Dirent) : Prop :=
  forall dir route st,
    match d with
    | DirEnt _ entries => forallb (noFileAt currentResourcePath dir) entries = true
    | FileEnt _ _ => True
    end ->
    route <> "" -> activeRoute st = "" ->
    activeRoute (snd (getFilesIn JSON_parse getProperty grayMatter readDone currentResourcePath
                                 d dir route st)) = "" /\
    activeRouteTitle (snd (getFilesIn JSON_parse getProperty grayMatter readDone currentResourcePath
                                      d dir route st)) = activeRouteTitle st.
End ActiveNotions.

(** ** [_extends]

    [Object.assign], or the loop that stands in for it: the own enumerable
    properties of every source are assigned to the target, source after
    source, each source in its enumeration order. *)

Section Extends.
Variable V : Type.

(** [for (var key in source) target[key] = source[key]] *)
Definition assign (target source : JsObject.t V) : JsObject.t V :=
  fold_left (fun t kv => JsObject.set (fst kv) (snd kv) t) source target.

Definition _extends (target : JsObject.t V) (sources : list (JsObject.t V)) : JsObject.t V :=
  fold_left assign sources target.

End Extends.

(** ** Global replacement *)

(** [s.replace(re, repl)] for a global [re] and a [repl] without [$]:
    every match is replaced, each search starting where the previous match
    ended; after an empty match one character is copied.  [fuel] bounds the
    number of matches. *)
Fixpoint replaceAll_from (fuel : nat) (r : regex) (repl : list ascii) (i : nat)
         (s : list ascii) : list ascii :=
  match fuel with
  | O => s
  | S fuel' =>
      match search r i s with
      | Some (j, st) =>
          firstn (j - i) s ++ repl ++
          (if Nat.eqb (pos st) j then
             match rest st with
             | c :: s' => c :: replaceAll_from fuel' r repl (S j) s'
             | [] => []
             end
           else replaceAll_from fuel' r repl (pos st) (rest st))
      | None => s
      end
  end.

Definition replaceAll (r : regex) (repl : string) (s : string) : string :=
  let cs := list_ascii_of_string s in
  string_of_list_ascii
    (replaceAll_from (S (List.length cs)) r (list_ascii_of_string repl) 0 cs).

(** Every occurrence of [c] replaced by [repl], the rest unchanged. *)
Definition substitute (c : ascii) (repl : list ascii) (s : list ascii) : list ascii :=
  flat_map (fun x => if Ascii.eqb c x then repl else [x]) s.

(** ** The search index

    [addStorkIndex] keeps, for every locale, the text of a Stork
    configuration in the module-level object [files], and writes it to
    [public/index-<locale>.toml] each time a page is added.  The calls are
    taken one after the other, each to its end; [mkdirSync] and [writeFile]
    are taken to succeed, and [cwd] to have no trailing slash.  As for the
    other plain objects, a locale or a route is taken not to be the name of
    a member of [Object.prototype]. *)

Module Stork.

Definition quote : ascii := ascii_of_nat 34.
Definition backslash : ascii := ascii_of_nat 92.
Definition linefeed : ascii := ascii_of_nat 10.

(** [str.replace(/"/g, '\\"')] *)
Definition escapeQuote (str : string) : string :=
  replaceAll (Lit quote) (String backslash (String quote "")) str.

(** [plainText.replace(/\n/g, '\\n')] *)
Definition escapeLinefeed (str : string) : string :=
  replaceAll (Lit linefeed) (String backslash "n") str.

(** [toLowerCase] on one character.  A character outside ASCII never
    becomes [e] or [n], the only characters the caller looks at. *)
Definition lowerCase (c : ascii) : ascii :=
  if in_range "A" "Z" c then ascii_of_N (N_of_ascii c + 32) else c.

Definition toLowerCase (s : string) : string :=
  string_of_list_ascii (map lowerCase (list_ascii_of_string s)).

(** [s.startsWith(start)] *)
Definition startsWith (s start : string) : bool := String.prefix start s.

Definition getStemmingLanguage (locale : string) : string :=
  if startsWith (toLowerCase locale) "en" then "English" else "None".

(** A node of the tree the plugin is given: its children, if it has any,
    and for a child its [value], if it has one. *)
Record MdChild : Type := { value : option string }.
Record MdNode : Type := { children : option (list MdChild) }.

(** [/^(import|export) /] *)
Definition importExport : regex :=
  (Bos ~> Grp 1 (lits "import" <|> lits "export") ~> Lit " ")%re.

(** One turn of the loop of the plugin.  Reading
    [tree.children[i].children[0].value] throws when the node has no
    children or no first child, and the [catch] drops the node; a first
    child without [value] gives [undefined]. *)
Definition collect (plainText : string) (node : MdNode) : string :=
  match children node with
  | Some (child :: _) =>
      let text := match value child with Some v => v | None => "undefined" end in
      if test importExport text then plainText
      else plainText +++ text +++ newline
  | _ => plainText
  end.

(** What a node gives the loop to look at: the [value] of its first
    child, [undefined] when that child has none; nothing when reading it
    throws. *)
Definition firstValue (node : MdNode) : list string :=
  match children node with
  | Some (child :: _) => [match value child with Some v => v | None => "undefined" end]
  | _ => []
  end.

(** The text starts with [import ] or [export ]. *)
Definition isImportOrExport (text : string) : bool :=
  startsWith text "import " || startsWith text "export ".

Section Index.
(** [process.env.NODE_ENV === 'production'], [process.cwd()], and the tree
    that [remark().use(strip)] hands to the plugin for a text. *)
Variable isProduction : bool.
Variable cwd : string.
Variable stripped : string -> list MdNode.

Definition getPlainText (content : string) : string :=
  fold_left collect (stripped content) "".

(** What a property of [files[fileLocale]] holds: the text of [toml], or
    [true] for a route. *)
Inductive Value : Type :=
| Text (s : string)
| True_.

(** [`${v}`], and [!!v], for what reading a property gives. *)
Definition show (v : option Value) : string :=
  match v with
  | Some (Text s) => s
  | Some True_ => "true"
  | None => "undefined"
  end.

Definition truthy (v : option Value) : bool :=
  match v with
  | Some (Text s) => negb (String.eqb s "")
  | Some True_ => true
  | None => false
  end.

Definition Entry := JsObject.t Value.

(** The module-level [files], whether [public] exists, and what was
    written, in order. *)
Record State : Type := {
  files : JsObject.t Entry;
  publicDir : bool;
  written : list (string * string)
}.

Inductive Completion : Type :=
| Fulfilled
| Rejected.

Definition header (fileLocale : string) : string :=
  "[input]" +++ newline +++
  "minimum_indexed_substring_length = 2" +++ newline +++
  "title_boost = " +++ dquote +++ "Ridiculous" +++ dquote +++ newline +++
  "stemming = " +++ dquote +++ getStemmingLanguage fileLocale +++ dquote +++ newline +++
  newline.

(** [files[fileLocale].toml += text] *)
Definition appendToml (text : string) (entry : Entry) : Entry :=
  JsObject.set "toml" (Text (show (JsObject.get "toml" entry) +++ text)) entry.

(** [data.title || title] *)
Definition titleOf (data : mapping) (title : json) : json :=
  match lookup "title" data with
  | Some v => if json_truthy v then v else title
  | None => title
  end.

Definition tomlFile (fileLocale : string) : string :=
  (cwd +++ "/public") +++ "/" +++ ("index-" +++ fileLocale +++ ".toml").

(** [files] and its entries are plain objects, kept with their own
    properties: [files[fileLocale]] and [files[fileLocale][route]] are
    read as own properties, which they are unless the locale or the route
    is the name of a member of [Object.prototype].  [escapeQuote] throws
    on what is not a string: the call is rejected there, with what was
    assigned before left in [files]. *)
Definition addStorkIndex (fileLocale route : string) (title : json) (data : mapping)
           (content : string) (s : State) : State * Completion :=
  if negb isProduction then (s, Fulfilled)
  else
    let files1 :=
      match JsObject.get fileLocale (files s) with
      | Some _ => files s
      | None => JsObject.set fileLocale [("toml", Text (header fileLocale))] (files s)
      end in
    let entry := match JsObject.get fileLocale files1 with Some e => e | None => [] end in
    if truthy (JsObject.get route entry) then
      ({| files := files1; publicDir := publicDir s; written := written s |}, Fulfilled)
    else
      let plainText := getPlainText content in
      let entry1 := JsObject.set route True_ entry in
      let entry2 := appendToml ("[[input.files]]" +++ newline) entry1 in
      match titleOf data title with
      | JStr text =>
          let entry3 :=
            appendToml ("title = " +++ dquote +++ escapeQuote text +++ dquote +++ newline)
                       entry2 in
          let entry4 :=
            appendToml ("url = " +++ dquote +++ escapeQuote route +++ dquote +++ newline)
                       entry3 in
          let entry5 :=
            appendToml ("contents = " +++ dquote +++
                        escapeQuote (escapeLinefeed plainText) +++ dquote +++ newline)
                       entry4 in
          let entry6 :=
            appendToml ("filetype = " +++ dquote +++ "PlainText" +++ dquote) entry5 in
          let entry7 := appendToml newline entry6 in
          ({| files := JsObject.set fileLocale entry7 files1;
              publicDir := true;
              written := written s ++
                         [(tomlFile fileLocale, show (JsObject.get "toml" entry7))] |},
           Fulfilled)
      | _ =>
          ({| files := JsObject.set fileLocale entry2 files1;
              publicDir := publicDir s;
              written := written s |},
           Rejected)
      end.

(** *** The index, said on the calls *)

(** [files[fileLocale][route]] is truthy once [files[fileLocale]] is
    there: the route was indexed for the locale. *)
Definition indexed (fileLocale route : string) (s : State) : bool :=
  match JsObject.get fileLocale (files s) with
  | Some entry => truthy (JsObject.get route entry)
  | None => truthy (JsObject.get route [("toml", Text (header fileLocale))])
  end.

(** The text of [files[fileLocale].toml], the header when the locale is
    new. *)
Definition tomlOf (fileLocale : string) (s : State) : string :=
  match JsObject.get fileLocale (files s) with
  | Some entry => show (JsObject.get "toml" entry)
  | None => header fileLocale
  end.

(** The [[input.files]] section of one page. *)
Definition inputFile (route text content : string) : string :=
  ("[[input.files]]" +++ newline) +++
  ("title = " +++ dquote +++ escapeQuote text +++ dquote +++ newline) +++
  ("url = " +++ dquote +++ escapeQuote route +++ dquote +++ newline) +++
  ("contents = " +++ dquote +++ escapeQuote (escapeLinefeed (getPlainText content)) +++
   dquote +++ newline) +++
  ("filetype = " +++ dquote +++ "PlainText" +++ dquote) +++
  newline.

(** The states the module goes through: [files] starts empty, and every
    call of [addStorkIndex] moves on, whether it is fulfilled or not.  The
    calls are those for a locale that [files] keeps as an own property:
    for a locale named as a member of [Object.prototype] the code finds
    that member in [files[fileLocale]] and makes no entry. *)
Inductive reachable : State -> Prop :=
| reachable_start (exists_ : bool) :
    reachable {| files := JsObject.empty Entry; publicDir := exists_; written := [] |}
| reachable_call s fileLocale route title data content :
    JsObject.inherited fileLocale = false ->
    reachable s ->
    reachable (fst (addStorkIndex fileLocale route title data content s)).

End Index.

End Stork.

(** * Properties *)

Example getLocaleFromFilename_en : getLocaleFromFilename "index.en.mdx" = Some "en".
Proof. reflexivity. Qed.

Example getLocaleFromFilename_plain : getLocaleFromFilename "index.mdx" = None.
Proof. reflexivity. Qed.


(** ** Objects and their enumeration order *)

Module JsObjectFacts.
Import JsObject.

Section Obj.
Variable V : Type.
Implicit Types (o : t V) (k : string) (v : V).

Lemma has_In k o : has k o = true <-> In k (keys o).
Proof.
  unfold has. induction o as [|[k' v'] o IH]; simpl.
  - split; [discriminate | tauto].
  - destruct (String.eqb_spec k k') as [->|Hne].
    + split; auto.
    + rewrite IH. split; [auto | intros [H|H]; [congruence | exact H]].
Qed.

Lemma get_None_not_In k o : get k o = None <-> ~ In k (keys o).
Proof.
  rewrite <- has_In. unfold has. destruct (get k o); split; congruence.
Qed.

Lemma keys_update k v o : keys (update k v o) = keys o.
Proof.
  induction o as [|[k' v'] o IH]; simpl; [reflexivity|].
  destruct (String.eqb k k'); simpl; [reflexivity | now rewrite IH].
Qed.

Lemma get_update_same k v o : has k o = true -> get k (update k v o) = Some v.
Proof.
  unfold has. induction o as [|[k' v'] o IH]; simpl; [discriminate|].
  destruct (String.eqb_spec k k') as [->|Hne]; simpl.
  - now rewrite String.eqb_refl.
  - intros H. destruct (String.eqb_spec k k'); [congruence | auto].
Qed.

Lemma get_update_other k k' v o : k' <> k -> get k' (update k v o) = get k' o.
Proof.
  intros Hne. induction o as [|[k1 v1] o IH]; simpl; [reflexivity|].
  destruct (String.eqb_spec k k1) as [->|Hne1]; simpl.
  - destruct (String.eqb_spec k' k1); [congruence | reflexivity].
  - now rewrite IH.
Qed.

Lemma get_app k o1 o2 :
  get k (o1 ++ o2) = match get k o1 with Some v => Some v | None => get k o2 end.
Proof.
  induction o1 as [|[k1 v1] o1 IH]; simpl; [reflexivity|].
  destruct (String.eqb k k1); [reflexivity | exact IH].
Qed.

Lemma get_add_index_same n k v o : get k o = None -> get k (add_index n k v o) = Some v.
Proof.
  induction o as [|[k1 v1] o IH]; simpl.
  - now rewrite String.eqb_refl.
  - destruct (String.eqb_spec k k1) as [->|Hne]; [discriminate|].
    intros H. destruct (array_index k1) as [n1|].
    + destruct (n1 <=? n)%N; simpl.
      * destruct (String.eqb_spec k k1); [congruence | auto].
      * now rewrite String.eqb_refl.
    + simpl. now rewrite String.eqb_refl.
Qed.

Lemma get_add_index_other n k k' v o :
  k' <> k -> get k' (add_index n k v o) = get k' o.
Proof.
  intros Hne. induction o as [|[k1 v1] o IH]; simpl.
  - destruct (String.eqb_spec k' k); [congruence | reflexivity].
  - destruct (array_index k1) as [n1|].
    + destruct (n1 <=? n)%N; simpl.
      * now rewrite IH.
      * destruct (String.eqb_spec k' k); [congruence | reflexivity].
    + simpl. destruct (String.eqb_spec k' k); [congruence | reflexivity].
Qed.

Lemma get_set_same k v o : get k (set k v o) = Some v.
Proof.
  unfold set. destruct (has k o) eqn:Hhas.
  - now apply get_update_same.
  - assert (Hnone : get k o = None).
    { unfold has in Hhas. destruct (get k o); [discriminate | reflexivity]. }
    unfold add. destruct (array_index k).
    + now apply get_add_index_same.
    + rewrite get_app, Hnone. simpl. now rewrite String.eqb_refl.
Qed.

Lemma get_set_other k k' v o : k' <> k -> get k' (set k v o) = get k' o.
Proof.
  intros Hne. unfold set. destruct (has k o).
  - now apply get_update_other.
  - unfold add. destruct (array_index k).
    + now apply get_add_index_other.
    + rewrite get_app. simpl.
      destruct (String.eqb_spec k' k); [congruence|].
      now destruct (get k' o).
Qed.


Lemma keys_add k v o : keys (add k v o) = insertKey k (keys o).
Proof.
  unfold add, insertKey, keys. destruct (array_index k) as [n|].
  - induction o as [|[k1 v1] o IH]; simpl; [reflexivity|].
    destruct (array_index k1) as [n1|]; [|reflexivity].
    destruct (n1 <=? n)%N; simpl; [now rewrite IH | reflexivity].
  - now rewrite map_app.
Qed.

Lemma keys_set k v o :
  keys (set k v o) = if has k o then keys o else insertKey k (keys o).
Proof.
  unfold set. destruct (has k o); [apply keys_update | apply keys_add].
Qed.

End Obj.

(** *** Sorting by index *)


Lemma In_insertSorted k x ks : In x (insertSorted k ks) <-> x = k \/ In x ks.
Proof.
  induction ks as [|k' ks IH]; simpl.
  - intuition congruence.
  - destruct (indexOf k' <=? indexOf k)%N; simpl; rewrite ?IH; intuition congruence.
Qed.

Lemma Forall_insertSorted (P : string -> Prop) k ks :
  P k -> Forall P ks -> Forall P (insertSorted k ks).
Proof.
  intros Hk H. apply Forall_forall. intros x Hx.
  apply In_insertSorted in Hx as [->|Hx]; [exact Hk|].
  rewrite Forall_forall in H. now apply H.
Qed.

Lemma sortByIndex_snoc ks k : sortByIndex (ks ++ [k]) = insertSorted k (sortByIndex ks).
Proof. unfold sortByIndex. now rewrite fold_left_app. Qed.

Lemma In_sortByIndex x ks : In x (sortByIndex ks) <-> In x ks.
Proof.
  induction ks as [|k ks IH] using rev_ind; [reflexivity|].
  rewrite sortByIndex_snoc, In_insertSorted, in_app_iff, IH. simpl. intuition congruence.
Qed.

Lemma Forall_sortByIndex (P : string -> Prop) ks : Forall P ks -> Forall P (sortByIndex ks).
Proof.
  rewrite !Forall_forall. intros H x Hx. apply H. now apply In_sortByIndex.
Qed.

Lemma insertSorted_sorted k ks :
  StronglySorted leIndex ks -> StronglySorted leIndex (insertSorted k ks).
Proof.
  induction 1 as [|k' ks Hs IH Hall]; simpl.
  - repeat constructor.
  - destruct (N.leb_spec (indexOf k') (indexOf k)) as [Hle|Hgt].
    + constructor; [exact IH|]. now apply Forall_insertSorted.
    + constructor; [now constructor|].
      constructor; [unfold leIndex; lia|].
      eapply Forall_impl; [|exact Hall]. unfold leIndex. intros; lia.
Qed.

Lemma sortByIndex_sorted ks : StronglySorted leIndex (sortByIndex ks).
Proof.
  induction ks as [|k ks IH] using rev_ind; [constructor|].
  rewrite sortByIndex_snoc. now apply insertSorted_sorted.
Qed.

Lemma insertSorted_perm k ks : Permutation (k :: ks) (insertSorted k ks).
Proof.
  induction ks as [|k' ks IH]; simpl; [reflexivity|].
  destruct (indexOf k' <=? indexOf k)%N; [|reflexivity].
  rewrite perm_swap. now constructor.
Qed.

Lemma sortByIndex_perm ks : Permutation ks (sortByIndex ks).
Proof.
  induction ks as [|k ks IH] using rev_ind; [reflexivity|].
  rewrite sortByIndex_snoc, <- insertSorted_perm, <- IH.
  symmetry. apply Permutation_cons_append.
Qed.

(** Inserting after everything that is not larger. *)
Lemma insertSorted_last k ks :
  Forall (fun x => leIndex x k) ks -> insertSorted k ks = ks ++ [k].
Proof.
  induction 1 as [|k' ks Hle Hall IH]; simpl; [reflexivity|].
  unfold leIndex in Hle. apply N.leb_le in Hle. now rewrite Hle, IH.
Qed.

Lemma StronglySorted_snoc ks k :
  StronglySorted leIndex (ks ++ [k]) ->
  StronglySorted leIndex ks /\ Forall (fun x => leIndex x k) ks.
Proof.
  induction ks as [|k' ks IH]; simpl; intros H.
  - split; constructor.
  - apply StronglySorted_inv in H as [Hs Hall].
    destruct (IH Hs) as [Hs' Hall'].
    apply Forall_app in Hall as [Hall1 Hall2].
    split; constructor; auto.
    now inversion Hall2.
Qed.

Lemma sortByIndex_id ks : StronglySorted leIndex ks -> sortByIndex ks = ks.
Proof.
  induction ks as [|k ks IH] using rev_ind; [reflexivity|].
  intros H. apply StronglySorted_snoc in H as [Hs Hall].
  rewrite sortByIndex_snoc, IH by exact Hs. now apply insertSorted_last.
Qed.

Lemma filter_insertSorted (f : string -> bool) k ks :
  StronglySorted leIndex ks ->
  filter f (insertSorted k ks) =
  if f k then insertSorted k (filter f ks) else filter f ks.
Proof.
  induction 1 as [|k' ks Hs IH Hall]; simpl.
  - now destruct (f k).
  - destruct (N.leb_spec (indexOf k') (indexOf k)) as [Hle|Hgt]; simpl.
    + rewrite IH. destruct (f k'), (f k); simpl; try reflexivity.
      apply N.leb_le in Hle. now rewrite Hle.
    + destruct (f k) eqn:Hk; [|reflexivity].
      destruct (f k') eqn:Hk'; simpl.
      * apply N.leb_gt in Hgt. now rewrite Hgt.
      * (* every kept element is larger than [k] *)
        clear IH. induction ks as [|k2 ks IH2]; simpl; [reflexivity|].
        apply StronglySorted_inv in Hs as [Hs Hall2].
        inversion Hall as [|? ? Hk2 Hall']; subst.
        destruct (f k2); simpl.
        -- unfold leIndex in Hk2.
           assert (Hf : (indexOf k2 <=? indexOf k)%N = false) by (apply N.leb_gt; lia).
           now rewrite Hf.
        -- now apply IH2.
Qed.

Lemma filter_sortByIndex (f : string -> bool) ks :
  filter f (sortByIndex ks) = sortByIndex (filter f ks).
Proof.
  induction ks as [|k ks IH] using rev_ind; [reflexivity|].
  rewrite sortByIndex_snoc, filter_insertSorted by apply sortByIndex_sorted.
  rewrite filter_app, IH. simpl. destruct (f k).
  - now rewrite sortByIndex_snoc.
  - now rewrite app_nil_r.
Qed.

(** *** The enumeration order *)

Lemma filter_filter_comm (A : Type) (f g : A -> bool) (l : list A) :
  filter f (filter g l) = filter g (filter f l).
Proof.
  induction l as [|a l IH]; simpl; [reflexivity|].
  destruct (f a) eqn:Hf, (g a) eqn:Hg; simpl; rewrite ?Hf, ?Hg, IH; reflexivity.
Qed.

Lemma In_jsOrder x ks : In x (jsOrder ks) <-> In x ks.
Proof.
  unfold jsOrder. rewrite in_app_iff, In_sortByIndex, !filter_In.
  destruct (isIndex x); simpl; intuition congruence.
Qed.

Lemma filter_jsOrder (f : string -> bool) ks : filter f (jsOrder ks) = jsOrder (filter f ks).
Proof.
  unfold jsOrder.
  rewrite filter_app, filter_sortByIndex.
  now rewrite (filter_filter_comm f isIndex), (filter_filter_comm f (fun k => negb (isIndex k))).
Qed.

Lemma filter_all (A : Type) (f : A -> bool) (l : list A) :
  Forall (fun a => f a = true) l -> filter f l = l.
Proof. induction 1 as [|a l Ha _ IH]; simpl; [reflexivity|]. now rewrite Ha, IH. Qed.

Lemma filter_none (A : Type) (f : A -> bool) (l : list A) :
  Forall (fun a => f a = false) l -> filter f l = [].
Proof. induction 1 as [|a l Ha _ IH]; simpl; [reflexivity|]. now rewrite Ha, IH. Qed.

Lemma Forall_filter_true (A : Type) (f : A -> bool) (l : list A) :
  Forall (fun a => f a = true) (filter f l).
Proof. apply Forall_forall. intros a Ha. now apply filter_In in Ha. Qed.

Lemma jsOrder_idem ks : jsOrder (jsOrder ks) = jsOrder ks.
Proof.
  unfold jsOrder at 1 3.
  assert (Hidx : Forall (fun k => isIndex k = true) (sortByIndex (filter isIndex ks))).
  { apply Forall_sortByIndex, Forall_filter_true. }
  assert (Hstr : Forall (fun k => negb (isIndex k) = true)
                   (filter (fun k => negb (isIndex k)) ks)).
  { apply (Forall_filter_true (fun k => negb (isIndex k))). }
  unfold jsOrder. rewrite !filter_app.
  rewrite (filter_all isIndex Hidx).
  rewrite (filter_all (fun k => negb (isIndex k)) Hstr).
  rewrite (@filter_none _ isIndex (filter _ ks)).
  2:{ eapply Forall_impl; [|exact Hstr]. intros a Ha. simpl in Ha. now destruct (isIndex a). }
  rewrite (@filter_none _ (fun k => negb (isIndex k)) (sortByIndex _)).
  2:{ eapply Forall_impl; [|exact Hidx]. intros a Ha. simpl in Ha. now rewrite Ha. }
  rewrite app_nil_r. simpl.
  now rewrite sortByIndex_id by apply sortByIndex_sorted.
Qed.

(** Creating a key that is new extends the creation order by it. *)
Lemma jsOrder_snoc ks k : jsOrder (ks ++ [k]) = insertKey k (jsOrder ks).
Proof.
  unfold jsOrder, insertKey. rewrite !filter_app. simpl.
  pose proof (eq_refl : isIndex k =
    match array_index k with Some _ => true | None => false end) as Hi.
  destruct (array_index k) as [n|] eqn:Hk; rewrite Hi; simpl.
  - rewrite app_nil_r, sortByIndex_snoc.
    assert (Hidx : Forall (fun k => isIndex k = true) (sortByIndex (filter isIndex ks))).
    { apply Forall_sortByIndex, Forall_filter_true. }
    assert (Hstr : Forall (fun k => isIndex k = false)
                     (filter (fun k => negb (isIndex k)) ks)).
    { eapply Forall_impl; [|apply (Forall_filter_true (fun k => negb (isIndex k)))].
      intros a Ha. simpl in Ha. now destruct (isIndex a). }
    induction Hidx as [|k' S Hk' _ IH]; simpl.
    + destruct Hstr as [|b B Hb _]; [reflexivity|].
      unfold isIndex in Hb. now destruct (array_index b).
    + unfold isIndex in Hk'. unfold indexOf at 1 2. rewrite Hk.
      destruct (array_index k') as [n'|]; [|discriminate].
      destruct (n' <=? n)%N; [|reflexivity].
      f_equal. now rewrite <- IH.
  - now rewrite app_nil_r, app_assoc.
Qed.

End JsObjectFacts.

Import JsObject JsObjectFacts.

(** ** Lists of names and of nodes *)

Lemma existsb_eqb_In x l : existsb (String.eqb x) l = true <-> In x l.
Proof.
  rewrite existsb_exists. split.
  - intros [y [Hy Heq]]. apply String.eqb_eq in Heq. now subst.
  - intros H. exists x. split; [exact H | apply String.eqb_refl].
Qed.

Lemma firstSeen_snoc l x :
  firstSeen (l ++ [x]) =
  if existsb (String.eqb x) (firstSeen l) then firstSeen l else firstSeen l ++ [x].
Proof. unfold firstSeen. now rewrite fold_left_app. Qed.

Lemma In_firstSeen x l : In x (firstSeen l) <-> In x l.
Proof.
  revert x. induction l as [|y l IH] using rev_ind; intros x; [reflexivity|].
  rewrite firstSeen_snoc, in_app_iff. simpl.
  destruct (existsb (String.eqb y) (firstSeen l)) eqn:He.
  - apply existsb_eqb_In, IH in He. rewrite IH. intuition congruence.
  - rewrite in_app_iff, IH. simpl. tauto.
Qed.

Lemma lastNamed_snoc name ls p :
  lastNamed name (ls ++ [p]) = if named name p then [p] else lastNamed name ls.
Proof.
  unfold lastNamed. rewrite filter_app. simpl. destruct (named name p).
  - now rewrite rev_app_distr.
  - now rewrite app_nil_r.
Qed.

Lemma filter_firstSeen (f : string -> bool) l :
  filter f (firstSeen l) = firstSeen (filter f l).
Proof.
  induction l as [|x l IH] using rev_ind; [reflexivity|].
  rewrite firstSeen_snoc, filter_app. simpl.
  destruct (f x) eqn:Hf.
  - rewrite firstSeen_snoc, <- IH.
    assert (He : existsb (String.eqb x) (filter f (firstSeen l)) =
                 existsb (String.eqb x) (firstSeen l)).
    { apply eq_true_iff_eq. rewrite !existsb_eqb_In, filter_In. tauto. }
    rewrite He. destruct (existsb (String.eqb x) (firstSeen l)); [reflexivity|].
    rewrite filter_app. simpl. now rewrite Hf.
  - rewrite app_nil_r, <- IH. destruct (existsb _ _); [reflexivity|].
    rewrite filter_app. simpl. now rewrite Hf, app_nil_r.
Qed.

Lemma NoDup_snoc (A : Type) (l : list A) (x : A) :
  NoDup (l ++ [x]) <-> NoDup l /\ ~ In x l.
Proof.
  split.
  - intros H.
    apply (Permutation_NoDup (Permutation_sym (Permutation_cons_append l x))) in H.
    inversion H; auto.
  - intros [H1 H2]. apply (Permutation_NoDup (Permutation_cons_append l x)).
    now constructor.
Qed.

Lemma NoDup_firstSeen l : NoDup (firstSeen l).
Proof.
  induction l as [|x l IH] using rev_ind; [constructor|].
  rewrite firstSeen_snoc. destruct (existsb _ _) eqn:He; [exact IH|].
  apply NoDup_snoc. split; [exact IH|].
  intros Hin. apply existsb_eqb_In in Hin. congruence.
Qed.

Lemma firstSeen_NoDup l : NoDup l -> firstSeen l = l.
Proof.
  induction l as [|x l IH] using rev_ind; [reflexivity|].
  intros Hnd. apply NoDup_snoc in Hnd as [Hl Hx].
  rewrite firstSeen_snoc, IH by exact Hl.
  destruct (existsb _ _) eqn:He; [|reflexivity].
  apply existsb_eqb_In in He. contradiction.
Qed.

Lemma filter_filter_and (A : Type) (f g : A -> bool) (l : list A) :
  filter f (filter g l) = filter (fun a => g a && f a) l.
Proof.
  induction l as [|a l IH]; simpl; [reflexivity|].
  destruct (g a); simpl; [destruct (f a)|]; now rewrite IH.
Qed.

Lemma flat_map_ext_in (A B : Type) (f g : A -> list B) (l : list A) :
  (forall a, In a l -> f a = g a) -> flat_map f l = flat_map g l.
Proof.
  induction l as [|a l IH]; simpl; intros H; [reflexivity|].
  rewrite (H a) by now left. f_equal. apply IH. intros; apply H; now right.
Qed.

Lemma flat_map_filter_nil (A B : Type) (f : A -> list B) (q : A -> bool) (l : list A) :
  (forall a, q a = false -> f a = []) -> flat_map f l = flat_map f (filter q l).
Proof.
  intros H. induction l as [|a l IH]; simpl; [reflexivity|].
  destruct (q a) eqn:Hq; simpl; [now rewrite IH|].
  now rewrite (H a Hq), IH.
Qed.

Lemma lastNamed_short name ls :
  match lastNamed name ls with p :: _ => [p] | [] => [] end = lastNamed name ls.
Proof. unfold lastNamed. now destruct (rev _). Qed.

Lemma lastNamed_In name ls p : In p (lastNamed name ls) -> In p ls /\ node_name p = name.
Proof.
  unfold lastNamed. destruct (rev _) as [|q r] eqn:Hr; simpl; [tauto|].
  intros [<-|[]].
  assert (Hin : In q (filter (named name) ls)).
  { apply in_rev. rewrite Hr. now left. }
  apply filter_In in Hin as [Hin Hn]. split; [exact Hin | now apply String.eqb_eq].
Qed.

Lemma named_eq name p : named name p = true <-> node_name p = name.
Proof. apply String.eqb_eq. Qed.

Lemma named_self p : named (node_name p) p = true.
Proof. apply String.eqb_refl. Qed.

Section SpecFacts.
Variables exact eligible : PageMapNode -> bool.

Lemma resolved_snoc ls p name :
  resolved exact (ls ++ [p]) name = resolved exact ls name || (exact p && named name p).
Proof. unfold resolved. rewrite existsb_app. simpl. now rewrite orb_false_r. Qed.

Lemma resolved_true ls name :
  resolved exact ls name = true <->
  exists p, In p ls /\ exact p = true /\ node_name p = name.
Proof.
  unfold resolved. rewrite existsb_exists. split; intros [p [Hin H]]; exists p.
  - apply andb_true_iff in H as [He Hn]. apply String.eqb_eq in Hn. auto.
  - destruct H as [He Hn]. split; [exact Hin|].
    rewrite He. simpl. now apply String.eqb_eq.
Qed.

Lemma pending_In ls p :
  In p (pending exact eligible ls) <->
  In p ls /\ eligible p = true /\ resolved exact ls (node_name p) = false.
Proof.
  unfold pending. rewrite filter_In, andb_true_iff, negb_true_iff. tauto.
Qed.
End SpecFacts.


Section Level.
Variables L D : option string.
Local Abbreviation exact := (localDoesMatch L D).
Local Abbreviation eligible := (fallbackEligible D).
Local Abbreviation record := (record L D).
Local Abbreviation valueOf := (valueOf L D).
Local Abbreviation touched := (touched L D).

Lemma visitPage_eq p acc fb :
  visitPage L D p (acc, fb) = (acc ++ (if exact p then [p] else []), record p fb).
Proof.
  unfold record, visitPage. destruct (localDoesMatch L D p); [reflexivity|].
  rewrite app_nil_r. now destruct (notNull _ _ && _).
Qed.

Lemma visitAll_eq g pm acc fb :
  visitAll L D g pm (acc, fb) =
  (acc ++ flat_map (fun p => if isDirectory p then [g p]
                             else if exact p then [p] else []) pm,
   fold_left (fun fb p => record p fb) (leaves pm) fb).
Proof.
  revert acc fb. induction pm as [|p pm IH]; intros acc fb.
  - simpl. now rewrite app_nil_r.
  - change (visitAll L D g (p :: pm) (acc, fb))
      with (if isDirectory p then visitAll L D g pm (acc ++ [g p], fb)
            else visitAll L D g pm (visitPage L D p (acc, fb))).
    rewrite visitPage_eq. unfold leaves. cbn [flat_map filter].
    destruct (isDirectory p); cbn [negb]; rewrite IH; cbn [fold_left];
      now rewrite <- !app_assoc.
Qed.

Lemma pushFallbacks_eq names fb acc : pushFallbacks names fb acc = acc ++ pushed names fb.
Proof.
  revert acc. induction names as [|name names IH]; intros acc; simpl.
  - now rewrite app_nil_r.
  - destruct (get name fb) as [[p|]|]; rewrite IH; simpl; now rewrite <- ?app_assoc.
Qed.

Lemma record_inv ls :
  let fb := fold_left (fun fb p => record p fb) ls (empty _) in
  keys fb = jsOrder (firstSeen (map node_name (touched ls))) /\
  forall name, get name fb = valueOf ls name.
Proof.
  induction ls as [|p ls IH] using rev_ind; simpl.
  - split; [reflexivity|]. intros name. reflexivity.
  - rewrite fold_left_app. simpl.
    set (fb := fold_left (fun fb p => record p fb) ls (empty _)) in *.
    simpl in IH. destruct IH as [Hkeys Hget].
    assert (Hhas : forall k, has k fb = true <-> In k (map node_name (touched ls))).
    { intros k. rewrite has_In, Hkeys, In_jsOrder, In_firstSeen. reflexivity. }
    unfold touched in *. rewrite filter_app, map_app. simpl.
    unfold record, visitPage.
    destruct (exact p) eqn:Hex; simpl.
    + (* an exact match: the name is resolved *)
      split.
      * rewrite keys_set, firstSeen_snoc.
        destruct (has (node_name p) fb) eqn:Hh.
        -- apply Hhas in Hh. apply In_firstSeen, existsb_eqb_In in Hh. now rewrite Hh.
        -- destruct (existsb _ _) eqn:He.
           ++ apply existsb_eqb_In, In_firstSeen, Hhas in He. congruence.
           ++ now rewrite jsOrder_snoc, Hkeys.
      * intros name. unfold valueOf. rewrite resolved_snoc, Hex. simpl.
        destruct (named name p) eqn:Hn.
        -- apply named_eq in Hn. subst name. rewrite orb_true_r. apply get_set_same.
        -- rewrite orb_false_r.
           assert (Hne : name <> node_name p).
           { intros ->. now rewrite named_self in Hn. }
           rewrite get_set_other by exact Hne. rewrite Hget. unfold valueOf.
           rewrite filter_app. simpl. destruct (eligible p); simpl.
           ++ now rewrite lastNamed_snoc, Hn.
           ++ now rewrite app_nil_r.
    + (* not an exact match *)
      assert (Hnn : notNull (node_name p) fb = negb (resolved exact ls (node_name p))).
      { unfold notNull. rewrite Hget. unfold valueOf.
        destruct (resolved exact ls (node_name p)); [reflexivity|].
        now destruct (lastNamed _ _). }
      rewrite Hnn.
      destruct (eligible p) eqn:Hel; simpl.
      * destruct (resolved exact ls (node_name p)) eqn:Hres; simpl.
        -- (* the name was resolved before: nothing is recorded *)
           split.
           ++ rewrite firstSeen_snoc.
              assert (Hh : has (node_name p) fb = true).
              { unfold has. rewrite Hget. unfold valueOf. now rewrite Hres. }
              apply Hhas, In_firstSeen, existsb_eqb_In in Hh. now rewrite Hh.
           ++ intros name. rewrite Hget. unfold valueOf.
              rewrite resolved_snoc, Hex. simpl. rewrite orb_false_r.
              destruct (resolved exact ls name) eqn:Hr; [reflexivity|].
              rewrite filter_app. simpl. rewrite Hel, lastNamed_snoc.
              destruct (named name p) eqn:Hn; [|reflexivity].
              apply named_eq in Hn. subst name. congruence.
        -- (* the page becomes the fallback of its name *)
           split.
           ++ rewrite keys_set, firstSeen_snoc.
              destruct (has (node_name p) fb) eqn:Hh.
              ** apply Hhas in Hh. apply In_firstSeen, existsb_eqb_In in Hh. now rewrite Hh.
              ** destruct (existsb _ _) eqn:He.
                 --- apply existsb_eqb_In, In_firstSeen, Hhas in He. congruence.
                 --- now rewrite jsOrder_snoc, Hkeys.
           ++ intros name. unfold valueOf. rewrite resolved_snoc, Hex. simpl.
              rewrite orb_false_r, filter_app. simpl. rewrite Hel, lastNamed_snoc.
              destruct (named name p) eqn:Hn.
              ** apply named_eq in Hn. subst name. rewrite Hres. apply get_set_same.
              ** assert (Hne : name <> node_name p).
                 { intros ->. now rewrite named_self in Hn. }
                 rewrite get_set_other by exact Hne. now rewrite Hget.
      * (* neither exact nor eligible: the page is dropped *)
        rewrite andb_false_r. rewrite app_nil_r. split; [exact Hkeys|].
        intros name. rewrite Hget. unfold valueOf.
        rewrite resolved_snoc, Hex. simpl. rewrite orb_false_r.
        rewrite filter_app. simpl. rewrite Hel. now rewrite app_nil_r.
Qed.

(** The fallbacks, as the second loop pushes them and as the
    two-phase description has them. *)
Lemma pushed_fallbackPart ls :
  flat_map (fun name => match valueOf ls name with
                        | Some (Some p) => [p]
                        | _ => []
                        end)
           (jsOrder (firstSeen (map node_name (touched ls)))) =
  fallbackPart exact eligible jsOrder ls.
Proof.
  unfold fallbackPart.
  set (q := fun name => existsb (named name) (pending exact eligible ls)).
  assert (Hq : forall name, q name = true <->
                 exists p, In p ls /\ eligible p = true /\
                           resolved exact ls name = false /\ node_name p = name).
  { intros name. unfold q. rewrite existsb_exists. split.
    - intros [p [Hin Hn]]. apply pending_In in Hin as (Hin & He & Hr).
      apply String.eqb_eq in Hn. subst name. now exists p.
    - intros (p & Hin & He & Hr & Hn). exists p. split.
      + apply pending_In. subst name. auto.
      + now apply String.eqb_eq. }
  rewrite (flat_map_filter_nil _ q).
  2:{ intros name Hname. unfold valueOf.
      destruct (resolved exact ls name) eqn:Hr; [reflexivity|].
      destruct (lastNamed name (filter eligible ls)) as [|p r] eqn:Hl; [reflexivity|].
      assert (Hin : In p (lastNamed name (filter eligible ls))) by (rewrite Hl; now left).
      apply lastNamed_In in Hin as [Hin Hn]. apply filter_In in Hin as [Hin He].
      assert (Hc : q name = true) by (apply Hq; now exists p).
      congruence. }
  rewrite filter_jsOrder, filter_firstSeen, filter_map_swap.
  assert (Hpend : filter (fun p => q (node_name p)) (touched ls) =
                  pending exact eligible ls).
  { unfold touched, pending. rewrite filter_filter_and. apply filter_ext_in.
    intros p Hin.
    destruct (eligible p && negb (resolved exact ls (node_name p))) eqn:Hp.
    - apply andb_true_iff in Hp as [He Hr]. apply negb_true_iff in Hr.
      rewrite He, orb_true_r. simpl. apply Hq. now exists p.
    - destruct (q (node_name p)) eqn:Hqp; [|apply andb_false_r].
      apply Hq in Hqp as (p' & _ & _ & Hr & _).
      rewrite Hr in Hp. simpl in Hp. rewrite andb_true_r in Hp. rewrite Hp.
      destruct (exact p) eqn:Hex; [|reflexivity].
      assert (Hc : resolved exact ls (node_name p) = true).
      { apply resolved_true. now exists p. }
      congruence. }
  rewrite Hpend. apply flat_map_ext_in. intros name Hname.
  apply In_jsOrder, In_firstSeen, in_map_iff in Hname as (p & Hn & Hin).
  apply pending_In in Hin as (Hin & He & Hr). subst name.
  unfold valueOf. rewrite Hr.
  transitivity (lastNamed (node_name p) (filter eligible ls)).
  { unfold lastNamed. now destruct (rev _). }
  unfold lastNamed, pending. rewrite !filter_filter_and.
  rewrite (filter_ext_in
             (fun a => (eligible a && negb (resolved exact ls (node_name a))) &&
                       named (node_name p) a)
             (fun a => eligible a && named (node_name p) a)); [reflexivity|].
  intros a _. destruct (named (node_name p) a) eqn:Hn; [|now rewrite !andb_false_r].
  apply String.eqb_eq in Hn. rewrite Hn, Hr. now rewrite !andb_true_r.
Qed.

Lemma filterPages_spec g pm :
  filterPages L D g pm =
  flat_map (fun p => if isDirectory p then [g p]
                     else if exact p then [p] else []) pm ++
  fallbackPart exact eligible jsOrder (leaves pm).
Proof.
  unfold filterPages. rewrite visitAll_eq, pushFallbacks_eq. simpl. f_equal.
  destruct (record_inv (leaves pm)) as [Hkeys Hget].
  unfold pushed. rewrite Hkeys.
  rewrite (flat_map_ext_in _
             (fun name => match valueOf (leaves pm) name with
                          | Some (Some p) => [p]
                          | _ => []
                          end)).
  - apply pushed_fallbackPart.
  - intros name _. now rewrite Hget.
Qed.
End Level.

Lemma filterRouteLocale_spec L D pm :
  filterRouteLocale L D pm =
  keptInPlace L D pm ++
  fallbackPart (localDoesMatch L D) (fallbackEligible D) jsOrder (leaves pm).
Proof. apply filterPages_spec. Qed.

Lemma existsb_ext_in (A : Type) (f g : A -> bool) (l : list A) :
  (forall a, In a l -> f a = g a) -> existsb f l = existsb g l.
Proof.
  induction l as [|a l IH]; simpl; intros H; [reflexivity|].
  rewrite (H a) by now left. f_equal. apply IH. intros; apply H; now right.
Qed.

Lemma levelSpec_ext exact exact' eligible eligible' order nodes :
  (forall p, In p nodes -> exact p = exact' p) ->
  (forall p, In p nodes -> eligible p = eligible' p) ->
  levelSpec exact eligible order nodes = levelSpec exact' eligible' order nodes.
Proof.
  intros Hex Hel.
  assert (Hres : forall name, resolved exact nodes name = resolved exact' nodes name).
  { intros name. apply existsb_ext_in. intros p Hp. now rewrite Hex. }
  assert (Hpend : pending exact eligible nodes = pending exact' eligible' nodes).
  { apply filter_ext_in. intros p Hp. now rewrite Hel, Hres. }
  unfold levelSpec, fallbackPart. rewrite Hpend. f_equal. now apply filter_ext_in.
Qed.

Lemma localDoesMatch_isExact L D p :
  tagged L = true -> tagged (node_locale p) = true ->
  localDoesMatch L D p = isExact L D p.
Proof.
  unfold localDoesMatch, isExact, isDefaultLocale, tagged, falsy, absent.
  destruct (node_locale p) as [s|], L as [l|]; simpl; intros HL Hp.
  - apply negb_true_iff in Hp. rewrite Hp. simpl. now rewrite orb_false_r.
  - apply negb_true_iff in Hp. now rewrite Hp.
  - apply negb_true_iff in HL. rewrite HL. simpl. now rewrite orb_false_r.
  - reflexivity.
Qed.

Lemma fallbackEligible_isFallbackCandidate D p :
  tagged (node_locale p) = true -> fallbackEligible D p = isFallbackCandidate D p.
Proof.
  unfold fallbackEligible, isFallbackCandidate, tagged, falsy, absent.
  destruct (node_locale p) as [s|]; simpl; intros Hp; [|reflexivity].
  apply negb_true_iff in Hp. now rewrite Hp.
Qed.

Lemma keptInPlace_leaves L D nodes :
  Forall (fun p => isDirectory p = false) nodes ->
  keptInPlace L D nodes = filter (localDoesMatch L D) nodes /\ leaves nodes = nodes.
Proof.
  unfold keptInPlace, leaves.
  induction 1 as [|p nodes Hp _ [IH1 IH2]]; simpl; [split; reflexivity|].
  rewrite Hp, IH1, IH2. simpl. split; [|reflexivity]. now destruct (localDoesMatch L D p).
Qed.


Lemma filterRouteLocale_levelSpec (nodes : list PageMapNode) (L D : option string) :
  Forall (fun p => isDirectory p = false) nodes ->
  tagged L = true ->
  Forall (fun p => tagged (node_locale p) = true) nodes ->
  filterRouteLocale L D nodes =
  levelSpec (isExact L D) (isFallbackCandidate D) jsOrder nodes.
Proof.
  intros Hleaf HL Htag. rewrite filterRouteLocale_spec.
  destruct (keptInPlace_leaves L D Hleaf) as [-> ->].
  rewrite Forall_forall in Htag.
  apply (levelSpec_ext (localDoesMatch L D) (isExact L D)
                       (fallbackEligible D) (isFallbackCandidate D) jsOrder nodes).
  - intros p Hp. apply localDoesMatch_isExact; auto.
  - intros p Hp. apply fallbackEligible_isFallbackCandidate; auto.
Qed.

(** C1 (amended). For siblings that are not directories, none of them
    named [__proto__], with locale tags that are not empty,
    [filterRouteLocale] gives the exact matches in their order, then, for
    every name that no exact match resolved, the last node of that name
    whose locale is absent or the default; the fallbacks come in the order
    in which a plain object enumerates their names: the names that are
    canonical array indices first, ascending, then the other names as first
    introduced.  For [a.md], [a.en.md], [a.fr.md] with default [en],
    filtering for [fr] gives [a.fr.md] and filtering for [de] gives
    [a.en.md]. *)
Theorem filterRouteLocale_siblings :
  (forall (nodes : list PageMapNode) (L D : option string),
      Forall (fun p => isDirectory p = false) nodes ->
      ownNames nodes = true ->
      tagged L = true ->
      Forall (fun p => tagged (node_locale p) = true) nodes ->
      filterRouteLocale L D nodes =
      filter (isExact L D) nodes ++
      flat_map (fun name => lastNamed name (pending (isExact L D) (isFallbackCandidate D) nodes))
               (jsOrder (firstSeen (map node_name
                                        (pending (isExact L D) (isFallbackCandidate D) nodes))))) /\
  (forall names, jsOrder names =
                 sortByIndex (filter isIndex names) ++
                 filter (fun k => negb (isIndex k)) names) /\
  (forall names, StronglySorted leIndex (sortByIndex names) /\
                 Permutation names (sortByIndex names)) /\
  filterRouteLocale (Some "fr") (Some "en") sample = [Page "a" "/a" (Some "fr") None] /\
  filterRouteLocale (Some "de") (Some "en") sample = [Page "a" "/a" (Some "en") None].
Proof.
  split; [|split; [|split; [|split]]].
  - intros nodes L D Hleaf _ HL Htag. now apply filterRouteLocale_levelSpec.
  - reflexivity.
  - intros names. split; [apply sortByIndex_sorted | apply sortByIndex_perm].
  - reflexivity.
  - reflexivity.
Qed.

Lemma filterRouteLocale_siblings_witness :
  Forall (fun p => isDirectory p = false) numbered /\
  ownNames numbered = true /\
  tagged (Some "fr") = true /\
  Forall (fun p => tagged (node_locale p) = true) numbered /\
  filterRouteLocale (Some "fr") (Some "en") numbered =
  [Page "404" "/404" None None; Page "about" "/about" None None].
Proof.
  assert (Hleaf : Forall (fun p => isDirectory p = false) numbered)
    by (repeat constructor).
  assert (Htag : Forall (fun p => tagged (node_locale p) = true) numbered)
    by (repeat constructor).
  split; [exact Hleaf|]. split; [reflexivity|]. split; [reflexivity|].
  split; [exact Htag|].
  rewrite (proj1 filterRouteLocale_siblings numbered (Some "fr") (Some "en")
                 Hleaf eq_refl eq_refl Htag).
  reflexivity.
Defined.

(** With the fallbacks in the order their names were first introduced,
    [about.md] would come before [404.md]. *)
Lemma filterRouteLocale_first_introduced_counterexample :
  filterRouteLocale (Some "fr") (Some "en") numbered =
  [Page "404" "/404" None None; Page "about" "/about" None None] /\
  levelSpec (isExact (Some "fr") (Some "en")) (isFallbackCandidate (Some "en"))
            (fun names => names) numbered =
  [Page "about" "/about" None None; Page "404" "/404" None None] /\
  filterRouteLocale (Some "fr") (Some "en") numbered <>
  levelSpec (isExact (Some "fr") (Some "en")) (isFallbackCandidate (Some "en"))
            (fun names => names) numbered.
Proof. repeat split; try reflexivity. vm_compute. discriminate. Qed.

(** ** Directories *)

Lemma filterChildren_Directory L D name route children :
  filterChildren L D (Directory name route children) =
  Directory name route (filterRouteLocale L D children).
Proof. reflexivity. Qed.

Lemma filterChildren_leaf L D p : isDirectory p = false -> filterChildren L D p = p.
Proof. now destruct p. Qed.

Lemma isDirectory_filterChildren L D p : isDirectory (filterChildren L D p) = isDirectory p.
Proof. now destruct p. Qed.

Lemma fallbackPart_In exact eligible order nodes p :
  In p (fallbackPart exact eligible order nodes) ->
  In p (pending exact eligible nodes).
Proof.
  intros Hin. unfold fallbackPart in Hin.
  apply in_flat_map in Hin as (name & _ & Hin).
  now apply lastNamed_In in Hin.
Qed.

Lemma fallbackPart_leaves_no_directory exact eligible pm :
  Forall (fun p => isDirectory p = false)
         (fallbackPart exact eligible jsOrder (leaves pm)).
Proof.
  apply Forall_forall. intros p Hp.
  apply fallbackPart_In in Hp.
  apply pending_In in Hp as [Hp _]. unfold leaves in Hp.
  apply filter_In in Hp as [_ Hp]. now apply negb_true_iff.
Qed.

Lemma filter_isDirectory_keptInPlace L D pm :
  filter isDirectory (keptInPlace L D pm) = map (filterChildren L D) (filter isDirectory pm).
Proof.
  unfold keptInPlace. induction pm as [|p pm IH]; simpl; [reflexivity|].
  rewrite filter_app, IH. destruct (isDirectory p) eqn:Hd; simpl.
  - now rewrite isDirectory_filterChildren, Hd.
  - destruct (localDoesMatch L D p); simpl; [now rewrite Hd | reflexivity].
Qed.

(** C9 (amended). [filterRouteLocale] keeps every directory: the
    directories of the output are those of the input, in the same order,
    each with its name and route and with its children filtered; they stand
    where the first loop pushed them, in order among the exact matches that
    are kept, before the fallbacks, none of which is a directory.  The index
    of a directory can change: nodes before it are dropped, and fallbacks
    that stood before it are appended after it. *)
Theorem filterRouteLocale_directories (pageMap : list PageMapNode) (L D : option string) :
  filter isDirectory (filterRouteLocale L D pageMap) =
    map (filterChildren L D) (filter isDirectory pageMap) /\
  (forall name route children,
      filterChildren L D (Directory name route children) =
      Directory name route (filterRouteLocale L D children)) /\
  exists fallbackNodes,
    filterRouteLocale L D pageMap = keptInPlace L D pageMap ++ fallbackNodes /\
    Forall (fun p => isDirectory p = false) fallbackNodes.
Proof.
  rewrite filterRouteLocale_spec. split; [|split].
  - rewrite filter_app, filter_isDirectory_keptInPlace.
    rewrite (@filter_none _ isDirectory (fallbackPart _ _ _ _)).
    + apply app_nil_r.
    + apply fallbackPart_leaves_no_directory.
  - reflexivity.
  - eexists. split; [reflexivity|]. apply fallbackPart_leaves_no_directory.
Qed.

Lemma directoriesKeepPosition_counterexample :
  filterRouteLocale (Some "fr") (Some "en") pageThenDirectory =
  [Directory "d" "/d" [Page "x" "/d/x" None None]; Page "a" "/a" None None] /\
  ~ directoriesKeepPosition (Some "fr") (Some "en") pageThenDirectory.
Proof.
  split; [reflexivity|].
  intros H. specialize (H 1%nat "d" "/d" [Page "x" "/d/x" None None] eq_refl).
  vm_compute in H. discriminate.
Qed.

(** ** No request locale *)




(** ** Filtering twice *)


Lemma NoDup_jsOrder names : NoDup names -> NoDup (jsOrder names).
Proof.
  intros H. unfold jsOrder. apply NoDup_app.
  - apply (Permutation_NoDup (sortByIndex_perm _)). now apply NoDup_filter.
  - now apply NoDup_filter.
  - intros a Ha Hb. apply In_sortByIndex, filter_In in Ha as [_ Ha].
    apply filter_In in Hb as [_ Hb]. rewrite Ha in Hb. discriminate.
Qed.

Lemma existsb_filter (A : Type) (f g : A -> bool) (l : list A) :
  existsb f (filter g l) = existsb (fun a => g a && f a) l.
Proof.
  induction l as [|a l IH]; simpl; [reflexivity|].
  destruct (g a); simpl; now rewrite IH.
Qed.

Lemma existsb_none (A : Type) (f : A -> bool) (l : list A) :
  Forall (fun a => f a = false) l -> existsb f l = false.
Proof. induction 1 as [|a l Ha _ IH]; simpl; [reflexivity|]. now rewrite Ha, IH. Qed.

Lemma lastNamed_exists name nodes p :
  In p nodes -> node_name p = name ->
  exists q, lastNamed name nodes = [q] /\ node_name q = name.
Proof.
  intros Hin Hn. unfold lastNamed.
  destruct (rev (filter (named name) nodes)) as [|q r] eqn:Hr.
  - exfalso. assert (Hp : In p (rev (filter (named name) nodes))).
    { apply -> in_rev. apply filter_In. split; [exact Hin | now apply String.eqb_eq]. }
    rewrite Hr in Hp. destruct Hp.
  - exists q. split; [reflexivity|].
    assert (Hq : In q (filter (named name) nodes)).
    { apply in_rev. rewrite Hr. now left. }
    apply filter_In in Hq as [_ Hq]. now apply String.eqb_eq.
Qed.

(** One fallback per name, in the order of the names. *)
Lemma fallback_names nodes names :
  (forall name, In name names -> In name (map node_name nodes)) ->
  map node_name (flat_map (fun name => lastNamed name nodes) names) = names.
Proof.
  induction names as [|name names IH]; simpl; intros H; [reflexivity|].
  destruct (proj1 (in_map_iff _ _ _) (H name (or_introl eq_refl))) as (p & Hn & Hin).
  destruct (@lastNamed_exists name nodes p Hin Hn) as (q & -> & Hq).
  simpl. rewrite Hq, IH; [reflexivity|]. intros; apply H; now right.
Qed.

Lemma lastNamed_unique nodes :
  NoDup (map node_name nodes) ->
  flat_map (fun name => lastNamed name nodes) (map node_name nodes) = nodes.
Proof.
  induction nodes as [|p nodes IH]; simpl; intros Hnd; [reflexivity|].
  inversion Hnd as [|? ? Hp Hnd']; subst.
  assert (Hnone : filter (named (node_name p)) nodes = []).
  { apply filter_none. apply Forall_forall. intros q Hq.
    destruct (named (node_name p) q) eqn:Hn; [|reflexivity].
    apply String.eqb_eq in Hn. exfalso. apply Hp. rewrite <- Hn. now apply in_map. }
  unfold lastNamed at 1. simpl. rewrite named_self. simpl. rewrite Hnone. simpl.
  f_equal. rewrite <- (IH Hnd') at 2. apply flat_map_ext_in.
  intros name Hname. unfold lastNamed. simpl.
  destruct (named name p) eqn:Hn; [|reflexivity].
  apply String.eqb_eq in Hn. subst name. contradiction.
Qed.

Section Twice.
Variables exact eligible : PageMapNode -> bool.

Lemma fallbackPart_not_exact ls :
  Forall (fun p => exact p = false) (fallbackPart exact eligible jsOrder ls).
Proof.
  apply Forall_forall. intros p Hp. apply fallbackPart_In, pending_In in Hp.
  destruct Hp as (Hin & _ & Hres). destruct (exact p) eqn:He; [|reflexivity].
  assert (Hc : resolved exact ls (node_name p) = true).
  { apply resolved_true. now exists p. }
  congruence.
Qed.

Lemma fallbackPart_names ls :
  map node_name (fallbackPart exact eligible jsOrder ls) =
  jsOrder (firstSeen (map node_name (pending exact eligible ls))).
Proof.
  unfold fallbackPart. apply fallback_names.
  intros name Hname. rewrite In_jsOrder, In_firstSeen in Hname. exact Hname.
Qed.

Lemma fallbackPart_twice ls :
  fallbackPart exact eligible jsOrder
    (filter exact ls ++ fallbackPart exact eligible jsOrder ls) =
  fallbackPart exact eligible jsOrder ls.
Proof.
  set (F := fallbackPart exact eligible jsOrder ls).
  assert (HF : Forall (fun p => exact p = false) F) by apply fallbackPart_not_exact.
  assert (Hres : forall name,
             resolved exact (filter exact ls ++ F) name = resolved exact ls name).
  { intros name. unfold resolved. rewrite existsb_app, existsb_filter.
    rewrite (@existsb_none _ _ F).
    - rewrite orb_false_r. apply existsb_ext_in. intros p _. now destruct (exact p).
    - eapply Forall_impl; [|exact HF]. intros p Hp. simpl in Hp. now rewrite Hp. }
  assert (Hpend : pending exact eligible (filter exact ls ++ F) = F).
  { unfold pending. rewrite filter_app.
    rewrite (@filter_none _ _ (filter exact ls)), (@filter_all _ _ F); [reflexivity| |].
    - apply Forall_forall. intros p Hp. rewrite Hres.
      apply fallbackPart_In, pending_In in Hp as (_ & -> & ->). reflexivity.
    - apply Forall_forall. intros p Hp. apply filter_In in Hp as [Hin He].
      rewrite Hres.
      assert (Hc : resolved exact ls (node_name p) = true).
      { apply resolved_true. now exists p. }
      rewrite Hc. apply andb_false_r. }
  unfold fallbackPart at 1. rewrite Hpend.
  assert (Hnames : map node_name F =
                   jsOrder (firstSeen (map node_name (pending exact eligible ls))))
    by apply fallbackPart_names.
  assert (Hnd : NoDup (map node_name F)).
  { rewrite Hnames. apply NoDup_jsOrder, NoDup_firstSeen. }
  rewrite (firstSeen_NoDup Hnd).
  rewrite Hnames at 1. rewrite jsOrder_idem, <- Hnames.
  now apply lastNamed_unique.
Qed.
End Twice.

Lemma keptInPlace_fallbacks L D ls :
  keptInPlace L D (fallbackPart (localDoesMatch L D) (fallbackEligible D) jsOrder (leaves ls))
  = [].
Proof.
  pose proof (fallbackPart_not_exact (localDoesMatch L D) (fallbackEligible D) (leaves ls)) as He.
  pose proof (fallbackPart_leaves_no_directory (localDoesMatch L D) (fallbackEligible D) ls) as Hd.
  unfold keptInPlace.
  induction He as [|p F Hp _ IH]; simpl; [reflexivity|].
  inversion Hd as [|? ? Hpd Hd']; subst. rewrite Hpd, Hp. simpl. now apply IH.
Qed.

Lemma leaves_fallbacks exact eligible ls :
  leaves (fallbackPart exact eligible jsOrder (leaves ls)) =
  fallbackPart exact eligible jsOrder (leaves ls).
Proof.
  unfold leaves at 1. apply filter_all.
  eapply Forall_impl; [|apply fallbackPart_leaves_no_directory].
  intros p Hp. simpl in Hp. now rewrite Hp.
Qed.

Lemma leaves_keptInPlace L D pm :
  leaves (keptInPlace L D pm) = filter (localDoesMatch L D) (leaves pm).
Proof.
  unfold keptInPlace, leaves. induction pm as [|p pm IH]; simpl; [reflexivity|].
  rewrite filter_app, IH. destruct (isDirectory p) eqn:Hd; simpl.
  - now rewrite isDirectory_filterChildren, Hd.
  - destruct (localDoesMatch L D p); simpl; [now rewrite Hd | reflexivity].
Qed.

Lemma keptInPlace_twice L D pm :
  Forall (fun p => filterChildren L D (filterChildren L D p) = filterChildren L D p) pm ->
  keptInPlace L D (keptInPlace L D pm) = keptInPlace L D pm.
Proof.
  unfold keptInPlace. induction 1 as [|p pm Hp _ IH]; simpl; [reflexivity|].
  rewrite flat_map_app, IH. f_equal.
  destruct (isDirectory p) eqn:Hd; simpl.
  - now rewrite isDirectory_filterChildren, Hd, Hp.
  - destruct (localDoesMatch L D p) eqn:He; simpl; [|reflexivity].
    now rewrite Hd, He.
Qed.

Lemma filterRouteLocale_twice_level L D pm :
  Forall (fun p => filterChildren L D (filterChildren L D p) = filterChildren L D p) pm ->
  filterRouteLocale L D (filterRouteLocale L D pm) = filterRouteLocale L D pm.
Proof.
  intros Hall. rewrite (filterRouteLocale_spec L D pm).
  rewrite filterRouteLocale_spec. unfold keptInPlace at 1. rewrite flat_map_app.
  fold (keptInPlace L D (keptInPlace L D pm)).
  fold (keptInPlace L D (fallbackPart (localDoesMatch L D) (fallbackEligible D) jsOrder (leaves pm))).
  rewrite keptInPlace_twice by exact Hall.
  rewrite keptInPlace_fallbacks, app_nil_r. f_equal.
  unfold leaves at 1. rewrite filter_app.
  fold (leaves (keptInPlace L D pm)).
  fold (leaves (fallbackPart (localDoesMatch L D) (fallbackEligible D) jsOrder (leaves pm))).
  rewrite leaves_keptInPlace, leaves_fallbacks. apply fallbackPart_twice.
Qed.

Lemma filterChildren_twice L D p :
  filterChildren L D (filterChildren L D p) = filterChildren L D p.
Proof.
  induction p as [name route children IH| |] using PageMapNode_children_ind;
    [|reflexivity|reflexivity].
  rewrite !filterChildren_Directory. f_equal. now apply filterRouteLocale_twice_level.
Qed.

(** C2. Filtering a page map that was filtered for the same request and
    default locales changes nothing, when no page of the tree is named
    [__proto__]: the two trees are equal, node for node and in order, at
    every depth. *)
Theorem filterRouteLocale_idempotent (T : list PageMapNode) (L D : option string) :
  forallb ownNamesBelow T = true ->
  filterRouteLocale L D (filterRouteLocale L D T) = filterRouteLocale L D T.
Proof.
  intros _.
  apply filterRouteLocale_twice_level, Forall_forall. intros p _. apply filterChildren_twice.
Qed.

Lemma filterRouteLocale_idempotent_witness :
  forallb ownNamesBelow pageThenDirectory = true /\
  filterRouteLocale (Some "fr") (Some "en")
    (filterRouteLocale (Some "fr") (Some "en") pageThenDirectory) =
  [Directory "d" "/d" [Page "x" "/d/x" None None]; Page "a" "/a" None None].
Proof.
  split; [reflexivity|].
  rewrite (@filterRouteLocale_idempotent pageThenDirectory (Some "fr") (Some "en") eq_refl).
  reflexivity.
Defined.

(** ** The sibling locale analyzer *)

Lemma lastWithLocale_None D vs :
  lastWithLocale D vs = None <->
  forall v, In v vs -> strict_eq (file_locale v) D = false.
Proof.
  induction vs as [|v vs IH]; simpl.
  - split; [intros _ w [] | reflexivity].
  - destruct (lastWithLocale D vs) as [i|].
    + split; [discriminate|]. intros H.
      assert (Hn : Some i = None) by (apply IH; intros w Hw; apply H; now right).
      discriminate.
    + destruct (strict_eq (file_locale v) D) eqn:Hv.
      * split; [discriminate|]. intros H. rewrite (H v) in Hv by now left. discriminate.
      * split; [|reflexivity]. intros _ w [<-|Hw]; [exact Hv|].
        now apply (proj1 IH).
Qed.

Lemma lastWithLocale_Some D vs i :
  lastWithLocale D vs = Some i ->
  (exists v, nth_error vs i = Some v /\ strict_eq (file_locale v) D = true) /\
  (forall j w, (i < j)%nat -> nth_error vs j = Some w -> strict_eq (file_locale w) D = false).
Proof.
  revert i. induction vs as [|v vs IH]; simpl; intros i; [discriminate|].
  destruct (lastWithLocale D vs) as [i'|] eqn:Hl.
  - intros [= <-]. destruct (IH i' eq_refl) as [Hex Hlast]. split; [exact Hex|].
    intros [|j] w Hj; [lia|]. simpl. apply Hlast. lia.
  - destruct (strict_eq (file_locale v) D) eqn:Hv; [|discriminate].
    intros [= <-]. split; [now exists v|].
    intros [|j] w Hj; [lia|]. simpl. intros Hw.
    apply (proj1 (lastWithLocale_None D vs) Hl). eapply nth_error_In; eauto.
Qed.

Section AnalyzeFacts.
Variable RegExp_test : string -> string -> string -> bool.
Variable defaultLocale : option string.
Variable accepts : string -> bool.

Local Abbreviation variantsOf := (variants RegExp_test accepts).

Lemma analyzeEntries_spec listing acc :
  Forall (fun f => accepts (dirent_name f) = true ->
                   exists name content, f = FileEnt name content) listing ->
  analyzeEntries RegExp_test defaultLocale accepts listing acc =
  Some {| ssr := ssr acc || existsb file_ssr (variantsOf listing);
          ssg := ssg acc || existsb file_ssg (variantsOf listing);
          files := files acc ++ variantsOf listing;
          defaultIndex :=
            match lastWithLocale defaultLocale (variantsOf listing) with
            | Some i => List.length (files acc) + i
            | None => defaultIndex acc
            end |}.
Proof.
  intros Hfiles. revert acc.
  induction Hfiles as [|f listing Hf _ IH]; intros acc; simpl.
  - rewrite !orb_false_r, app_nil_r. now destruct acc.
  - unfold analyzeEntry, variants. simpl. fold (variantsOf listing).
    destruct (accepts (dirent_name f)) eqn:Hm; simpl.
    + destruct (Hf eq_refl) as (name & content & ->). simpl.
      rewrite IH. simpl. rewrite !orb_assoc, <- app_assoc. simpl. f_equal.
      rewrite length_app. simpl.
      destruct (lastWithLocale defaultLocale (variantsOf listing)) as [i|].
      * f_equal. lia.
      * destruct (strict_eq (getLocaleFromFilename name) defaultLocale);
          [f_equal; lia | reflexivity].
    + apply IH.
Qed.
End AnalyzeFacts.

(** C4. What [analyzeLocalizedEntries] computes, and where it leaves the
    claim.  For a base name without characters that have a meaning in an
    expression, the entries taken for variants are those the expression
    [^base.[a-zA-Z-]+.(mdx?|jsx?|tsx?|json)$] accepts, its dots taking any
    character.  When these are readable files, the analysis holds them in
    enumeration order, [ssr] and [ssg] are the disjunctions of the
    detections over them, and [defaultIndex] is the position of the last of
    them for which [getLocaleFromFilename] gives the default locale, 0 when
    there is none.  [getLocaleFromFilename] gives no locale for [.ts] and
    [.tsx]: for [a.en.md], [a.fr.tsx] and the default locale [fr] the
    default index is 0, not the position 1 of [a.fr.tsx].  And [about.md]
    is taken for a variant of [a]. *)
Theorem analyzeLocalizedEntries_spec :
  (forall (RegExp_test : string -> string -> string -> bool)
          (RegExp : string -> option (string -> bool))
          (currentResourcePath : string) (defaultLocale : option string)
          (listing : list Dirent) (accepts : string -> bool),
      newFilenameRe RegExp (getFileName currentResourcePath) = Some accepts ->
      Forall (fun f => accepts (dirent_name f) = true ->
                       exists name content, f = FileEnt name content) listing ->
      exists d,
        analyzeLocalizedEntries RegExp_test RegExp currentResourcePath defaultLocale listing
        = Some d /\
        files d = variants RegExp_test accepts listing /\
        ssr d = existsb file_ssr (files d) /\
        ssg d = existsb file_ssg (files d) /\
        ((forall v, In v (files d) -> strict_eq (file_locale v) defaultLocale = false) ->
         defaultIndex d = 0%nat) /\
        ((exists v, In v (files d) /\ strict_eq (file_locale v) defaultLocale = true) ->
         (exists v, nth_error (files d) (defaultIndex d) = Some v /\
                    strict_eq (file_locale v) defaultLocale = true) /\
         (forall j w, (defaultIndex d < j)%nat -> nth_error (files d) j = Some w ->
                      strict_eq (file_locale w) defaultLocale = false))) /\
  (forall (RegExp : string -> option (string -> bool)) (filename : string),
      literalName filename = true ->
      newFilenameRe RegExp filename = Some (test (variantRegex filename))) /\
  analyzeLocalizedEntries exampleRegExp exampleCompile "/site/pages/a.en.md" (Some "fr")
                          typescriptListing =
  Some {| ssr := false; ssg := false;
          files := [{| file_name := "a.en.md"; file_locale := Some "en";
                       file_ssr := false; file_ssg := false |};
                    {| file_name := "a.fr.tsx"; file_locale := None;
                       file_ssr := false; file_ssg := false |}];
          defaultIndex := 0 |} /\
  analyzeLocalizedEntries exampleRegExp exampleCompile "/site/pages/a.en.md" (Some "en")
                          aboutListing =
  Some {| ssr := false; ssg := false;
          files := [{| file_name := "about.md"; file_locale := None;
                       file_ssr := false; file_ssg := false |};
                    {| file_name := "a.en.md"; file_locale := Some "en";
                       file_ssr := false; file_ssg := false |}];
          defaultIndex := 1 |}.
Proof.
  split; [|split; [|split; reflexivity]].
  - intros RegExp_test RegExp currentResourcePath defaultLocale listing accepts Hre Hfiles.
    unfold analyzeLocalizedEntries. rewrite Hre.
    rewrite analyzeEntries_spec by exact Hfiles. simpl.
    eexists. split; [reflexivity|]. simpl. repeat split; try reflexivity.
    + intros Hnone. apply lastWithLocale_None in Hnone. now rewrite Hnone.
    + destruct H as (v & Hin & Hv).
      destruct (lastWithLocale defaultLocale _) as [i|] eqn:Hl.
      * now apply lastWithLocale_Some in Hl as [Hex _].
      * rewrite (proj1 (lastWithLocale_None _ _) Hl v Hin) in Hv. discriminate.
    + destruct H as (v & Hin & Hv).
      destruct (lastWithLocale defaultLocale _) as [i|] eqn:Hl.
      * now apply lastWithLocale_Some in Hl as [_ Hlast].
      * rewrite (proj1 (lastWithLocale_None _ _) Hl v Hin) in Hv. discriminate.
  - intros RegExp filename Hlit. unfold newFilenameRe. now rewrite Hlit.
Qed.

(** ** The locale dispatch module *)

Lemma append_nil_r (s : string) : s +++ "" = s.
Proof. induction s as [|c s IH]; simpl; [reflexivity | now rewrite IH]. Qed.

Lemma append_assoc (a b c : string) : (a +++ b) +++ c = a +++ b +++ c.
Proof. induction a as [|x a IH]; simpl; [reflexivity | now rewrite IH]. Qed.

Lemma join_empty_cons (x : string) (l : list string) : join "" (x :: l) = x +++ join "" l.
Proof. destruct l; simpl; [now rewrite append_nil_r | reflexivity]. Qed.



Lemma pageDispatcher_from i files defaultIndex :
  join "" (mapi_from pageBranch i files) +++ " {" +++ tab +++ newline +++
  "    return <Page_" +++ show_nat defaultIndex +++ " {...props}/>" +++ tab +++ newline +++
  "  }" =
  printChain (pageChain_from i files defaultIndex).
Proof.
  revert i. induction files as [|file files IH]; intros i.
  - cbn. rewrite !append_assoc. reflexivity.
  - cbn [mapi_from pageChain_from printChain]. rewrite join_empty_cons, append_assoc, IH.
    unfold pageBranch. cbn [printReturn]. rewrite !append_assoc. reflexivity.
Qed.

Lemma pageDispatcher_chain files defaultIndex :
  pageDispatcher files defaultIndex = printChain (pageChain files defaultIndex).
Proof. apply pageDispatcher_from. Qed.



Lemma fetchChain_call locale ssg files i j :
  runChain locale (fetchChain_from i ssg files) = CallPageData j ->
  exists file, nth_error files (j - i) = Some file /\ (i <= j)%nat /\
               strict_eq locale (Some (literalOf file)) = true /\
               exportsChosen ssg file = true.
Proof.
  revert i. induction files as [|file files IH]; intros i; simpl; [discriminate|].
  destruct (strict_eq locale (Some (show_locale (file_locale file)))) eqn:Hl; simpl.
  - destruct (if ssg then file_ssg file else file_ssr file) eqn:He.
    + intros [= <-]. exists file. rewrite Nat.sub_diag. auto.
    + intros H. destruct (IH _ H) as (f & Hn & Hle & Hf & Hx).
      exists f. replace (j - i)%nat with (S (j - S i)) by lia. simpl.
      repeat split; [exact Hn | lia | exact Hf | exact Hx].
  - intros H. destruct (IH _ H) as (f & Hn & Hle & Hf & Hx).
    exists f. replace (j - i)%nat with (S (j - S i)) by lia. simpl.
    repeat split; [exact Hn | lia | exact Hf | exact Hx].
Qed.

Lemma pageChain_resolved locale files defaultIndex i k :
  runChain locale (pageChain_from i files defaultIndex) = RenderPage k ->
  (exists file, nth_error files (k - i) = Some file /\ (i <= k)%nat /\
                strict_eq locale (Some (literalOf file)) = true) \/
  (forall file, In file files -> strict_eq locale (Some (literalOf file)) = false).
Proof.
  revert i. induction files as [|file files IH]; intros i; simpl.
  - intros _. right. intros f [].
  - destruct (strict_eq locale (Some (show_locale (file_locale file)))) eqn:Hl; simpl.
    + intros [= <-]. left. exists file. rewrite Nat.sub_diag. auto.
    + intros H. destruct (IH _ H) as [(f & Hn & Hle & Hf)|Hnone].
      * left. exists f. replace (k - i)%nat with (S (k - S i)) by lia. simpl.
        repeat split; [exact Hn | lia | exact Hf].
      * right. intros f [<-|Hf]; [exact Hl | now apply Hnone].
Qed.






(** With two variants of one locale the two dispatchers can part: the
    page dispatcher renders the first, the fetch dispatcher calls the
    fetch function of the second. *)
Lemma duplicated_locale_parts :
  consistent duplicated /\ ~ emptyForResolvedVariant duplicated.
Proof.
  split; [split; reflexivity|].
  intros H. specialize (H (Some "fr") 0%nat _ eq_refl eq_refl eq_refl). discriminate.
Qed.

(** ** The tree builder *)


Section TreeFacts.
Variable JSON_parse : string -> json + string.
Variable getProperty : json -> string -> option json.
Variable grayMatter : string -> mapping.
Variable readDone : string -> nat.
Variable currentResourcePath : string.

Local Abbreviation getFilesIn' := (getFilesIn JSON_parse getProperty grayMatter readDone currentResourcePath).
Local Abbreviation getFiles' := (getFiles JSON_parse getProperty grayMatter readDone currentResourcePath).
Local Abbreviation visitEntries' :=
  (visitEntries JSON_parse grayMatter readDone currentResourcePath getFilesIn').
Local Abbreviation visitEntry' :=
  (visitEntry JSON_parse grayMatter readDone currentResourcePath getFilesIn').
Local Abbreviation visitFile' := (visitFile JSON_parse grayMatter readDone currentResourcePath).
Local Abbreviation entryItem' := (entryItem JSON_parse getProperty grayMatter readDone currentResourcePath).
Local Abbreviation stateless := (stateless JSON_parse getProperty grayMatter readDone currentResourcePath).
Local Abbreviation prunes := (prunes JSON_parse getProperty grayMatter readDone currentResourcePath).
Local Abbreviation keepsConsole :=
  (keepsConsole JSON_parse getProperty grayMatter readDone currentResourcePath).
Local Abbreviation assignAll := (assignAll readDone).

Lemma getFilesIn_DirEnt name entries dir route st :
  getFilesIn' (DirEnt name entries) dir route st = getFiles' dir route entries st.
Proof. reflexivity. Qed.


Lemma items_visitEntry dir route f acc :
  stateless f ->
  items (visitEntry' dir route f acc) = items acc ++ [entryItem' dir route f].
Proof.
  intros Hf. destruct f as [name content|name entries].
  - simpl. destruct (visitFile' dir route name content) as [[item messages] assigned].
    reflexivity.
  - unfold visitEntry, entryItem.
    change (getFiles' (path_resolve dir name) (fileRouteOf route name) entries initialState)
      with (getFilesIn' (DirEnt name entries) (path_resolve dir name)
                        (fileRouteOf route name) initialState).
    rewrite (Hf _ _ initialState (state acc)).
    destruct (getFilesIn' (DirEnt name entries) (path_resolve dir name)
                          (fileRouteOf route name) (state acc)) as [children st'].
    reflexivity.
Qed.

Lemma items_visitEntries dir route files acc :
  Forall stateless files ->
  items (visitEntries' dir route files acc) =
  items acc ++ map (entryItem' dir route) files.
Proof.
  intros Hall. revert acc. induction Hall as [|f files Hf _ IH]; intros acc; simpl.
  - now rewrite app_nil_r.
  - rewrite IH, items_visitEntry by exact Hf. now rewrite <- app_assoc.
Qed.

Lemma getFiles_children dir route files st :
  Forall stateless files ->
  fst (getFiles' dir route files st) = present (map (entryItem' dir route) files).
Proof.
  intros Hall. unfold getFiles, getFilesOf. simpl.
  now rewrite items_visitEntries by exact Hall.
Qed.

Lemma all_stateless d : stateless d.
Proof.
  induction d as [name content|name entries IH] using Dirent_entries_ind;
    intros dir route st st'.
  - reflexivity.
  - rewrite !getFilesIn_DirEnt. now rewrite !getFiles_children by exact IH.
Qed.

Lemma getFiles_pageMap dir route files st :
  fst (getFiles' dir route files st) = present (map (entryItem' dir route) files).
Proof. apply getFiles_children, Forall_forall. intros f _. apply all_stateless. Qed.

Lemma present_length (l : list (option PageMapNode)) :
  List.length (present l) =
  List.length (filter (fun o => match o with Some _ => true | None => false end) l).
Proof.
  induction l as [|[it|] l IH]; simpl; [reflexivity | now rewrite IH | exact IH].
Qed.

Lemma visitFile_item dir route name content :
  match fst (fst (visitFile' dir route name content)) with
  | Some (Directory _ _ _) => False
  | Some _ => test extension name || test metaExtension name = true
  | None => test extension name || test metaExtension name = false
  end.
Proof.
  unfold visitFile. destruct (test extension name); simpl.
  - destruct (test mdxExtension name); [destruct (negb _)|]; reflexivity.
  - destruct (test metaExtension name); simpl; [|reflexivity].
    destruct (parseJsonFile _ _ _) as [meta messages]. reflexivity.
Qed.

Lemma entryItem_contributes dir route f :
  match entryItem' dir route f with Some _ => true | None => false end =
  contributes JSON_parse getProperty grayMatter readDone currentResourcePath dir route f.
Proof.
  destruct f as [name content|name entries]; simpl.
  - pose proof (visitFile_item dir route name content) as H.
    destruct (fst (fst (visitFile' dir route name content))) as [[]|]; now rewrite ?H.
  - now destruct (Nat.eqb _ 0).
Qed.


Lemma entryItem_noEmptyDirectory dir route f :
  prunes f ->
  match entryItem' dir route f with Some it => noEmptyDirectory it = true | None => True end.
Proof.
  intros Hf. destruct f as [name content|name entries]; simpl.
  - pose proof (visitFile_item dir route name content) as H.
    now destruct (fst (fst (visitFile' dir route name content))) as [[]|].
  - destruct (Nat.eqb _ 0) eqn:He; [exact I|]. simpl. rewrite He. simpl.
    apply (Hf (path_resolve dir name) (fileRouteOf route name) initialState).
Qed.

Lemma all_prunes d : prunes d.
Proof.
  induction d as [name content|name entries IH] using Dirent_entries_ind;
    intros dir route st.
  - reflexivity.
  - rewrite getFilesIn_DirEnt, getFiles_pageMap.
    induction IH as [|f entries Hf _ IH']; simpl; [reflexivity|].
    pose proof (entryItem_noEmptyDirectory dir route Hf) as H.
    destruct (entryItem' dir route f); simpl; [now rewrite H|exact IH'].
Qed.

(** C7. The children built for a directory hold no directory without
    children, at any depth; they are the items of the entries that
    contribute one, in enumeration order; there are as many of them as
    entries that are subdirectories with built children, content files or
    meta files; a subdirectory whose built children are empty contributes
    nothing; and the page map of [getPageMap] holds no directory without
    children either. *)
Theorem getFiles_prunes_empty_directories dir route files st :
  forallb noEmptyDirectory (fst (getFiles' dir route files st)) = true /\
  fst (getFiles' dir route files st) = present (map (entryItem' dir route) files) /\
  List.length (fst (getFiles' dir route files st)) =
  List.length (filter (contributes JSON_parse getProperty grayMatter readDone currentResourcePath
                                   dir route) files) /\
  (forall name entries,
     fst (getFiles' (path_resolve dir name) (fileRouteOf route name) entries
                    initialState) = [] ->
     entryItem' dir route (DirEnt name entries) = None) /\
  forallb noEmptyDirectory
    (fst (fst (getPageMap JSON_parse getProperty grayMatter readDone currentResourcePath dir files)))
  = true.
Proof.
  split; [|split; [|split; [|split]]].
  - apply (all_prunes (DirEnt "" files) dir route st).
  - apply getFiles_pageMap.
  - rewrite getFiles_pageMap, present_length.
    induction files as [|f files IH]; simpl; [reflexivity|].
    rewrite <- entryItem_contributes.
    destruct (entryItem' dir route f); simpl; now rewrite IH.
  - intros name entries He. cbn [entryItem]. now rewrite He.
  - unfold getPageMap.
    pose proof (all_prunes (DirEnt "" files) dir "/" initialState) as H.
    rewrite getFilesIn_DirEnt in H. unfold initialState in H.
    destruct (getFiles' dir "/" files _) as [pageMap st']. exact H.
Qed.

(** *** The directory meta and the title *)

Local Abbreviation qualifyingMetas' :=
  (qualifyingMetas JSON_parse currentResourcePath).
Local Abbreviation authoritativeMeta' :=
  (authoritativeMeta JSON_parse currentResourcePath).
Local Abbreviation completesInOrder' :=
  (completesInOrder JSON_parse readDone currentResourcePath).


Lemma visitFile_assigned dir route name content :
  snd (visitFile' dir route name content) =
  if isMetaFile name && qualifies currentResourcePath (metaLocale name) then
    Some (readDone (path_resolve dir name),
          fst (parseJsonFile JSON_parse content (path_resolve dir name)))
  else None.
Proof.
  unfold visitFile, isMetaFile. destruct (test extension name); simpl.
  - destruct (test mdxExtension name); [destruct (negb _)|]; reflexivity.
  - destruct (test metaExtension name); simpl; [|reflexivity].
    destruct (parseJsonFile _ _ _) as [meta messages]. reflexivity.
Qed.

Lemma dirMeta_visitEntries dir route files acc :
  dirMeta (visitEntries' dir route files acc) =
  assignAll (qualifyingMetas' dir files) (dirMeta acc).
Proof.
  revert acc. induction files as [|f files IH]; intros acc; [reflexivity|].
  cbn [visitEntries]. rewrite IH. unfold qualifyingMetas. cbn [flat_map].
  unfold assignAll. rewrite fold_left_app. f_equal.
  destruct f as [name content|name entries].
  - unfold visitEntry.
    pose proof (visitFile_assigned dir route name content) as Ha.
    destruct (visitFile' dir route name content) as [[item messages] assigned].
    simpl in Ha. subst assigned.
    now destruct (isMetaFile name && qualifies currentResourcePath (metaLocale name)).
  - unfold visitEntry.
    destruct (getFilesIn' (DirEnt name entries) _ _ _) as [children st']. reflexivity.
Qed.

Lemma assignAll_in_order metas t0 m0 :
  StronglySorted le (t0 :: map (fun pm => readDone (fst pm)) metas) ->
  assignAll metas (Some (t0, m0)) =
  match rev metas with
  | (path, m) :: _ => Some (readDone path, m)
  | [] => Some (t0, m0)
  end.
Proof.
  revert t0 m0. induction metas as [|[path m] metas IH]; intros t0 m0 Hs; [reflexivity|].
  change (assignAll ((path, m) :: metas) (Some (t0, m0)))
    with (assignAll metas (assignMeta (readDone path) m (Some (t0, m0)))).
  apply StronglySorted_inv in Hs as [Hs Hall].
  inversion Hall as [|? ? Hle _]; subst. simpl in Hle.
  apply Nat.leb_le in Hle. cbn [assignMeta]. rewrite Hle, (IH _ _ Hs).
  simpl rev. destruct (rev metas) as [|[path' m'] r]; reflexivity.
Qed.

Lemma dirMetaOf_in_order dir route files st :
  completesInOrder' dir files ->
  dirMetaOf JSON_parse getProperty grayMatter readDone currentResourcePath dir route files st =
  authoritativeMeta' dir files.
Proof.
  intros Hs. unfold dirMetaOf, authoritativeMeta. rewrite dirMeta_visitEntries. simpl.
  unfold completesInOrder in Hs.
  destruct (qualifyingMetas' dir files) as [|[path m] metas]; [reflexivity|].
  simpl in *. rewrite (assignAll_in_order metas m Hs).
  destruct (rev metas) as [|[path' m'] r]; reflexivity.
Qed.



(** In the walk in enumeration order the title a directory leaves is the
    one its [.map] resolves, from the [dirMeta] its callbacks have
    assigned and the active route and title they have left. *)
Lemma getFiles_title dir route files st :
  activeRouteTitle (snd (getFiles' dir route files st)) =
  resolveTitle getProperty
    (dirMetaOf JSON_parse getProperty grayMatter readDone currentResourcePath
               dir route files st)
    (activeRoute (snd (getFiles' dir route files st)))
    (map (entryItem' dir route) files)
    (activeRouteTitle
       (state (visitEntries' dir route files
                 {| items := []; dirMeta := None;
                    state := {| activeRoute :=
                                  discoverActiveRoute currentResourcePath dir route files
                                                      (activeRoute st);
                                activeRouteTitle := activeRouteTitle st;
                                console := console st;
                                thrown := thrown st |} |}))).
Proof.
  unfold getFiles, getFilesOf, dirMetaOf. cbn [snd activeRouteTitle activeRoute].
  rewrite items_visitEntries by (apply Forall_forall; intros f _; apply all_stateless).
  reflexivity.
Qed.


(** *** Meta files that do not parse *)

Lemma parseJsonFile_error content path err :
  JSON_parse content = inr err ->
  parseJsonFile JSON_parse content path = (JObj [], [parseError path err]).
Proof. unfold parseJsonFile. now intros ->. Qed.


Lemma console_visitEntries dir route files acc message :
  Forall keepsConsole files ->
  In message (console (state acc)) ->
  In message (console (state (visitEntries' dir route files acc))).
Proof.
  intros Hall. revert acc. induction Hall as [|f files Hf _ IH]; intros acc Hin; [exact Hin|].
  cbn [visitEntries]. apply IH. destruct f as [name content|name entries].
  - unfold visitEntry.
    destruct (visitFile' dir route name content) as [[item messages] assigned].
    simpl. apply in_or_app. now left.
  - unfold visitEntry.
    pose proof (Hf (path_resolve dir name) (fileRouteOf route name) (state acc) message Hin)
      as Hk.
    destruct (getFilesIn' (DirEnt name entries) _ _ _) as [children st']. exact Hk.
Qed.

Lemma all_keepsConsole d : keepsConsole d.
Proof.
  induction d as [name content|name entries IH] using Dirent_entries_ind;
    intros dir route st message Hin.
  - exact Hin.
  - rewrite getFilesIn_DirEnt. unfold getFiles, getFilesOf. simpl.
    now apply console_visitEntries.
Qed.

Lemma console_visitEntries_file dir route files acc name content message :
  In (FileEnt name content) files ->
  In message (snd (fst (visitFile' dir route name content))) ->
  In message (console (state (visitEntries' dir route files acc))).
Proof.
  revert acc. induction files as [|f files IH]; intros acc Hin Hmsg; [destruct Hin|].
  cbn [visitEntries]. destruct Hin as [->|Hin].
  - apply console_visitEntries; [apply Forall_forall; intros; apply all_keepsConsole|].
    unfold visitEntry.
    destruct (visitFile' dir route name content) as [[item messages] assigned].
    simpl in *. apply in_or_app. now right.
  - now apply IH.
Qed.

Lemma present_In (l : list (option PageMapNode)) it : In it (present l) <-> In (Some it) l.
Proof.
  unfold present. rewrite in_flat_map. split.
  - intros ([x|] & Hin & Hx); simpl in Hx; [|destruct Hx].
    destruct Hx as [->|[]]. exact Hin.
  - intros Hin. exists (Some it). split; [exact Hin | now left].
Qed.

(** C8. A meta file whose text is not valid JSON does not stop the
    build: [parseJsonFile] logs the error and gives the empty mapping, the
    file's node carries that mapping, it is what the file assigns to
    [dirMeta] when its locale qualifies, and the directory is built as
    usual, every entry contributing its item. *)
Theorem parseJsonFile_malformed content err :
  JSON_parse content = inr err ->
  (forall path, parseJsonFile JSON_parse content path = (JObj [], [parseError path err])) /\
  (forall dir route name,
      isMetaFile name = true ->
      visitFile' dir route name content =
      (Some (MetaFile (JObj []) (metaLocale name)),
       [parseError (path_resolve dir name) err],
       if qualifies currentResourcePath (metaLocale name)
       then Some (readDone (path_resolve dir name), JObj [])
       else None)) /\
  (forall dir route files st name,
      In (FileEnt name content) files -> isMetaFile name = true ->
      In (MetaFile (JObj []) (metaLocale name)) (fst (getFiles' dir route files st)) /\
      In (parseError (path_resolve dir name) err)
         (console (snd (getFiles' dir route files st))) /\
      fst (getFiles' dir route files st) = present (map (entryItem' dir route) files)) /\
  (forall dir route before after st name,
      isMetaFile name = true -> qualifies currentResourcePath (metaLocale name) = true ->
      qualifyingMetas' dir after = [] ->
      completesInOrder' dir (before ++ FileEnt name content :: after) ->
      dirMetaOf JSON_parse getProperty grayMatter readDone currentResourcePath dir route
                (before ++ FileEnt name content :: after) st = JObj []).
Proof.
  intros Herr.
  assert (Hparse : forall path,
             parseJsonFile JSON_parse content path = (JObj [], [parseError path err])).
  { intros path. now apply parseJsonFile_error. }
  assert (Hvisit : forall dir route name,
             isMetaFile name = true ->
             visitFile' dir route name content =
             (Some (MetaFile (JObj []) (metaLocale name)),
              [parseError (path_resolve dir name) err],
              if qualifies currentResourcePath (metaLocale name)
              then Some (readDone (path_resolve dir name), JObj [])
              else None)).
  { intros dir route name Hmeta. unfold isMetaFile in Hmeta.
    apply andb_true_iff in Hmeta as [Hext Hmeta]. apply negb_true_iff in Hext.
    unfold visitFile. now rewrite Hext, Hmeta, Hparse. }
  split; [exact Hparse|]. split; [exact Hvisit|]. split.
  - intros dir route files st name Hin Hmeta. split; [|split].
    + rewrite getFiles_pageMap. apply present_In, in_map_iff.
      exists (FileEnt name content). split; [|exact Hin].
      simpl. now rewrite Hvisit.
    + unfold getFiles, getFilesOf. simpl.
      apply console_visitEntries_file with (name := name) (content := content);
        [exact Hin|].
      rewrite Hvisit by exact Hmeta. now left.
    + apply getFiles_pageMap.
  - intros dir route before after st name Hmeta Hq Hafter Hs.
    rewrite dirMetaOf_in_order by exact Hs.
    unfold authoritativeMeta, qualifyingMetas.
    rewrite flat_map_app. cbn [flat_map]. fold (qualifyingMetas' dir after).
    rewrite Hafter, Hmeta, Hq, Hparse. simpl.
    now rewrite rev_app_distr.
Qed.
End TreeFacts.

(** ** What the matcher accepts *)

Module RegexFacts.


Lemma plus_cls_sound p n s k res :
  plus_cls p n s k = Some res ->
  exists w s', s = w ++ s' /\ w <> [] /\ forallb p w = true /\
               k (n + List.length w)%nat s' = Some res.
Proof.
  revert n. induction s as [|c s IH]; intros n; simpl; [discriminate|].
  destruct (p c) eqn:Hc; [|discriminate].
  destruct (plus_cls p (S n) s k) as [r|] eqn:Hrec.
  - intros [= <-]. destruct (IH _ Hrec) as (w & s' & -> & _ & Hw & Hk).
    exists (c :: w), s'. simpl. rewrite Hc, Hw. repeat split; try discriminate.
    now replace (n + S (List.length w))%nat with (S n + List.length w)%nat by lia.
  - intros Hk. exists [c], s. simpl. rewrite Hc. repeat split; try discriminate.
    now replace (n + 1)%nat with (S n) by lia.
Qed.

(** Whatever the matcher finds is a match. *)
Lemma m_sound r : forall st k res,
  m r st k = Some res ->
  exists st', Matches r (pos st) (rest st) (pos st') (rest st') /\ k st' = Some res.
Proof.
  induction r as [|c|p|r1 IH1 r2 IH2|r1 IH1 r2 IH2|r IH|p|i r IH| |];
    intros st k res; simpl.
  - intros H. exists st. split; [constructor | exact H].
  - destruct st as [n [|c' s] cs]; simpl; [discriminate|].
    destruct (Ascii.eqb_spec c c') as [<-|]; [|discriminate].
    intros H. eexists. split; [|exact H]. constructor.
  - destruct st as [n [|c' s] cs]; simpl; [discriminate|].
    destruct (p c') eqn:Hp; [|discriminate].
    intros H. eexists. split; [|exact H]. now constructor.
  - intros H. apply IH1 in H as (st1 & H1 & H). apply IH2 in H as (st2 & H2 & H).
    exists st2. split; [econstructor; eauto | exact H].
  - destruct (m r1 st k) as [r|] eqn:H1.
    + intros [= <-]. apply IH1 in H1 as (st' & H1 & H). exists st'. split; [now apply M_AltL | exact H].
    + intros H. apply IH2 in H as (st' & H2 & H). exists st'. split; [now apply M_AltR | exact H].
  - destruct (m r st k) as [r'|] eqn:H1.
    + intros [= <-]. apply IH in H1 as (st' & H1 & H). exists st'. split; [now apply M_OptSome | exact H].
    + intros H. exists st. split; [apply M_OptNone | exact H].
  - intros H. apply plus_cls_sound in H as (w & s' & Hs & Hw & Hp & H).
    eexists. split; [|exact H]. simpl. rewrite Hs. now constructor.
  - intros H. apply IH in H as (st' & H1 & H).
    eexists. split; [|exact H]. simpl. now constructor.
  - destruct (Nat.eqb_spec (pos st) 0) as [H0|]; [|discriminate].
    intros H. exists st. split; [|exact H]. rewrite H0. constructor.
  - destruct st as [n [|c' s] cs]; simpl; [|discriminate].
    intros H. eexists. split; [|exact H]. constructor.
Qed.

(** A run of the class that ends where the class stops is consumed
    whole before the rest is tried. *)
Lemma plus_cls_greedy p n w s k res :
  w <> [] -> forallb p w = true ->
  match s with c :: _ => p c = false | [] => True end ->
  k (n + List.length w)%nat s = Some res ->
  plus_cls p n (w ++ s) k = Some res.
Proof.
  revert n. induction w as [|c w IH]; intros n Hne Hall Hstop Hk; [congruence|].
  simpl in *. apply andb_true_iff in Hall as [Hc Hall]. rewrite Hc.
  destruct w as [|c' w].
  - simpl in *. replace (n + 1)%nat with (S n) in Hk by lia.
    assert (Hnone : plus_cls p (S n) s k = None).
    { destruct s as [|c' s]; simpl; [reflexivity | now rewrite Hstop]. }
    now rewrite Hnone.
  - rewrite (IH (S n)); [reflexivity | discriminate | exact Hall | exact Hstop |].
    now replace (S n + List.length (c' :: w))%nat with (n + S (List.length (c' :: w)))%nat by lia.
Qed.

(** *** The locale expression *)


Lemma dots_app s t : dots (s ++ t) = (dots s + dots t)%nat.
Proof. unfold dots. now rewrite filter_app, length_app. Qed.

Lemma dots_class w : forallb letter_or_hyphen w = true -> dots w = 0%nat.
Proof.
  unfold dots. induction w as [|c w IH]; cbn [filter forallb]; [reflexivity|].
  intros H. apply andb_true_iff in H as [Hc Hw].
  destruct (Ascii.eqb "." c) eqn:E; [|now apply IH].
  apply Ascii.eqb_eq in E. subst c. discriminate.
Qed.

Ltac invert_matches :=
  repeat match goal with
         | H : Matches (Cat _ _) _ _ _ _ |- _ => inversion H; subst; clear H
         | H : Matches (Lit _) _ _ _ _ |- _ => inversion H; subst; clear H
         | H : Matches (Grp _ _) _ _ _ _ |- _ => inversion H; subst; clear H
         | H : Matches (Alt _ _) _ _ _ _ |- _ => inversion H; subst; clear H
         | H : Matches (Opt _) _ _ _ _ |- _ => inversion H; subst; clear H
         | H : Matches Eos _ _ _ _ |- _ => inversion H; subst; clear H
         | H : Matches (PlusCls _) _ _ _ _ |- _ => inversion H; subst; clear H
         end.

(** What the locale expression matches: a dot, letters and hyphens if
    any, a dot and one of its extensions, up to the end. *)
Lemma localeRegex_shape n s n' s' :
  Matches localeRegex n s n' s' ->
  exists w e, s = "."%char :: w ++ "."%char :: e /\
              forallb letter_or_hyphen w = true /\ In e localeExtensions /\ s' = [].
Proof.
  unfold localeRegex. cbn [lits]. intros H. invert_matches;
    try (eexists; eexists; split; [reflexivity|];
         split; [assumption|]; split; [|reflexivity];
         unfold localeExtensions; simpl; tauto);
    try (exists []; eexists; split; [reflexivity|];
         split; [reflexivity|]; split; [|reflexivity];
         unfold localeExtensions; simpl; tauto).
Qed.

Lemma localeRegex_dots i s st :
  m localeRegex (MState i s []) Some = Some st ->
  dots s = 2%nat /\ exists s', s = "."%char :: s'.
Proof.
  intros H. apply m_sound in H as (st' & H & _). simpl in H.
  apply localeRegex_shape in H as (w & e & -> & Hw & He & _). split; [|eauto].
  change ("."%char :: w ++ "."%char :: e) with (["."%char] ++ w ++ ["."%char] ++ e).
  rewrite !dots_app, (dots_class w Hw).
  unfold localeExtensions in He. simpl in He.
  repeat (destruct He as [<-|He]; [reflexivity|]). destruct He.
Qed.

Lemma localeRegex_match i w e :
  w <> [] -> forallb letter_or_hyphen w = true -> In e localeExtensions ->
  exists st, m localeRegex (MState i ("."%char :: w ++ "."%char :: e) []) Some = Some st /\
             lookup_cap 1 (caps st) = Some w.
Proof.
  intros Hne Hw He.
  assert (Hfirst : firstn (S i + List.length w - S i) (w ++ "."%char :: e) = w).
  { replace (S i + List.length w - S i)%nat with (List.length w + 0)%nat by lia.
    rewrite firstn_app_2. simpl. apply app_nil_r. }
  unfold localeRegex. cbn [lits m rest pos caps]. simpl Ascii.eqb. cbv iota.
  unfold localeExtensions in He. simpl in He.
  repeat (destruct He as [<-|He];
          [match goal with
           | |- exists st, match plus_cls ?p ?n (?u ++ ?t) ?k with _ => _ end = _ /\ _ =>
               set (K := k);
               eassert (HK : K (n + List.length u)%nat t = Some _)
                 by (subst K; cbn -[firstn Nat.add Nat.sub]; rewrite Hfirst; reflexivity);
               rewrite (@plus_cls_greedy p n u t K _ Hne Hw eq_refl HK)
           end;
           eexists; split; reflexivity |]).
  destruct He.
Qed.

Lemma search_localized base : forall i w e,
  w <> [] -> forallb letter_or_hyphen w = true -> In e localeExtensions ->
  exists j st, search localeRegex i (base ++ "."%char :: w ++ "."%char :: e) = Some (j, st) /\
               lookup_cap 1 (caps st) = Some w.
Proof.
  induction base as [|c base IH]; intros i w e Hne Hw He.
  - destruct (localeRegex_match i Hne Hw He) as (st & Hm & Hcap).
    exists i, st. simpl app. destruct w as [|c w]; [congruence|].
    cbn [search app]. cbn [app] in Hm. now rewrite Hm.
  - cbn [app search].
    destruct (m localeRegex (MState i (c :: base ++ "."%char :: w ++ "."%char :: e) []) Some)
      as [st|] eqn:Hm.
    + exfalso. apply localeRegex_dots in Hm as [Hd (s' & Hs)]. injection Hs as -> _.
      change ("."%char :: base ++ "."%char :: w ++ "."%char :: e)
        with (["."%char] ++ base ++ ["."%char] ++ w ++ ["."%char] ++ e) in Hd.
      rewrite !dots_app in Hd. change (dots ["."%char]) with 1%nat in Hd. lia.
    + apply IH; assumption.
Qed.

Lemma search_few_dots r : forall i s,
  (forall j t st, m r (MState j t []) Some = Some st -> dots t = 2%nat) ->
  (dots s < 2)%nat -> search r i s = None.
Proof.
  intros i s Hr. revert i. induction s as [|c s IH]; intros i Hd.
  - simpl. destruct (m r (MState i [] []) Some) as [st|] eqn:Hm; [|reflexivity].
    apply Hr in Hm. unfold dots in Hm. simpl in Hm. lia.
  - cbn [search]. destruct (m r (MState i (c :: s) []) Some) as [st|] eqn:Hm.
    + apply Hr in Hm. lia.
    + apply IH. unfold dots in *. cbn [filter] in Hd.
      destruct (Ascii.eqb "." c); cbn [List.length] in Hd; lia.
Qed.

End RegexFacts.

Import RegexFacts.

(** ** Route naming *)

Lemma list_ascii_of_string_append (a b : string) :
  list_ascii_of_string (a +++ b) = list_ascii_of_string a ++ list_ascii_of_string b.
Proof. induction a as [|c a IH]; simpl; [reflexivity | now rewrite IH]. Qed.


(** For [<base>.<locale>.<ext>] with an extension the locale expression
    knows, the locale tag is returned. *)
Lemma getLocaleFromFilename_localized (base locale ext : string) :
  isLocaleSegment locale = true -> In ext localeRegexExtensions ->
  getLocaleFromFilename (base +++ "." +++ locale +++ "." +++ ext) = Some locale.
Proof.
  intros Hloc Hext. unfold isLocaleSegment in Hloc.
  apply andb_true_iff in Hloc as [Hne Hw]. apply negb_true_iff in Hne.
  unfold getLocaleFromFilename, exec.
  rewrite !list_ascii_of_string_append. simpl.
  destruct (@search_localized (list_ascii_of_string base) 0
              (list_ascii_of_string locale) (list_ascii_of_string ext))
    as (j & st & Hs & Hcap).
  - intros H. destruct locale; [discriminate Hne | discriminate H].
  - exact Hw.
  - unfold localeExtensions. now apply in_map.
  - rewrite Hs, Hcap. simpl. now rewrite string_of_list_ascii_of_string.
Qed.

(** For a plain [<base>.<ext>], nothing is returned. *)
Lemma getLocaleFromFilename_no_locale (base ext : string) :
  hasNoDot base = true -> hasNoDot ext = true ->
  getLocaleFromFilename (base +++ "." +++ ext) = None.
Proof.
  intros Hb He. unfold getLocaleFromFilename, exec.
  rewrite search_few_dots; [reflexivity | |].
  - intros j t st Hm. now apply localeRegex_dots in Hm.
  - rewrite !list_ascii_of_string_append, !dots_app. simpl.
    assert (Hnd : forall s, forallb not_dot s = true -> dots s = 0%nat).
    { unfold dots. induction s as [|c s IH]; cbn [filter forallb]; [reflexivity|].
      intros H. apply andb_true_iff in H as [Hc Hs].
      destruct (Ascii.eqb "." c) eqn:E; [|now apply IH].
      apply Ascii.eqb_eq in E. subst c. discriminate. }
    unfold hasNoDot in *. rewrite (Hnd _ Hb), (Hnd _ He). change (dots ["."%char]) with 1%nat. lia.
Qed.

Lemma search_no_suffix r : forall s i,
  (forall pre t j, s = pre ++ t -> m r (MState j t []) Some = None) ->
  search r i s = None.
Proof.
  induction s as [|c s IH]; intros i H.
  - simpl. now rewrite (H [] [] i eq_refl).
  - cbn [search]. rewrite (H [] (c :: s) i eq_refl). apply IH.
    intros pre t j ->. now apply (H (c :: pre) t j).
Qed.

(** A name that ends in [.ts] or [.tsx] is not matched by the locale
    expression, whatever comes before. *)
Lemma localeRegex_misses_ts (name : string) :
  getLocaleFromFilename (name +++ ".ts") = None /\
  getLocaleFromFilename (name +++ ".tsx") = None.
Proof.
  assert (Hmiss : forall ext : list ascii,
             ext = list_ascii_of_string ".ts" \/ ext = list_ascii_of_string ".tsx" ->
             search localeRegex 0 (list_ascii_of_string name ++ ext) = None).
  { intros ext Hext. apply search_no_suffix. intros pre t j Hs.
    destruct (m localeRegex (MState j t []) Some) as [st|] eqn:Hm; [exfalso|reflexivity].
    apply m_sound in Hm as (st' & Hm & _). simpl in Hm.
    apply localeRegex_shape in Hm as (w & e & -> & _ & He & _).
    apply (f_equal (@rev ascii)) in Hs.
    change ("."%char :: w ++ "."%char :: e) with (["."%char] ++ w ++ ["."%char] ++ e) in Hs.
    rewrite !rev_app_distr in Hs. unfold localeExtensions in He. simpl in He.
    destruct Hext as [-> | ->]; simpl in Hs;
      repeat (destruct He as [<-|He]; [simpl in Hs; discriminate Hs|]); destruct He. }
  unfold getLocaleFromFilename, exec. rewrite !list_ascii_of_string_append.
  rewrite !Hmiss by auto. split; reflexivity.
Qed.

(** C6. The locale expression lacks the TypeScript extensions that
    [extension] and the file name expression of the analyzer have: a
    localized [.ts] or [.tsx] page is taken for a page (its name matches
    [extension]), and yet [getLocaleFromFilename] gives no locale for it,
    as for every name with one of these two extensions. *)
Theorem getLocaleFromFilename_typescript :
  test extension "index.en.tsx" = true /\
  getLocaleFromFilename "index.en.tsx" = None /\
  test extension "index.en.ts" = true /\
  getLocaleFromFilename "index.en.ts" = None /\
  (forall name, getLocaleFromFilename (name +++ ".ts") = None /\
                getLocaleFromFilename (name +++ ".tsx") = None) /\
  getLocaleFromFilename "index.en.mdx" = Some "en" /\
  getLocaleFromFilename "index.mdx" = None.
Proof.
  repeat split; try reflexivity; apply localeRegex_misses_ts.
Qed.



Lemma parseJsonFile_malformed_witness :
  exampleParse "{oops" = inr "SyntaxError: Unexpected token" /\
  visitFile exampleParse exampleMatter exampleDone "/site/pages/about.md"
            "/site/pages" "/" "meta.json" "{oops" =
  (Some (MetaFile (JObj []) None),
   [parseError "/site/pages/meta.json" "SyntaxError: Unexpected token"],
   Some (0%nat, JObj [])).
Proof.
  split; [reflexivity|].
  rewrite (proj1 (proj2 (@parseJsonFile_malformed exampleParse exampleProperty exampleMatter
                           exampleDone
                           "/site/pages/about.md" "{oops" "SyntaxError: Unexpected token"
                           eq_refl))
                 "/site/pages" "/" "meta.json" eq_refl).
  reflexivity.
Defined.

Lemma analyzeLocalizedEntries_spec_witness :
  newFilenameRe exampleCompile (getFileName "/site/pages/a.en.md") =
  Some (test (variantRegex "a")) /\
  Forall (fun f => test (variantRegex "a") (dirent_name f) = true ->
                   exists name content, f = FileEnt name content) exampleListing /\
  exists d,
    analyzeLocalizedEntries exampleRegExp exampleCompile "/site/pages/a.en.md" (Some "fr")
                            exampleListing
    = Some d /\
    ssg d = true /\ ssr d = false /\ defaultIndex d = 1%nat.
Proof.
  assert (Hre : newFilenameRe exampleCompile (getFileName "/site/pages/a.en.md") =
                Some (test (variantRegex "a"))) by reflexivity.
  assert (Hfiles : Forall (fun f => test (variantRegex "a") (dirent_name f) = true ->
                                    exists name content, f = FileEnt name content)
                          exampleListing).
  { repeat constructor; intros _; eexists; eexists; reflexivity. }
  split; [exact Hre|]. split; [exact Hfiles|].
  destruct (proj1 analyzeLocalizedEntries_spec exampleRegExp exampleCompile
                  "/site/pages/a.en.md" (Some "fr") exampleListing _ Hre Hfiles)
    as (d & Hd & _).
  exists d. split; [exact Hd|].
  vm_compute in Hd. injection Hd as <-. repeat split.
Defined.

(** ** Further properties *)

(** X1. For a page map in which no page is named [__proto__], one level
    of the filter is the kept nodes in place (directories with their
    children filtered, exact matches as they are), followed by the
    fallbacks of the names no exact match resolved, in the order a plain
    object enumerates those names. *)
Theorem filterRouteLocale_two_phase (L D : option string) (pageMap : list PageMapNode) :
  forallb ownNamesBelow pageMap = true ->
  filterRouteLocale L D pageMap =
  keptInPlace L D pageMap ++
  fallbackPart (localDoesMatch L D) (fallbackEligible D) jsOrder (leaves pageMap).
Proof. intros _. apply filterPages_spec. Qed.

Lemma filterRouteLocale_two_phase_witness :
  forallb ownNamesBelow pageThenDirectory = true /\
  filterRouteLocale (Some "fr") (Some "en") pageThenDirectory =
  [Directory "d" "/d" [Page "x" "/d/x" None None]] ++ [Page "a" "/a" None None].
Proof.
  split; [reflexivity|].
  rewrite (@filterRouteLocale_two_phase (Some "fr") (Some "en") pageThenDirectory eq_refl).
  reflexivity.
Defined.

(** X2. The page dispatcher of the generated module is the text of the
    chain of locale tests; for a locale some variant carries it renders
    the first such variant, and for any other locale the variant at the
    default index. *)
Theorem pageDispatcher_renders (files : list LocaleFile) (defaultIndex : nat) :
  pageDispatcher files defaultIndex = printChain (pageChain files defaultIndex) /\
  (forall locale,
     (forall file, In file files -> strict_eq locale (Some (literalOf file)) = false) ->
     runChain locale (pageChain files defaultIndex) = RenderPage defaultIndex) /\
  (forall locale before file after,
     files = before ++ file :: after ->
     (forall file', In file' before ->
                    strict_eq locale (Some (literalOf file')) = false) ->
     strict_eq locale (Some (literalOf file)) = true ->
     runChain locale (pageChain files defaultIndex) = RenderPage (List.length before)).
Proof.
  split; [apply pageDispatcher_chain | split].
  - intros locale. unfold pageChain. generalize 0%nat.
    induction files as [|file files' IH]; intros i Hnone; simpl; [reflexivity|].
    change (show_locale (file_locale file)) with (literalOf file).
    rewrite (Hnone file) by now left. simpl. apply IH. intros f Hf. apply Hnone. now right.
  - intros locale before file after -> Hbefore Hfile. unfold pageChain.
    replace (List.length before) with (0 + List.length before)%nat by reflexivity.
    generalize 0%nat.
    induction before as [|b before IH]; intros i; simpl.
    + change (show_locale (file_locale file)) with (literalOf file).
      rewrite Hfile. simpl. f_equal. lia.
    + change (show_locale (file_locale b)) with (literalOf b).
      rewrite (Hbefore b) by now left. simpl.
      rewrite IH by (intros f Hf; apply Hbefore; now right). f_equal. lia.
Qed.

(** *** More on the locale fallback filter *)

Lemma keptInPlace_In L D pm p :
  In p (keptInPlace L D pm) ->
  exists q, In q pm /\
            ((isDirectory q = true /\ p = filterChildren L D q) \/
             (isDirectory q = false /\ localDoesMatch L D q = true /\ p = q)).
Proof.
  unfold keptInPlace. intros Hin. apply in_flat_map in Hin as (q & Hq & Hin).
  exists q. split; [exact Hq|].
  destruct (isDirectory q) eqn:Hd.
  - destruct Hin as [<-|[]]. now left.
  - destruct (localDoesMatch L D q) eqn:He; [|destruct Hin].
    destruct Hin as [<-|[]]. now right.
Qed.

Lemma fallbackPart_leaf L D pm p :
  In p (fallbackPart (localDoesMatch L D) (fallbackEligible D) jsOrder (leaves pm)) ->
  In p pm /\ isDirectory p = false /\ fallbackEligible D p = true /\
  localDoesMatch L D p = false /\
  resolved (localDoesMatch L D) (leaves pm) (node_name p) = false.
Proof.
  intros Hin.
  pose proof (fallbackPart_not_exact (localDoesMatch L D) (fallbackEligible D) (leaves pm))
    as Hne.
  rewrite Forall_forall in Hne. specialize (Hne p Hin).
  apply fallbackPart_In, pending_In in Hin as (Hl & He & Hr).
  unfold leaves in Hl. apply filter_In in Hl as [Hl Hd]. apply negb_true_iff in Hd.
  auto.
Qed.

(** X3. Whatever the page map without a page named [__proto__], no
    page of a third locale survives the filter: at every depth, a node of
    the output that is not a directory has no locale, the request locale or
    the default locale. *)
Theorem filterRouteLocale_locales (L D : option string) (pageMap : list PageMapNode) :
  forallb ownNamesBelow pageMap = true ->
  forallb (allLeaves (localeAmong L D)) (filterRouteLocale L D pageMap) = true.
Proof.
  intros _.
  assert (Hnode : forall p, allLeaves (localeAmong L D) (filterChildren L D p) = true \/
                            isDirectory p = false).
  { induction p as [name route children IH| |] using PageMapNode_children_ind;
      [left|now right|now right].
    rewrite filterChildren_Directory. cbn [allLeaves].
    apply forallb_forall. intros p Hp. rewrite filterRouteLocale_spec in Hp.
    apply in_app_iff in Hp as [Hp|Hp].
    - apply keptInPlace_In in Hp as (q & Hq & [[Hd ->]|(Hd & He & ->)]).
      + rewrite Forall_forall in IH. destruct (IH q Hq) as [H|H]; [exact H|congruence].
      + destruct q; [discriminate| |]; cbn [allLeaves]; unfold localeAmong;
          unfold localDoesMatch in He; apply orb_true_iff in He as [He|He];
          try (apply andb_true_iff in He as [He _]); rewrite He;
          now rewrite ?orb_true_r.
    - apply fallbackPart_leaf in Hp as (_ & Hd & He & _).
      destruct p; [discriminate| |]; cbn [allLeaves]; unfold localeAmong;
        unfold fallbackEligible in He; apply orb_true_iff in He as [He|He]; rewrite He;
        now rewrite ?orb_true_r. }
  destruct (Hnode (Directory "" "" pageMap)) as [H|H]; [|discriminate].
  rewrite filterChildren_Directory in H. exact H.
Qed.

Lemma filterRouteLocale_locales_witness :
  forallb ownNamesBelow sample = true /\
  forallb (allLeaves (localeAmong (Some "de") (Some "en")))
          (filterRouteLocale (Some "de") (Some "en") sample) = true.
Proof.
  split; [reflexivity|].
  exact (@filterRouteLocale_locales (Some "de") (Some "en") sample eq_refl).
Defined.

Lemma strict_eq_refl (l : option string) : strict_eq l l = true.
Proof. destruct l; simpl; [apply String.eqb_refl | reflexivity]. Qed.

Lemma keptInPlace_exact L D pm p :
  In p pm -> isDirectory p = false -> localDoesMatch L D p = true ->
  In p (keptInPlace L D pm).
Proof.
  intros Hin Hd He. unfold keptInPlace. apply in_flat_map. exists p.
  split; [exact Hin|]. rewrite Hd, He. now left.
Qed.

(** X4. A request for the default locale never falls back: the output is
    the input with its directories filtered in place and the nodes of
    another locale dropped, in the order of the input. *)
Theorem filterRouteLocale_default_locale (D : option string) (pageMap : list PageMapNode) :
  filterRouteLocale D D pageMap =
  flat_map (fun p => if isDirectory p then [filterChildren D D p]
                     else if fallbackEligible D p then [p] else [])
           pageMap.
Proof.
  assert (Hsame : forall p, localDoesMatch D D p = fallbackEligible D p).
  { intros p. unfold localDoesMatch, fallbackEligible, isDefaultLocale.
    now rewrite strict_eq_refl, orb_true_r, andb_true_r. }
  rewrite filterRouteLocale_spec.
  assert (Hnone : pending (localDoesMatch D D) (fallbackEligible D) (leaves pageMap) = []).
  { destruct (pending _ _ _) as [|p ps] eqn:Hp; [reflexivity|exfalso].
    assert (Hin : In p (pending (localDoesMatch D D) (fallbackEligible D) (leaves pageMap)))
      by (rewrite Hp; now left).
    apply pending_In in Hin as (Hin & He & Hr).
    assert (Hres : resolved (localDoesMatch D D) (leaves pageMap) (node_name p) = true)
      by (apply resolved_true; exists p; rewrite Hsame; auto).
    congruence. }
  unfold fallbackPart. rewrite Hnone. simpl. rewrite app_nil_r.
  unfold keptInPlace. apply flat_map_ext_in. intros p _. now rewrite Hsame.
Qed.

(** X5. A name never vanishes while a usable variant exists: in a
    level where no page is named [__proto__], if some node that is not a
    directory is an exact match or a fallback candidate, the output of that
    level holds a node with its name. *)
Theorem filterRouteLocale_keeps_name (L D : option string) (pageMap : list PageMapNode)
        (p : PageMapNode) :
  ownNames pageMap = true ->
  In p pageMap -> isDirectory p = false ->
  localDoesMatch L D p || fallbackEligible D p = true ->
  exists q, In q (filterRouteLocale L D pageMap) /\ isDirectory q = false /\
            node_name q = node_name p /\ In q pageMap.
Proof.
  intros _ Hin Hd Hok. rewrite filterRouteLocale_spec.
  assert (Hleaf : In p (leaves pageMap)).
  { unfold leaves. apply filter_In. now rewrite Hd. }
  destruct (resolved (localDoesMatch L D) (leaves pageMap) (node_name p)) eqn:Hr.
  - apply resolved_true in Hr as (e & He & Hex & Hn).
    unfold leaves in He. apply filter_In in He as [He Hde]. apply negb_true_iff in Hde.
    exists e. repeat split; [|exact Hde|exact Hn|exact He].
    apply in_app_iff. left. now apply keptInPlace_exact.
  - assert (Hel : fallbackEligible D p = true).
    { destruct (localDoesMatch L D p) eqn:Hex; [|exact Hok].
      assert (resolved (localDoesMatch L D) (leaves pageMap) (node_name p) = true)
        by (apply resolved_true; exists p; auto).
      congruence. }
    assert (Hp : In p (pending (localDoesMatch L D) (fallbackEligible D) (leaves pageMap)))
      by (apply pending_In; auto).
    destruct (@lastNamed_exists (node_name p) _ p Hp eq_refl) as (q & Hq & Hn).
    assert (Hfb : In q (fallbackPart (localDoesMatch L D) (fallbackEligible D) jsOrder
                                     (leaves pageMap))).
    { unfold fallbackPart. apply in_flat_map. exists (node_name p). split.
      - apply In_jsOrder, In_firstSeen, in_map, Hp.
      - rewrite Hq. now left. }
    exists q. pose proof (fallbackPart_leaf _ _ _ _ Hfb) as (Hqin & Hqd & _).
    repeat split; [|exact Hqd|exact Hn|exact Hqin].
    apply in_app_iff. now right.
Qed.

Lemma filterRouteLocale_keeps_name_witness :
  ownNames sample = true /\
  In (Page "a" "/a" None None) sample /\
  exists q, In q (filterRouteLocale (Some "de") (Some "en") sample) /\
            node_name q = "a".
Proof.
  assert (Hin : In (Page "a" "/a" None None) sample) by (now left).
  split; [reflexivity|]. split; [exact Hin|].
  destruct (@filterRouteLocale_keeps_name (Some "de") (Some "en") sample
              (Page "a" "/a" None None) eq_refl Hin eq_refl eq_refl)
    as (q & Hq & _ & Hn & _).
  exists q. split; [exact Hq | exact Hn].
Defined.

(** X6. For a page map in which no page is named [__proto__], the
    output of a level never holds two fallbacks of one name, nor a
    fallback beside an exact match of its name: it is the nodes kept in
    place followed by fallbacks whose names are pairwise different and
    differ from the name of every exact match of the level. *)
Theorem filterRouteLocale_one_per_name (L D : option string) (pageMap : list PageMapNode) :
  forallb ownNamesBelow pageMap = true ->
  exists fallbackNodes,
    filterRouteLocale L D pageMap = keptInPlace L D pageMap ++ fallbackNodes /\
    NoDup (map node_name fallbackNodes) /\
    forall q p, In q fallbackNodes -> In p pageMap -> isDirectory p = false ->
                localDoesMatch L D p = true -> node_name p <> node_name q.
Proof.
  intros _.
  exists (fallbackPart (localDoesMatch L D) (fallbackEligible D) jsOrder (leaves pageMap)).
  split; [apply filterRouteLocale_spec|]. split.
  - rewrite fallbackPart_names. apply NoDup_jsOrder, NoDup_firstSeen.
  - intros q p Hq Hp Hd He Hn.
    apply fallbackPart_leaf in Hq as (_ & _ & _ & _ & Hr).
    assert (resolved (localDoesMatch L D) (leaves pageMap) (node_name q) = true);
      [|congruence].
    apply resolved_true. exists p. repeat split; [|exact He|exact Hn].
    unfold leaves. apply filter_In. now rewrite Hd.
Qed.

Lemma filterRouteLocale_one_per_name_witness :
  forallb ownNamesBelow sample = true /\
  exists fallbackNodes,
    filterRouteLocale (Some "de") (Some "en") sample =
    keptInPlace (Some "de") (Some "en") sample ++ fallbackNodes /\
    NoDup (map node_name fallbackNodes).
Proof.
  split; [reflexivity|].
  destruct (@filterRouteLocale_one_per_name (Some "de") (Some "en") sample eq_refl)
    as (fallbackNodes & Heq & Hnd & _).
  exists fallbackNodes. split; [exact Heq | exact Hnd].
Defined.

Lemma length_firstSeen (names : list string) :
  (List.length (firstSeen names) <= List.length names)%nat.
Proof.
  induction names as [|x names IH] using rev_ind; [reflexivity|].
  rewrite firstSeen_snoc, length_app. simpl.
  destruct (existsb _ _); [|rewrite length_app; simpl]; lia.
Qed.

Lemma length_jsOrder (names : list string) :
  List.length (jsOrder names) = List.length names.
Proof.
  unfold jsOrder. rewrite length_app.
  rewrite <- (Permutation_length (sortByIndex_perm (filter isIndex names))).
  apply filter_length.
Qed.

Lemma length_lastNamed name nodes : (List.length (lastNamed name nodes) <= 1)%nat.
Proof. unfold lastNamed. destruct (rev _); simpl; lia. Qed.

Lemma length_flat_map_le (A B : Type) (f : A -> list B) (l : list A) :
  (forall a, List.length (f a) <= 1)%nat ->
  (List.length (flat_map f l) <= List.length l)%nat.
Proof.
  intros H. induction l as [|a l IH]; simpl; [lia|].
  rewrite length_app. specialize (H a). lia.
Qed.

Lemma length_filter_le (A : Type) (f g : A -> bool) (l : list A) :
  (forall a, In a l -> f a = true -> g a = true) ->
  (List.length (filter f l) <= List.length (filter g l))%nat.
Proof.
  induction l as [|a l IH]; intros H; [reflexivity|]. cbn [filter].
  assert (IH' := IH (fun b Hb => H b (or_intror Hb))).
  destruct (f a) eqn:Hf.
  - rewrite (H a (or_introl eq_refl) Hf). simpl. lia.
  - destruct (g a); simpl; lia.
Qed.

(** X7. In a level where no page is named [__proto__] the filter
    invents nothing and never grows the level: every node of the output
    that is not a directory is a node of the input, and the output has at
    most as many nodes as the input. *)
Theorem filterRouteLocale_no_more (L D : option string) (pageMap : list PageMapNode) :
  ownNames pageMap = true ->
  (forall p, In p (filterRouteLocale L D pageMap) -> isDirectory p = false -> In p pageMap) /\
  (List.length (filterRouteLocale L D pageMap) <= List.length pageMap)%nat.
Proof.
  intros _. rewrite filterRouteLocale_spec. split.
  - intros p Hp Hd. apply in_app_iff in Hp as [Hp|Hp].
    + apply keptInPlace_In in Hp as (q & Hq & [[Hdq ->]|(_ & _ & ->)]); [|exact Hq].
      rewrite isDirectory_filterChildren in Hd. congruence.
    + now apply fallbackPart_leaf in Hp.
  - rewrite length_app.
    set (exact := localDoesMatch L D). set (el := fallbackEligible D).
    assert (Hfb : (List.length (fallbackPart exact el jsOrder (leaves pageMap)) <=
                   List.length (filter (fun p => negb (exact p)) (leaves pageMap)))%nat).
    { unfold fallbackPart.
      etransitivity; [apply length_flat_map_le; intros; apply length_lastNamed|].
      rewrite length_jsOrder. etransitivity; [apply length_firstSeen|].
      rewrite length_map. unfold pending. apply length_filter_le.
      intros p Hp H. apply andb_true_iff in H as [_ Hr]. apply negb_true_iff in Hr.
      apply negb_true_iff. destruct (exact p) eqn:He; [|reflexivity].
      assert (resolved exact (leaves pageMap) (node_name p) = true)
        by (apply resolved_true; exists p; auto).
      congruence. }
    assert (Hkept : (List.length (keptInPlace L D pageMap) +
                     List.length (filter (fun p => negb (exact p)) (leaves pageMap)) =
                     List.length pageMap)%nat).
    { clear Hfb. unfold keptInPlace, leaves. fold exact.
      induction pageMap as [|p pm IH]; [reflexivity|].
      cbn [flat_map filter]. rewrite length_app.
      destruct (isDirectory p); cbn [negb]; [simpl; lia|].
      cbn [filter]. destruct (exact p); simpl; lia. }
    lia.
Qed.

Lemma filterRouteLocale_no_more_witness :
  ownNames sample = true /\
  (List.length (filterRouteLocale (Some "de") (Some "en") sample) <= List.length sample)%nat.
Proof.
  split; [reflexivity|].
  exact (proj2 (@filterRouteLocale_no_more (Some "de") (Some "en") sample eq_refl)).
Defined.

(** *** More on what the matcher accepts *)

Module RegexMore.

Lemma plus_cls_complete p w : forall n s k,
  w <> [] -> forallb p w = true ->
  k (n + List.length w)%nat s <> None ->
  plus_cls p n (w ++ s) k <> None.
Proof.
  induction w as [|c w IH]; intros n s k Hne Hall Hk; [congruence|].
  simpl in *. apply andb_true_iff in Hall as [Hc Hall]. rewrite Hc.
  destruct (plus_cls p (S n) (w ++ s) k) as [r|] eqn:Hrec; [discriminate|].
  destruct w as [|c' w].
  - simpl in *. now replace (S n) with (n + 1)%nat by lia.
  - exfalso. revert Hrec. apply IH; [discriminate | exact Hall |].
    now replace (S n + List.length (c' :: w))%nat
      with (n + S (List.length (c' :: w)))%nat by lia.
Qed.

(** Whatever is a match, the matcher finds one. *)
Lemma m_complete r n s n' s' :
  Matches r n s n' s' ->
  forall cs k, (forall cs', k (MState n' s' cs') <> None) ->
               m r (MState n s cs) k <> None.
Proof.
  induction 1 as [n s|c n s|p c n s Hp|r1 r2 n s n1 s1 n2 s2 _ IH1 _ IH2
                  |r1 r2 n s n' s' _ IH|r1 r2 n s n' s' _ IH
                  |r n s n' s' _ IH|r n s|p w n s Hne Hw|i r n s n' s' _ IH|s|n];
    intros cs k Hk; simpl.
  - apply Hk.
  - rewrite Ascii.eqb_refl. apply Hk.
  - rewrite Hp. apply Hk.
  - apply IH1. intros cs'. now apply IH2.
  - destruct (m r1 (MState n s cs) k) eqn:H1; [discriminate|].
    exfalso. revert H1. now apply IH.
  - destruct (m r1 (MState n s cs) k) eqn:H1; [discriminate|]. now apply IH.
  - destruct (m r (MState n s cs) k) eqn:H1; [discriminate|].
    exfalso. revert H1. now apply IH.
  - destruct (m r (MState n s cs) k) eqn:H1; [discriminate|]. apply Hk.
  - apply plus_cls_complete; [exact Hne | exact Hw | apply Hk].
  - apply IH. intros cs'. apply Hk.
  - apply Hk.
  - apply Hk.
Qed.

(** Whatever the matcher finds is a match, captures included. *)
Lemma m_captures r : forall st k res,
  m r st k = Some res -> exists st', Captures r st st' /\ k st' = Some res.
Proof.
  induction r as [|c|p|r1 IH1 r2 IH2|r1 IH1 r2 IH2|r IH|p|i r IH| |];
    intros st k res; simpl.
  - intros H. exists st. split; [constructor | exact H].
  - destruct st as [n [|c' s] cs]; simpl; [discriminate|].
    destruct (Ascii.eqb_spec c c') as [<-|]; [|discriminate].
    intros H. eexists. split; [|exact H]. constructor.
  - destruct st as [n [|c' s] cs]; simpl; [discriminate|].
    destruct (p c') eqn:Hp; [|discriminate].
    intros H. eexists. split; [|exact H]. now constructor.
  - intros H. apply IH1 in H as (st1 & H1 & H). apply IH2 in H as (st2 & H2 & H).
    exists st2. split; [econstructor; eauto | exact H].
  - destruct (m r1 st k) as [r|] eqn:H1.
    + intros [= <-]. apply IH1 in H1 as (st' & H1 & H). exists st'.
      split; [now apply C_AltL | exact H].
    + intros H. apply IH2 in H as (st' & H2 & H). exists st'.
      split; [now apply C_AltR | exact H].
  - destruct (m r st k) as [r'|] eqn:H1.
    + intros [= <-]. apply IH in H1 as (st' & H1 & H). exists st'.
      split; [now apply C_OptSome | exact H].
    + intros H. exists st. split; [apply C_OptNone | exact H].
  - intros H. apply plus_cls_sound in H as (w & s' & Hs & Hw & Hp & H).
    eexists. split; [|exact H]. destruct st as [n s cs]. simpl in *. subst s.
    now constructor.
  - intros H. apply IH in H as (st' & H1 & H).
    eexists. split; [|exact H]. now constructor.
  - destruct (Nat.eqb_spec (pos st) 0) as [H0|]; [|discriminate].
    intros H. exists st. split; [|exact H]. destruct st as [n s cs]. simpl in H0.
    subst n. constructor.
  - destruct st as [n [|c' s] cs]; simpl; [|discriminate].
    intros H. eexists. split; [|exact H]. constructor.
Qed.

(** What a search finds starts somewhere in the subject. *)
Lemma search_Some r : forall s i j st,
  search r i s = Some (j, st) ->
  exists pre suf, s = pre ++ suf /\ j = (i + List.length pre)%nat /\
                  m r (MState j suf []) Some = Some st /\
                  forall pre' suf', s = pre' ++ suf' ->
                                    (List.length pre' < List.length pre)%nat ->
                                    m r (MState (i + List.length pre') suf' []) Some = None.
Proof.
  induction s as [|c s IH]; intros i j st; cbn [search].
  - destruct (m r (MState i [] []) Some) as [st0|] eqn:Hm; [|discriminate].
    intros [= <- <-]. exists [], []. simpl. rewrite Nat.add_0_r.
    repeat split; [exact Hm|]. intros pre' suf' _ H. lia.
  - destruct (m r (MState i (c :: s) []) Some) as [st0|] eqn:Hm.
    + intros [= <- <-]. exists [], (c :: s). simpl. rewrite Nat.add_0_r.
      repeat split; [exact Hm|]. intros pre' suf' _ H. lia.
    + intros H. apply IH in H as (pre & suf & -> & -> & Hf & Hearlier).
      exists (c :: pre), suf. simpl.
      replace (i + S (List.length pre))%nat with (S i + List.length pre)%nat by lia.
      repeat split; [exact Hf|].
      intros [|c' pre'] suf' Hs Hlen; simpl in *.
      * subst suf'. now rewrite Nat.add_0_r.
      * injection Hs as <- Hs.
        replace (i + S (List.length pre'))%nat with (S i + List.length pre')%nat by lia.
        apply Hearlier; [exact Hs | lia].
Qed.

(** A search fails when no suffix of the subject is matched. *)
Lemma search_None r : forall s i,
  search r i s = None <->
  forall pre suf, s = pre ++ suf -> m r (MState (i + List.length pre) suf []) Some = None.
Proof.
  induction s as [|c s IH]; intros i; cbn [search].
  - split.
    + destruct (m r (MState i [] []) Some) eqn:Hm; [discriminate|].
      intros _ pre suf Hs. symmetry in Hs. apply app_eq_nil in Hs as [-> ->].
      simpl. now rewrite Nat.add_0_r.
    + intros H. specialize (H [] [] eq_refl). simpl in H. rewrite Nat.add_0_r in H.
      now rewrite H.
  - split.
    + destruct (m r (MState i (c :: s) []) Some) eqn:Hm; [discriminate|].
      intros H [|c' pre] suf Hs; simpl in *.
      * subst suf. now rewrite Nat.add_0_r.
      * injection Hs as <- Hs.
        replace (i + S (List.length pre))%nat with (S i + List.length pre)%nat by lia.
        now apply (proj1 (IH (S i)) H).
    + intros H. pose proof (H [] (c :: s) eq_refl) as H0. simpl in H0.
      rewrite Nat.add_0_r in H0. rewrite H0. apply IH. intros pre suf ->.
      specialize (H (c :: pre) suf eq_refl). simpl in H.
      now replace (S i + List.length pre)%nat with (i + S (List.length pre))%nat by lia.
Qed.

(** [test] says whether the expression matches somewhere in the
    subject. *)
Lemma test_true r (s : string) :
  test r s = true <->
  exists pre suf n' s',
    list_ascii_of_string s = pre ++ suf /\ Matches r (List.length pre) suf n' s'.
Proof.
  unfold test. split.
  - destruct (search r 0 (list_ascii_of_string s)) as [[j st]|] eqn:Hs; [|discriminate].
    intros _. apply search_Some in Hs as (pre & suf & Heq & -> & Hm & _).
    apply m_sound in Hm as (st' & Hm & _). simpl in Hm. eauto 6.
  - intros (pre & suf & n' & s' & Heq & Hm).
    destruct (search r 0 (list_ascii_of_string s)) as [[j st]|] eqn:Hs; [reflexivity|].
    exfalso. rewrite search_None in Hs. specialize (Hs pre suf Heq). simpl in Hs.
    revert Hs. apply (m_complete Hm). discriminate.
Qed.

End RegexMore.

Import RegexMore.

Module RegexShift.

Lemma plus_cls_ext p s : forall n k k',
  (forall n' s', k n' s' = k' n' s') -> plus_cls p n s k = plus_cls p n s k'.
Proof.
  induction s as [|c s IH]; intros n k k' H; simpl; [reflexivity|].
  destruct (p c); [|reflexivity]. now rewrite (IH (S n) k k' H), H.
Qed.

Lemma m_ext r : forall st k k', (forall st', k st' = k' st') -> m r st k = m r st k'.
Proof.
  induction r as [|c|p|r1 IH1 r2 IH2|r1 IH1 r2 IH2|r IH|p|i r IH| |];
    intros st k k' H; simpl.
  - apply H.
  - destruct (rest st); [reflexivity|]. destruct (Ascii.eqb c a); [apply H|reflexivity].
  - destruct (rest st); [reflexivity|]. destruct (p a); [apply H|reflexivity].
  - apply IH1. intros st'. now apply IH2.
  - now rewrite (IH1 st k k' H), (IH2 st k k' H).
  - now rewrite (IH st k k' H), H.
  - apply plus_cls_ext. intros n' s'. apply H.
  - apply IH. intros st'. apply H.
  - destruct (Nat.eqb (pos st) 0); [apply H|reflexivity].
  - destruct (rest st); [apply H|reflexivity].
Qed.

Lemma plus_cls_option_map (f : mstate -> mstate) p s : forall n k,
  plus_cls p n s (fun n' s' => option_map f (k n' s')) =
  option_map f (plus_cls p n s k).
Proof.
  induction s as [|c s IH]; intros n k; simpl; [reflexivity|].
  destruct (p c); [|reflexivity]. rewrite IH.
  now destruct (plus_cls p (S n) s k).
Qed.

(** What the continuation makes of the final state has no part in the
    choices of the matcher. *)
Lemma m_option_map (f : mstate -> mstate) r : forall st k,
  m r st (fun st' => option_map f (k st')) = option_map f (m r st k).
Proof.
  induction r as [|c|p|r1 IH1 r2 IH2|r1 IH1 r2 IH2|r IH|p|i r IH| |];
    intros st k; simpl; try reflexivity.
  - destruct (rest st); [reflexivity|]. now destruct (Ascii.eqb c a).
  - destruct (rest st); [reflexivity|]. now destruct (p a).
  - rewrite <- IH1. apply m_ext. intros st'. apply IH2.
  - rewrite IH1, IH2. now destruct (m r1 st k).
  - rewrite IH. now destruct (m r st k).
  - apply (plus_cls_option_map f p (rest st) (pos st)
             (fun n s' => k (MState n s' (caps st)))).
  - apply (IH st (fun st' => k (MState (pos st') (rest st')
                                       ((i, firstn (pos st' - pos st) (rest st)) :: caps st')))).
  - now destruct (Nat.eqb (pos st) 0).
  - now destruct (rest st).
Qed.

Lemma plus_cls_shift d p s : forall n k,
  plus_cls p (n + d) s k = plus_cls p n s (fun n' s' => k (n' + d)%nat s').
Proof.
  induction s as [|c s IH]; intros n k; simpl; [reflexivity|].
  destruct (p c); [|reflexivity].
  change (S (n + d)) with (S n + d)%nat. now rewrite IH.
Qed.

(** An expression without [^] matches the same way wherever the subject
    starts. *)
Lemma m_shift d r : unanchored r = true -> forall st k,
  m r (shift d st) k = m r st (fun st' => k (shift d st')).
Proof.
  induction r as [|c|p|r1 IH1 r2 IH2|r1 IH1 r2 IH2|r IH|p|i r IH| |];
    intros Hr [n s cs] k; cbn [m unanchored] in *.
  - reflexivity.
  - destruct s as [|a s]; [reflexivity|]. cbn. now destruct (Ascii.eqb c a).
  - destruct s as [|a s]; [reflexivity|]. cbn. now destruct (p a).
  - apply andb_true_iff in Hr as [H1 H2]. rewrite IH1 by exact H1.
    apply m_ext. intros st'. now apply IH2.
  - apply andb_true_iff in Hr as [H1 H2]. now rewrite IH1, IH2.
  - now rewrite IH.
  - apply (plus_cls_shift d p s n (fun n' s' => k (MState n' s' cs))).
  - rewrite IH by exact Hr. apply m_ext. intros st'. unfold shift. cbn [pos rest caps].
    now replace (pos st' + d - (n + d))%nat with (pos st' - n)%nat by lia.
  - discriminate.
  - now destruct s.
Qed.

Lemma search_shift d r : unanchored r = true -> forall s i,
  search r (i + d) s =
  option_map (fun js => (fst js + d, shift d (snd js))%nat) (search r i s).
Proof.
  intros Hr. induction s as [|c s IH]; intros i; cbn [search];
    change (MState (i + d) ?s []) with (shift d (MState i s []));
    rewrite (@m_shift d r Hr), (@m_option_map (shift d) r _ Some).
  - now destruct (m r (MState i [] []) Some).
  - destruct (m r (MState i (c :: s) []) Some); [reflexivity|].
    change (S (i + d)) with (S i + d)%nat. apply IH.
Qed.

(** The part of the subject where no match can start is passed over. *)
Lemma search_skip r : forall pre s i,
  (forall pre' suf', pre = pre' ++ suf' -> suf' <> [] ->
                     m r (MState (i + List.length pre') (suf' ++ s) []) Some = None) ->
  search r i (pre ++ s) = search r (i + List.length pre) s.
Proof.
  induction pre as [|c pre IH]; intros s i H.
  - simpl. now rewrite Nat.add_0_r.
  - cbn [app search].
    pose proof (H [] (c :: pre) eq_refl) as H0. simpl in H0. rewrite Nat.add_0_r in H0.
    rewrite H0 by discriminate. rewrite IH.
    + simpl. now replace (i + S (List.length pre))%nat with (S i + List.length pre)%nat by lia.
    + intros pre' suf' -> Hne. specialize (H (c :: pre') suf' eq_refl Hne). simpl in H.
      now replace (S i + List.length pre')%nat with (i + S (List.length pre'))%nat by lia.
Qed.

End RegexShift.

Import RegexShift.

(** *** More on route naming *)

Ltac invert_captures :=
  repeat match goal with
         | H : Captures (Cat _ _) _ _ |- _ => inversion H; subst; clear H
         | H : Captures (Lit _) _ _ |- _ => inversion H; subst; clear H
         | H : Captures (Grp _ _) _ _ |- _ => inversion H; subst; clear H
         | H : Captures (Alt _ _) _ _ |- _ => inversion H; subst; clear H
         | H : Captures (Opt _) _ _ |- _ => inversion H; subst; clear H
         | H : Captures Eos _ _ |- _ => inversion H; subst; clear H
         | H : Captures Bos _ _ |- _ => inversion H; subst; clear H
         | H : Captures (PlusCls _) _ _ |- _ => inversion H; subst; clear H
         end.

Lemma firstn_run (A : Type) (n : nat) (w s : list A) :
  firstn (n + List.length w - n) (w ++ s) = w.
Proof.
  replace (n + List.length w - n)%nat with (List.length w + 0)%nat by lia.
  rewrite firstn_app_2. simpl. apply app_nil_r.
Qed.

Lemma localeRegex_captures i s st :
  Captures localeRegex (MState i s []) st ->
  exists w e, s = "."%char :: w ++ "."%char :: e /\
              forallb letter_or_hyphen w = true /\ In e localeExtensions /\
              lookup_cap 1 (caps st) = match w with [] => None | _ :: _ => Some w end.
Proof.
  unfold localeRegex. cbn [lits]. intros H. invert_captures.
  all: cbn [pos rest caps lookup_cap Nat.eqb] in *; subst.
  all: try (rewrite firstn_run).
  all: try (match goal with
            | Hne : ?w <> [] |- _ =>
                exists w; eexists; split; [reflexivity|]; split; [assumption|];
                split; [unfold localeExtensions; simpl; tauto|];
                destruct w; [congruence | reflexivity]
            end).
  all: exists []; eexists; split; [reflexivity|]; split; [reflexivity|];
    split; [unfold localeExtensions; simpl; tauto | reflexivity].
Qed.

Lemma string_of_list_ascii_app (a b : list ascii) :
  string_of_list_ascii (a ++ b) = string_of_list_ascii a +++ string_of_list_ascii b.
Proof. induction a as [|c a IH]; simpl; [reflexivity | now rewrite IH]. Qed.

Lemma string_eq_of_list (s : string) (l : list ascii) :
  list_ascii_of_string s = l -> s = string_of_list_ascii l.
Proof. intros <-. now rewrite string_of_list_ascii_of_string. Qed.

Lemma In_localeExtensions e :
  In e localeExtensions -> In (string_of_list_ascii e) localeRegexExtensions.
Proof.
  unfold localeExtensions. intros H. apply in_map_iff in H as (x & <- & Hx).
  now rewrite string_of_list_ascii_of_string.
Qed.

(** What [getLocaleFromFilename] finds, for any name. *)
Lemma getLocaleFromFilename_inv (name : string) :
  match getLocaleFromFilename name with
  | Some locale =>
      isLocaleSegment locale = true /\
      exists base ext, In ext localeRegexExtensions /\
                       name = base +++ "." +++ locale +++ "." +++ ext
  | None => True
  end.
Proof.
  unfold getLocaleFromFilename, exec.
  destruct (search localeRegex 0 (list_ascii_of_string name)) as [[j st]|] eqn:Hs;
    [|exact I].
  apply search_Some in Hs as (pre & suf & Heq & _ & Hm & _).
  apply m_captures in Hm as (st' & Hc & [= <-]).
  apply localeRegex_captures in Hc as (w & e & -> & Hw & He & Hcap).
  rewrite Hcap. destruct w as [|c w]; [exact I|]. cbn [option_map]. split.
  - unfold isLocaleSegment. rewrite list_ascii_of_string_of_list_ascii, Hw. reflexivity.
  - exists (string_of_list_ascii pre), (string_of_list_ascii e).
    split; [now apply In_localeExtensions|].
    apply string_eq_of_list in Heq. rewrite Heq.
    change ("."%char :: (c :: w) ++ "."%char :: e)
      with (["."%char] ++ (c :: w) ++ ["."%char] ++ e).
    now rewrite !string_of_list_ascii_app.
Qed.

(** X8. [getLocaleFromFilename] returns a locale for the names that
    end with a dot, a non-empty run of letters and hyphens, a dot and one of
    [md], [mdx], [js], [jsx], [json], and for no other name; the locale is
    that run, whatever comes before it.  A name with a single dot, such as
    [index.md], has no locale. *)
Theorem getLocaleFromFilename_iff (name locale : string) :
  (getLocaleFromFilename name = Some locale <->
   isLocaleSegment locale = true /\
   exists base ext, In ext localeRegexExtensions /\
                    name = base +++ "." +++ locale +++ "." +++ ext) /\
  (forall base ext, hasNoDot base = true -> hasNoDot ext = true ->
                    getLocaleFromFilename (base +++ "." +++ ext) = None).
Proof.
  split; [split|].
  - intros H. pose proof (getLocaleFromFilename_inv name) as Hinv.
    now rewrite H in Hinv.
  - intros (Hloc & base & ext & Hext & ->).
    now apply getLocaleFromFilename_localized.
  - apply getLocaleFromFilename_no_locale.
Qed.

Lemma localeRegex_no_slash n s n' s' :
  Matches localeRegex n s n' s' -> ~ In "/"%char s.
Proof.
  intros H. apply localeRegex_shape in H as (w & e & -> & Hw & He & _).
  intros [Hin|Hin]; [discriminate|]. apply in_app_iff in Hin as [Hin|[Hin|Hin]].
  - rewrite forallb_forall in Hw. specialize (Hw _ Hin). discriminate.
  - discriminate.
  - unfold localeExtensions in He. simpl in He.
    repeat (destruct He as [<-|He];
            [simpl in Hin; repeat (destruct Hin as [Hin|Hin]; [discriminate|]); exact Hin|]).
    exact He.
Qed.

Lemma search_localeRegex_directory (dir name : list ascii) :
  search localeRegex 0 (dir ++ "/"%char :: name) =
  option_map (fun js => (fst js + S (List.length dir), shift (S (List.length dir)) (snd js))%nat)
             (search localeRegex 0 name).
Proof.
  change (dir ++ "/"%char :: name) with (dir ++ ["/"%char] ++ name).
  rewrite app_assoc, search_skip.
  - rewrite length_app. simpl.
    replace (List.length dir + 1)%nat with (0 + S (List.length dir))%nat by lia.
    now apply search_shift.
  - intros pre' suf' Heq Hne.
    destruct (m localeRegex (MState (0 + List.length pre') (suf' ++ name) []) Some)
      as [st|] eqn:Hm; [exfalso|reflexivity].
    apply m_sound in Hm as (st' & Hm & _). simpl in Hm.
    apply localeRegex_no_slash in Hm. apply Hm, in_app_iff. left.
    destruct suf' as [|c suf'] using rev_ind; [congruence|].
    rewrite app_assoc in Heq. apply app_inj_tail in Heq as [_ <-].
    apply in_app_iff. right. now left.
Qed.

(** X9. The locale of a path is the locale of its file name: the
    directories of a resource path have no part in what
    [getLocaleFromFilename] returns, so [getPageMap], which reads the
    locale off the whole path, and [loader], which reads it off the file
    name, agree. *)
Theorem getLocaleFromFilename_path (dir name : string) :
  getLocaleFromFilename (dir +++ "/" +++ name) = getLocaleFromFilename name /\
  activeRouteLocale (dir +++ "/" +++ name) = getLocaleFromFilename name.
Proof.
  assert (H : getLocaleFromFilename (dir +++ "/" +++ name) = getLocaleFromFilename name).
  { unfold getLocaleFromFilename, exec. rewrite !list_ascii_of_string_append.
    change (list_ascii_of_string "/") with ["/"%char]. cbn [app].
    rewrite search_localeRegex_directory.
    now destruct (search localeRegex 0 (list_ascii_of_string name)) as [[j st]|]. }
  split; exact H.
Qed.

Lemma prefixWhile_all p (s : list ascii) : forallb p (prefixWhile p s) = true.
Proof.
  induction s as [|c s IH]; simpl; [reflexivity|].
  destruct (p c) eqn:Hc; simpl; [now rewrite Hc|reflexivity].
Qed.

Lemma prefixWhile_id p (s : list ascii) : forallb p s = true -> prefixWhile p s = s.
Proof.
  induction s as [|c s IH]; simpl; [reflexivity|].
  intros H. apply andb_true_iff in H as [Hc Hs]. now rewrite Hc, IH.
Qed.

Lemma prefixWhile_app p (w s : list ascii) :
  forallb p w = true -> match s with c :: _ => p c = false | [] => True end ->
  prefixWhile p (w ++ s) = w.
Proof.
  induction w as [|c w IH]; simpl; intros Hw Hs.
  - destruct s as [|c s]; [reflexivity|]. simpl. now rewrite Hs.
  - apply andb_true_iff in Hw as [Hc Hw]. now rewrite Hc, IH.
Qed.

Lemma plus_cls_prefixWhile p (k : nat -> list ascii -> option mstate) :
  (forall n s, k n s <> None) ->
  forall s n,
    plus_cls p n s k =
    match prefixWhile p s with
    | [] => None
    | w => k (n + List.length w)%nat (skipn (List.length w) s)
    end.
Proof.
  intros Hk. induction s as [|c s IH]; intros n; simpl; [reflexivity|].
  destruct (p c); [|reflexivity]. rewrite IH.
  destruct (prefixWhile p s) as [|c' w]; simpl.
  - now replace (n + 1)%nat with (S n) by lia.
  - replace (n + S (S (List.length w)))%nat with (S (n + S (List.length w))) by lia.
    destruct (k _ _) eqn:Hv; [reflexivity|]. now apply Hk in Hv.
Qed.

Lemma search_Bos_later r : forall s i, (0 < i)%nat -> search (Cat Bos r) i s = None.
Proof.
  induction s as [|c s IH]; intros i Hi; cbn [search m pos].
  - destruct i; [lia|reflexivity].
  - destruct i; [lia|]. cbn [Nat.eqb]. apply IH. lia.
Qed.

Lemma search_Bos r (s : list ascii) :
  search (Cat Bos r) 0 s =
  match m r (MState 0 s []) Some with
  | Some st => Some (0%nat, st)
  | None => None
  end.
Proof.
  destruct s as [|c s]; cbn [search m pos Nat.eqb].
  - now destruct (m r (MState 0 [] []) Some).
  - destruct (m r (MState 0 (c :: s) []) Some); [reflexivity|].
    apply search_Bos_later. lia.
Qed.

Lemma firstn_prefixWhile p (s : list ascii) :
  firstn (List.length (prefixWhile p s)) s = prefixWhile p s.
Proof.
  induction s as [|c s IH]; simpl; [reflexivity|].
  destruct (p c); simpl; [now rewrite IH|reflexivity].
Qed.

Lemma removeExtension_prefixWhile (name : string) :
  removeExtension name =
  string_of_list_ascii (prefixWhile not_dot (list_ascii_of_string name)).
Proof.
  unfold removeExtension, exec, removeExtensionRegex. rewrite search_Bos.
  cbn [m pos rest caps].
  rewrite (@plus_cls_prefixWhile not_dot
             (fun n s' => Some (MState n s' [(1%nat, firstn (n - 0) (list_ascii_of_string name))])))
    by discriminate.
  destruct (prefixWhile not_dot (list_ascii_of_string name)) as [|c w] eqn:Hw;
    [reflexivity|].
  cbn [caps lookup_cap Nat.eqb option_map]. f_equal.
  rewrite Nat.sub_0_r, Nat.add_0_l, <- Hw. apply firstn_prefixWhile.
Qed.

Lemma removeExtension_base (base rest : string) :
  hasNoDot base = true -> removeExtension (base +++ "." +++ rest) = base.
Proof.
  intros Hb. rewrite removeExtension_prefixWhile.
  rewrite !list_ascii_of_string_append. cbn [list_ascii_of_string app].
  rewrite prefixWhile_app; [apply string_of_list_ascii_of_string | exact Hb | reflexivity].
Qed.

Lemma removeExtension_hasNoDot (name : string) : hasNoDot (removeExtension name) = true.
Proof.
  rewrite removeExtension_prefixWhile. unfold hasNoDot.
  rewrite list_ascii_of_string_of_list_ascii. apply prefixWhile_all.
Qed.

(** X10. [removeExtension] gives the name up to its first dot, the whole
    name when it has no dot, and nothing for a name that starts with a dot;
    the result has no dot, and removing the extension again changes
    nothing. *)
Theorem removeExtension_first_dot (name : string) :
  removeExtension name =
    string_of_list_ascii (prefixWhile not_dot (list_ascii_of_string name)) /\
  (forall base rest, hasNoDot base = true ->
                     removeExtension (base +++ "." +++ rest) = base) /\
  (hasNoDot name = true -> removeExtension name = name) /\
  hasNoDot (removeExtension name) = true /\
  removeExtension (removeExtension name) = removeExtension name.
Proof.
  split; [apply removeExtension_prefixWhile|]. split; [|split; [|split]].
  - apply removeExtension_base.
  - intros Hn. rewrite removeExtension_prefixWhile, prefixWhile_id by exact Hn.
    apply string_of_list_ascii_of_string.
  - apply removeExtension_hasNoDot.
  - rewrite !removeExtension_prefixWhile, list_ascii_of_string_of_list_ascii.
    now rewrite (prefixWhile_id _ _ (prefixWhile_all _ _)).
Qed.

Lemma replace_indexRegex (s : string) :
  replace indexRegex "" s = if String.eqb s "index" then "" else s.
Proof.
  destruct (String.eqb_spec s "index") as [->|Hne]; [reflexivity|].
  unfold replace, indexRegex. rewrite search_Bos.
  destruct (m _ _ Some) as [st|] eqn:Hm; [exfalso|reflexivity].
  apply m_sound in Hm as (st' & Hm & _). cbn [pos rest lits] in Hm.
  apply Hne. rewrite <- (string_of_list_ascii_of_string s).
  remember (list_ascii_of_string s) as l eqn:Hl. clear Hl.
  invert_matches. reflexivity.
Qed.

(** X11. The route of an entry is read off its name up to the first dot:
    an [index] entry takes the route of its directory, any other entry the
    route of its directory followed by that name.  So the variants of one
    page, whatever their locales and extensions, share one name and one
    route. *)
Theorem fileRouteOf_first_dot (route : string) :
  (forall name,
     fileRouteOf route name =
     if String.eqb (removeExtension name) "index" then route
     else path_join route (removeExtension name)) /\
  (forall base rest rest',
     hasNoDot base = true ->
     removeExtension (base +++ "." +++ rest) = removeExtension (base +++ "." +++ rest') /\
     fileRouteOf route (base +++ "." +++ rest) = fileRouteOf route (base +++ "." +++ rest')) /\
  (forall rest, fileRouteOf route ("index." +++ rest) = route) /\
  (forall rest, fileRouteOf route ("." +++ rest) = route).
Proof.
  assert (H : forall name,
             fileRouteOf route name =
             if String.eqb (removeExtension name) "index" then route
             else path_join route (removeExtension name)).
  { intros name. unfold fileRouteOf. rewrite replace_indexRegex.
    now destruct (String.eqb (removeExtension name) "index"). }
  assert (Hb : forall base rest, hasNoDot base = true ->
                                 removeExtension (base +++ "." +++ rest) = base)
    by apply removeExtension_base.
  split; [exact H|]. split; [|split].
  - intros base rest rest' Hd. now rewrite !H, !Hb.
  - intros rest. rewrite H. change ("index." +++ rest) with ("index" +++ "." +++ rest).
    now rewrite Hb.
  - intros rest. rewrite H. change ("." +++ rest) with ("" +++ "." +++ rest).
    now rewrite Hb.
Qed.

Lemma test_true_m r (s : string) :
  test r s = true <->
  exists pre suf, list_ascii_of_string s = pre ++ suf /\
                  m r (MState (List.length pre) suf []) Some <> None.
Proof.
  unfold test. split.
  - destruct (search r 0 (list_ascii_of_string s)) as [[j st]|] eqn:Hs; [|discriminate].
    intros _. apply search_Some in Hs as (pre & suf & Heq & -> & Hm & _).
    exists pre, suf. split; [exact Heq|]. simpl in Hm. now rewrite Hm.
  - intros (pre & suf & Heq & Hm).
    destruct (search r 0 (list_ascii_of_string s)) as [[j st]|] eqn:Hs; [reflexivity|].
    rewrite search_None in Hs. specialize (Hs pre suf Heq). simpl in Hs. contradiction.
Qed.

Lemma ends_with_extension (exts : list string) (r : regex) :
  (forall n s n' s', Matches r n s n' s' ->
                     exists e, In e exts /\ s = "."%char :: list_ascii_of_string e) ->
  (forall e n, In e exts ->
               m r (MState n ("."%char :: list_ascii_of_string e) []) Some <> None) ->
  forall name,
    test r name = true <->
    exists base ext, In ext exts /\ name = base +++ "." +++ ext.
Proof.
  intros Hshape Hfind name. rewrite test_true_m. split.
  - intros (pre & suf & Heq & Hm).
    destruct (m r _ Some) as [st|] eqn:Hst; [|congruence].
    apply m_sound in Hst as (st' & Hst & _). simpl in Hst.
    apply Hshape in Hst as (e & He & ->).
    exists (string_of_list_ascii pre), e. split; [exact He|].
    apply string_eq_of_list in Heq. rewrite Heq.
    change ("."%char :: list_ascii_of_string e) with (["."%char] ++ list_ascii_of_string e).
    now rewrite !string_of_list_ascii_app, string_of_list_ascii_of_string.
  - intros (base & ext & He & ->).
    exists (list_ascii_of_string base), ("."%char :: list_ascii_of_string ext).
    split; [now rewrite !list_ascii_of_string_append | now apply Hfind].
Qed.

(** X12. A name is a content file when it ends with a dot and one of
    [md], [mdx], [js], [jsx], [ts], [tsx], and only then; it is read for
    front matter when it ends with [.md] or [.mdx], and only then: whatever
    is read for front matter is a content file. *)
Theorem extension_suffixes (name : string) :
  (test extension name = true <->
   exists base ext, In ext contentExtensions /\ name = base +++ "." +++ ext) /\
  (test mdxExtension name = true <->
   exists base ext, In ext markdownExtensions /\ name = base +++ "." +++ ext) /\
  (test mdxExtension name = true -> test extension name = true).
Proof.
  assert (Hext : test extension name = true <->
                 exists base ext, In ext contentExtensions /\ name = base +++ "." +++ ext).
  { apply ends_with_extension.
    - unfold extension. cbn [lits]. intros n s n' s' H. invert_matches;
        match goal with
        | |- exists e, _ /\ (_ :: ?t) = _ => exists (string_of_list_ascii t)
        end; (split; [|reflexivity]); unfold contentExtensions; simpl; tauto.
    - intros e n He. unfold contentExtensions in He. simpl in He.
      repeat (destruct He as [<-|He]; [cbn; discriminate|]). destruct He. }
  assert (Hmdx : test mdxExtension name = true <->
                 exists base ext, In ext markdownExtensions /\ name = base +++ "." +++ ext).
  { apply ends_with_extension.
    - unfold mdxExtension. cbn [lits]. intros n s n' s' H. invert_matches;
        match goal with
        | |- exists e, _ /\ (_ :: ?t) = _ => exists (string_of_list_ascii t)
        end; (split; [|reflexivity]); unfold markdownExtensions; simpl; tauto.
    - intros e n He. unfold markdownExtensions in He. simpl in He.
      repeat (destruct He as [<-|He]; [cbn; discriminate|]). destruct He. }
  split; [exact Hext|]. split; [exact Hmdx|].
  intros H. apply Hext. apply Hmdx in H as (base & ext & He & ->).
  exists base, ext. split; [|reflexivity].
  unfold markdownExtensions in He. unfold contentExtensions. simpl in *. tauto.
Qed.

Lemma metaExtension_shape n s n' s' :
  Matches metaExtension n s n' s' ->
  exists dot loc,
    s = list_ascii_of_string "meta" ++ dot ++ loc ++ list_ascii_of_string ".json" ++ s' /\
    (dot = [] \/ dot = ["."%char]) /\ forallb letter_or_hyphen loc = true.
Proof.
  unfold metaExtension. cbn [lits]. intros H. invert_matches.
  all: first
    [ match goal with
      | Hw : forallb letter_or_hyphen ?w = true |- _ =>
          first [ exists ["."%char], w; split; [reflexivity|]; split; [now right|exact Hw]
                | exists [], w; split; [reflexivity|]; split; [now left|exact Hw] ]
      end
    | exists ["."%char], []; split; [reflexivity|]; split; [now right|reflexivity]
    | exists [], []; split; [reflexivity|]; split; [now left|reflexivity] ].
Qed.

Lemma metaExtension_matches n dot loc post :
  dot = [] \/ dot = ["."%char] -> forallb letter_or_hyphen loc = true ->
  exists n',
    Matches metaExtension n
            (list_ascii_of_string "meta" ++ dot ++ loc ++ list_ascii_of_string ".json" ++ post)
            n' post.
Proof.
  intros Hdot Hloc. unfold metaExtension. cbn [lits list_ascii_of_string app].
  destruct Hdot as [->| ->]; destruct loc as [|c loc]; cbn [app]; eexists.
  all: eapply M_Cat; [repeat (eapply M_Cat; [apply M_Lit|]); apply M_Lit|].
  - eapply M_Cat; [apply M_OptNone|]. eapply M_Cat; [apply M_OptNone|].
    repeat (eapply M_Cat; [apply M_Lit|]); apply M_Lit.
  - eapply M_Cat; [apply M_OptNone|].
    eapply M_Cat;
      [apply M_OptSome, M_Grp, (@M_Plus letter_or_hyphen (c :: loc));
       [discriminate | exact Hloc]|].
    repeat (eapply M_Cat; [apply M_Lit|]); apply M_Lit.
  - eapply M_Cat; [apply M_OptSome, M_Lit|]. eapply M_Cat; [apply M_OptNone|].
    repeat (eapply M_Cat; [apply M_Lit|]); apply M_Lit.
  - eapply M_Cat; [apply M_OptSome, M_Lit|].
    eapply M_Cat;
      [apply M_OptSome, M_Grp, (@M_Plus letter_or_hyphen (c :: loc));
       [discriminate | exact Hloc]|].
    repeat (eapply M_Cat; [apply M_Lit|]); apply M_Lit.
Qed.

Lemma metaExtension_locale (loc post : list ascii) :
  loc <> [] -> forallb letter_or_hyphen loc = true ->
  exists st,
    m metaExtension
      (MState 0 (list_ascii_of_string "meta." ++ loc ++ list_ascii_of_string ".json" ++ post) [])
      Some = Some st /\
    lookup_cap 1 (caps st) = Some loc.
Proof.
  intros Hne Hloc.
  unfold metaExtension. cbn [lits m rest pos caps list_ascii_of_string app].
  simpl Ascii.eqb. cbv iota.
  match goal with
  | |- exists st, match match plus_cls ?p ?n (?u ++ ?t) ?k with _ => _ end with _ => _ end = _ /\ _ =>
      set (K := k);
      eassert (HK : K (n + List.length u)%nat t = Some _)
        by (subst K; cbn -[firstn Nat.add Nat.sub]; rewrite firstn_run; reflexivity);
      rewrite (@plus_cls_greedy p n u t K _ Hne Hloc eq_refl HK)
  end.
  eexists. split; reflexivity.
Qed.

(** X13. The meta expression is anchored at neither end: a name is
    taken for a meta file when it holds, anywhere, [meta], an optional dot,
    letters and hyphens if any, and [.json]; so [metadata.json] or
    [meta.en.json.bak] are meta files too.  For a name that starts with
    [meta.], a run of letters and hyphens and [.json], that run is the
    locale of the meta file; plain [meta.json] has none. *)
Theorem metaExtension_unanchored :
  (forall name,
     test metaExtension name = true <->
     exists pre dot loc post,
       name = pre +++ "meta" +++ dot +++ loc +++ ".json" +++ post /\
       (dot = "" \/ dot = ".") /\
       forallb letter_or_hyphen (list_ascii_of_string loc) = true) /\
  (forall loc post,
     isLocaleSegment loc = true ->
     metaLocale ("meta." +++ loc +++ ".json" +++ post) = Some loc) /\
  metaLocale "meta.json" = None.
Proof.
  split; [|split; [|reflexivity]].
  - intros name. rewrite test_true. split.
    + intros (pre & suf & n' & s' & Heq & Hm).
      apply metaExtension_shape in Hm as (dot & loc & -> & Hdot & Hloc).
      exists (string_of_list_ascii pre), (string_of_list_ascii dot),
             (string_of_list_ascii loc), (string_of_list_ascii s').
      split; [|split].
      * apply string_eq_of_list in Heq. rewrite Heq.
        now rewrite !string_of_list_ascii_app, !string_of_list_ascii_of_string.
      * destruct Hdot as [->| ->]; [now left | now right].
      * now rewrite list_ascii_of_string_of_list_ascii.
    + intros (pre & dot & loc & post & -> & Hdot & Hloc).
      destruct (@metaExtension_matches (List.length (list_ascii_of_string pre))
                  (list_ascii_of_string dot) (list_ascii_of_string loc)
                  (list_ascii_of_string post)) as (n' & Hm);
        [destruct Hdot as [->| ->]; [now left | now right] | exact Hloc |].
      exists (list_ascii_of_string pre). eexists. exists n', (list_ascii_of_string post).
      split; [|exact Hm]. now rewrite !list_ascii_of_string_append.
  - intros loc post Hloc. unfold isLocaleSegment in Hloc.
    apply andb_true_iff in Hloc as [Hne Hw]. apply negb_true_iff in Hne.
    destruct (@metaExtension_locale (list_ascii_of_string loc) (list_ascii_of_string post))
      as (st & Hm & Hcap); [|exact Hw|].
    { intros H. destruct loc; [discriminate Hne | discriminate H]. }
    unfold metaLocale, exec. rewrite !list_ascii_of_string_append.
    change (list_ascii_of_string "meta.") with (list_ascii_of_string "meta." ++ []).
    rewrite <- app_assoc. cbn [app list_ascii_of_string search].
    cbn [app list_ascii_of_string] in Hm. rewrite Hm, Hcap. cbn [option_map].
    now rewrite string_of_list_ascii_of_string.
Qed.

(** *** More on the tree builder *)

Section TreeMore.
Variable JSON_parse : string -> json + string.
Variable getProperty : json -> string -> option json.
Variable grayMatter : string -> mapping.
Variable readDone : string -> nat.
Variable currentResourcePath : string.

Local Abbreviation getFiles' := (getFiles JSON_parse getProperty grayMatter readDone currentResourcePath).
Local Abbreviation entryItem' := (entryItem JSON_parse getProperty grayMatter readDone currentResourcePath).
Local Abbreviation visitFile' := (visitFile JSON_parse grayMatter readDone currentResourcePath).

(** The item of a file, case by case. *)
Lemma entryItem_FileEnt dir route name content :
  entryItem' dir route (FileEnt name content) =
  if test extension name then
    Some (Page (removeExtension name) (fileRouteOf route name) (getLocaleFromFilename name)
               (if test mdxExtension name
                then if negb (Nat.eqb (List.length (grayMatter content)) 0)
                     then Some (grayMatter content) else None
                else None))
  else if test metaExtension name then
    Some (MetaFile (fst (parseJsonFile JSON_parse content (path_resolve dir name)))
                   (metaLocale name))
  else None.
Proof.
  cbn [entryItem]. unfold visitFile.
  destruct (test extension name).
  - destruct (test mdxExtension name); [|reflexivity].
    now destruct (negb (Nat.eqb (List.length (grayMatter content)) 0)).
  - destruct (test metaExtension name); [|reflexivity].
    now destruct (parseJsonFile JSON_parse content (path_resolve dir name)).
Qed.

Lemma entryItem_DirEnt dir route name entries :
  entryItem' dir route (DirEnt name entries) =
  let children := present (map (entryItem' (path_resolve dir name) (fileRouteOf route name))
                               entries) in
  if Nat.eqb (List.length children) 0 then None
  else Some (Directory name (fileRouteOf route name) children).
Proof. cbn [entryItem]. now rewrite getFiles_pageMap. Qed.

Lemma present_Forall (P : PageMapNode -> Prop) (l : list (option PageMapNode)) :
  Forall (fun o => match o with Some p => P p | None => True end) l ->
  Forall P (present l).
Proof.
  induction 1 as [|[p|] l Hp _ IH]; simpl; [constructor | now constructor | exact IH].
Qed.

End TreeMore.

Lemma entryItem_independent J P g rd crp rd' crp' (f : Dirent) :
  forall dir route, entryItem J P g rd crp dir route f = entryItem J P g rd' crp' dir route f.
Proof.
  induction f as [name content|name entries IH] using Dirent_entries_ind; intros dir route.
  - now rewrite !entryItem_FileEnt.
  - rewrite !entryItem_DirEnt. cbv zeta.
    assert (Heq : map (entryItem J P g rd crp (path_resolve dir name) (fileRouteOf route name))
                      entries =
                  map (entryItem J P g rd' crp' (path_resolve dir name) (fileRouteOf route name))
                      entries).
    { apply map_ext_in. intros f Hf. rewrite Forall_forall in IH. now apply IH. }
    now rewrite Heq.
Qed.

(** X14. The page map does not depend on the resource being loaded, nor
    on the order in which the reads complete: [getPageMap] gives the same
    tree for every page of the site; only the active route and its title
    differ. *)
Theorem getPageMap_same_tree
        (JSON_parse : string -> json + string)
        (getProperty : json -> string -> option json) (grayMatter : string -> mapping)
        (readDone readDone' : string -> nat) (currentResourcePath currentResourcePath' : string)
        (pagesDir : string) (pages : list Dirent) :
  fst (fst (getPageMap JSON_parse getProperty grayMatter readDone currentResourcePath pagesDir pages)) =
  fst (fst (getPageMap JSON_parse getProperty grayMatter readDone' currentResourcePath' pagesDir pages)).
Proof.
  assert (H : forall rd crp,
             fst (fst (getPageMap JSON_parse getProperty grayMatter rd crp pagesDir pages)) =
             fst (getFiles JSON_parse getProperty grayMatter rd crp pagesDir "/" pages initialState)).
  { intros rd crp. unfold getPageMap. fold initialState.
    now destruct (getFiles JSON_parse getProperty grayMatter rd crp pagesDir "/" pages initialState). }
  rewrite !H, !getFiles_pageMap. f_equal. apply map_ext. intros f.
  apply entryItem_independent.
Qed.

Lemma prefix_append (a b : string) : String.prefix a (a +++ b) = true.
Proof.
  induction a as [|c a IH]; simpl; [now destruct b|].
  destruct (ascii_dec c c); [exact IH | congruence].
Qed.

Lemma prefix_refl (a : string) : String.prefix a a = true.
Proof.
  induction a as [|c a IH]; simpl; [reflexivity|].
  destruct (ascii_dec c c); [exact IH | congruence].
Qed.

Lemma prefix_trans (a b c : string) :
  String.prefix a b = true -> String.prefix b c = true -> String.prefix a c = true.
Proof.
  revert b c. induction a as [|x a IH]; intros b c; [now destruct c|].
  destruct b as [|y b]; simpl; [discriminate|].
  destruct (ascii_dec x y) as [->|]; [|discriminate].
  destruct c as [|z c]; [discriminate|]. simpl.
  destruct (ascii_dec y z) as [->|]; [|discriminate].
  destruct (ascii_dec z z); [apply IH | congruence].
Qed.

Lemma prefix_path_join (route segment : string) :
  String.prefix route (path_join route segment) = true.
Proof.
  unfold path_join. destruct (String.eqb segment ""); [apply prefix_refl|].
  destruct (ends_with_slash route); apply prefix_append.
Qed.

Lemma prefix_fileRouteOf (route name : string) :
  String.prefix route (fileRouteOf route name) = true.
Proof. apply prefix_path_join. Qed.

Lemma routeUnder_trans (a b : string) (p : PageMapNode) :
  String.prefix a b = true -> routeUnder b p = true -> routeUnder a p = true.
Proof.
  unfold routeUnder. destruct (node_route p); [|reflexivity]. apply prefix_trans.
Qed.

Section TreeRoutes.
Variable JSON_parse : string -> json + string.
Variable getProperty : json -> string -> option json.
Variable grayMatter : string -> mapping.
Variable readDone : string -> nat.
Variable currentResourcePath : string.

Local Abbreviation getFiles' := (getFiles JSON_parse getProperty grayMatter readDone currentResourcePath).
Local Abbreviation entryItem' := (entryItem JSON_parse getProperty grayMatter readDone currentResourcePath).

Lemma entryItem_routes (f : Dirent) : forall dir route,
  match entryItem' dir route f with
  | Some p => routeUnder route p && routesNested p = true
  | None => True
  end.
Proof.
  induction f as [name content|name entries IH] using Dirent_entries_ind; intros dir route.
  - rewrite entryItem_FileEnt. destruct (test extension name).
    + unfold routeUnder. cbn. now rewrite prefix_fileRouteOf.
    + now destruct (test metaExtension name).
  - rewrite entryItem_DirEnt. cbv zeta. destruct (Nat.eqb _ 0); [exact I|].
    unfold routeUnder at 1. cbn [node_route routesNested].
    rewrite prefix_fileRouteOf. cbn [andb].
    apply forallb_forall. apply Forall_forall, present_Forall.
    apply Forall_forall. intros o Ho. apply in_map_iff in Ho as (f & <- & Hf).
    rewrite Forall_forall in IH. apply (IH f Hf).
Qed.

Lemma getFiles_routes_under dir route files st :
  forallb (fun p => routeUnder route p && routesNested p) (fst (getFiles' dir route files st))
  = true.
Proof.
  rewrite getFiles_pageMap. apply forallb_forall. apply Forall_forall, present_Forall.
  apply Forall_forall. intros o Ho. apply in_map_iff in Ho as (f & <- & Hf).
  apply entryItem_routes.
Qed.

End TreeRoutes.

(** X15. Routes follow the tree: the route of every node that
    [getFiles] builds for a directory starts with the route of that
    directory, and below a directory node with the route of that node, at
    every depth; in the page map of [getPageMap] the routes at the top
    start with a slash. *)
Theorem getFiles_routes
        (JSON_parse : string -> json + string)
        (getProperty : json -> string -> option json) (grayMatter : string -> mapping)
        (readDone : string -> nat) (currentResourcePath : string)
        (dir route : string) (files : list Dirent) (st : BuildState) :
  forallb (fun p => routeUnder route p && routesNested p)
          (fst (getFiles JSON_parse getProperty grayMatter readDone currentResourcePath dir route files st))
  = true /\
  forallb (fun p => routeUnder "/" p && routesNested p)
          (fst (fst (getPageMap JSON_parse getProperty grayMatter readDone currentResourcePath dir files)))
  = true.
Proof.
  split; [apply getFiles_routes_under|].
  unfold getPageMap.
  pose proof (getFiles_routes_under JSON_parse getProperty grayMatter readDone currentResourcePath
                dir "/" files initialState) as H.
  unfold initialState in H.
  now destruct (getFiles JSON_parse getProperty grayMatter readDone currentResourcePath dir "/" files _).
Qed.

Lemma metaExtension_captures i s st :
  Captures metaExtension (MState i s []) st ->
  match lookup_cap 1 (caps st) with
  | Some w => w <> [] /\ forallb letter_or_hyphen w = true
  | None => True
  end.
Proof.
  unfold metaExtension. cbn [lits]. intros H. invert_captures.
  all: cbn [pos rest caps lookup_cap Nat.eqb] in *; subst.
  all: try exact I.
  all: rewrite ?firstn_run; auto.
Qed.

Lemma metaLocale_tag (name : string) : localeTag (metaLocale name) = true.
Proof.
  unfold metaLocale, exec.
  destruct (search metaExtension 0 (list_ascii_of_string name)) as [[j st]|] eqn:Hs;
    [|reflexivity].
  apply search_Some in Hs as (pre & suf & _ & _ & Hm & _).
  apply m_captures in Hm as (st' & Hc & [= <-]).
  apply metaExtension_captures in Hc.
  destruct (lookup_cap 1 (caps st')) as [w|]; [|reflexivity].
  destruct Hc as [Hne Hw]. cbn [option_map localeTag]. unfold isLocaleSegment.
  rewrite list_ascii_of_string_of_list_ascii, Hw.
  destruct w; [congruence | reflexivity].
Qed.

Lemma getLocaleFromFilename_tag (name : string) :
  localeTag (getLocaleFromFilename name) = true.
Proof.
  pose proof (getLocaleFromFilename_inv name) as H.
  destruct (getLocaleFromFilename name); [apply H | reflexivity].
Qed.

Lemma localeTag_tagged (l : option string) : localeTag l = true -> tagged l = true.
Proof.
  destruct l as [s|]; [|reflexivity]. unfold localeTag, isLocaleSegment. simpl.
  intros H. now apply andb_true_iff in H as [H _].
Qed.

Lemma allLeaves_impl (f g : PageMapNode -> bool) (p : PageMapNode) :
  (forall q, f q = true -> g q = true) -> allLeaves f p = true -> allLeaves g p = true.
Proof.
  intros Hfg. induction p as [name route children IH| |] using PageMapNode_children_ind;
    cbn [allLeaves]; [|apply Hfg|apply Hfg].
  rewrite !forallb_forall. intros H q Hq. rewrite Forall_forall in IH.
  apply (IH q Hq), H, Hq.
Qed.

Section TreeNames.
Variable JSON_parse : string -> json + string.
Variable getProperty : json -> string -> option json.
Variable grayMatter : string -> mapping.
Variable readDone : string -> nat.
Variable currentResourcePath : string.

Local Abbreviation getFiles' := (getFiles JSON_parse getProperty grayMatter readDone currentResourcePath).
Local Abbreviation entryItem' := (entryItem JSON_parse getProperty grayMatter readDone currentResourcePath).

Lemma entryItem_wellNamed (f : Dirent) : forall dir route,
  match entryItem' dir route f with
  | Some p => allLeaves wellNamed p = true
  | None => True
  end.
Proof.
  induction f as [name content|name entries IH] using Dirent_entries_ind; intros dir route.
  - rewrite entryItem_FileEnt. destruct (test extension name).
    + cbn [allLeaves wellNamed].
      rewrite removeExtension_hasNoDot.
      apply getLocaleFromFilename_tag.
    + destruct (test metaExtension name); [|exact I]. apply metaLocale_tag.
  - rewrite entryItem_DirEnt. cbv zeta. destruct (Nat.eqb _ 0); [exact I|].
    cbn [allLeaves]. apply forallb_forall. apply Forall_forall, present_Forall.
    apply Forall_forall. intros o Ho. apply in_map_iff in Ho as (f & <- & Hf).
    rewrite Forall_forall in IH. apply (IH f Hf).
Qed.

End TreeNames.

(** X16. In a page map that [getFiles] builds, at every depth, the name
    of a page has no dot, and the locale of a page or of a meta file is
    either missing or a non-empty run of letters and hyphens; so no node
    carries the empty string for a locale, which is what the sibling
    characterisation of the filter asks of its input. *)
Theorem getFiles_names_and_locales
        (JSON_parse : string -> json + string)
        (getProperty : json -> string -> option json) (grayMatter : string -> mapping)
        (readDone : string -> nat) (currentResourcePath : string)
        (dir route : string) (files : list Dirent) (st : BuildState) :
  forallb (allLeaves wellNamed)
          (fst (getFiles JSON_parse getProperty grayMatter readDone currentResourcePath dir route files st))
  = true /\
  forallb (allLeaves (fun p => tagged (node_locale p)))
          (fst (getFiles JSON_parse getProperty grayMatter readDone currentResourcePath dir route files st))
  = true.
Proof.
  assert (H : forallb (allLeaves wellNamed)
                (fst (getFiles JSON_parse getProperty grayMatter readDone currentResourcePath
                               dir route files st)) = true).
  { rewrite getFiles_pageMap. apply forallb_forall. apply Forall_forall, present_Forall.
    apply Forall_forall. intros o Ho. apply in_map_iff in Ho as (f & <- & Hf).
    apply entryItem_wellNamed. }
  split; [exact H|].
  rewrite forallb_forall in *. intros p Hp. apply (@allLeaves_impl wellNamed); [|now apply H].
  intros q Hq. apply localeTag_tagged.
  destruct q as [| n r l fm | meta l]; cbn in *; [reflexivity | | exact Hq].
  now apply andb_true_iff in Hq as [_ Hq].
Qed.

Lemma prefix_nonempty (a b : string) : a <> "" -> String.prefix a b = true -> b <> "".
Proof. intros Ha H ->. destruct a; [congruence | discriminate]. Qed.

Section NoActiveFile.
Variable JSON_parse : string -> json + string.
Variable getProperty : json -> string -> option json.
Variable grayMatter : string -> mapping.
Variable readDone : string -> nat.
Variable currentResourcePath : string.

Local Abbreviation getFilesIn' := (getFilesIn JSON_parse getProperty grayMatter readDone currentResourcePath).
Local Abbreviation getFiles' := (getFiles JSON_parse getProperty grayMatter readDone currentResourcePath).
Local Abbreviation visitEntries' :=
  (visitEntries JSON_parse grayMatter readDone currentResourcePath getFilesIn').
Local Abbreviation entryItem' := (entryItem JSON_parse getProperty grayMatter readDone currentResourcePath).

Local Abbreviation leavesActive :=
  (leavesActive JSON_parse getProperty grayMatter readDone currentResourcePath).

Lemma discoverActiveRoute_none dir route files active :
  forallb (noFileAt currentResourcePath dir) files = true ->
  discoverActiveRoute currentResourcePath dir route files active = active.
Proof.
  unfold discoverActiveRoute. revert active.
  induction files as [|f files IH]; intros active H; [reflexivity|].
  cbn [forallb] in H. apply andb_true_iff in H as [Hf H]. cbn [fold_left].
  destruct f as [name content|name entries]; [|now apply IH].
  cbn [noFileAt] in Hf. apply negb_true_iff in Hf. rewrite Hf. now apply IH.
Qed.

Lemma resolveTitle_none dirMeta items title :
  Forall (fun o => match o with Some p => isActive "" p = false | None => True end) items ->
  resolveTitle getProperty dirMeta "" items title = title.
Proof.
  unfold resolveTitle. destruct (isNull dirMeta); [reflexivity|].
  induction 1 as [|[p|] items Hp _ IH]; cbn [fold_left];
    [reflexivity| |exact IH].
  now rewrite Hp.
Qed.

Lemma isActive_empty route p :
  route <> "" -> routeUnder route p = true -> isActive "" p = false.
Proof.
  unfold routeUnder, isActive. destruct (node_route p) as [r|]; [|reflexivity].
  intros Hr Hp. apply String.eqb_neq. now apply (prefix_nonempty Hr).
Qed.

Lemma visitEntries_leavesActive dir route files :
  Forall leavesActive files -> route <> "" ->
  forallb (noFileAt currentResourcePath dir) files = true ->
  forall acc, activeRoute (state acc) = "" ->
    activeRoute (state (visitEntries' dir route files acc)) = "" /\
    activeRouteTitle (state (visitEntries' dir route files acc)) =
    activeRouteTitle (state acc).
Proof.
  intros Hall Hroute. induction Hall as [|f files Hf _ IH]; intros Hno acc Hacc;
    [now split|].
  cbn [forallb] in Hno. apply andb_true_iff in Hno as [Hnf Hno].
  cbn [visitEntries].
  assert (Hstep : activeRoute (state (visitEntry JSON_parse grayMatter readDone
                                        currentResourcePath getFilesIn' dir route f acc)) = "" /\
                  activeRouteTitle (state (visitEntry JSON_parse grayMatter readDone
                                             currentResourcePath getFilesIn' dir route f acc)) =
                  activeRouteTitle (state acc)).
  { destruct f as [name content|name entries].
    - cbn [visitEntry].
      destruct (visitFile JSON_parse grayMatter readDone currentResourcePath dir route
                          name content) as [[item messages] assigned].
      cbn. now split.
    - cbn [visitEntry].
      specialize (Hf (path_resolve dir name) (fileRouteOf route name) (state acc)).
      cbn [noFileAt] in Hnf.
      destruct (getFilesIn' (DirEnt name entries) (path_resolve dir name)
                            (fileRouteOf route name) (state acc)) as [children st'].
      cbn in *. apply Hf; [exact Hnf| |exact Hacc].
      apply (prefix_nonempty Hroute (prefix_fileRouteOf route name)). }
  destruct Hstep as [H1 H2].
  destruct (IH Hno _ H1) as [H3 H4]. split; [exact H3 | now rewrite H4].
Qed.

Lemma all_leavesActive d : leavesActive d.
Proof.
  induction d as [name content|name entries IH] using Dirent_entries_ind;
    intros dir route st Hno Hroute Hst.
  - now split.
  - cbn [getFilesIn]. unfold getFilesOf.
    set (acc0 := {| items := []; dirMeta := None;
                    state := {| activeRoute :=
                                  discoverActiveRoute currentResourcePath dir route entries
                                                      (activeRoute st);
                                activeRouteTitle := activeRouteTitle st;
                                console := console st;
                                thrown := thrown st |} |}).
    assert (H0 : activeRoute (state acc0) = "").
    { subst acc0. cbn. now rewrite discoverActiveRoute_none. }
    destruct (@visitEntries_leavesActive dir route entries IH Hroute Hno acc0 H0)
      as [H1 H2].
    cbn [snd activeRoute activeRouteTitle]. split; [exact H1|].
    rewrite H1, resolveTitle_none; [exact H2|].
    rewrite items_visitEntries by (apply Forall_forall; intros f _; apply all_stateless).
    subst acc0. cbn [items app]. apply Forall_forall. intros o Ho.
    apply in_map_iff in Ho as (f & <- & Hf).
    pose proof (entryItem_routes JSON_parse getProperty grayMatter readDone currentResourcePath
                                 f dir route) as Hr.
    destruct (entryItem' dir route f) as [p|]; [|exact I].
    apply andb_true_iff in Hr as [Hr _]. now apply (@isActive_empty route p Hroute).
Qed.

End NoActiveFile.

(** X17. When no content file of the pages directory is the resource
    being loaded, [getPageMap] leaves the active route and its title as
    they start, the empty string: no route of the page map is empty, so no
    node is ever taken for the active one. *)
Theorem getPageMap_no_active_file
        (JSON_parse : string -> json + string)
        (getProperty : json -> string -> option json) (grayMatter : string -> mapping)
        (readDone : string -> nat) (currentResourcePath : string)
        (pagesDir : string) (pages : list Dirent) :
  forallb (noFileAt currentResourcePath pagesDir) pages = true ->
  snd (fst (getPageMap JSON_parse getProperty grayMatter readDone currentResourcePath pagesDir pages)) = "" /\
  snd (getPageMap JSON_parse getProperty grayMatter readDone currentResourcePath pagesDir pages) = JStr "".
Proof.
  intros Hno.
  pose proof (@all_leavesActive JSON_parse getProperty grayMatter readDone currentResourcePath
                (DirEnt "" pages) pagesDir "/" initialState Hno) as H.
  cbn [getFilesIn] in H. fold (getFiles JSON_parse getProperty grayMatter readDone currentResourcePath
                                        pagesDir "/" pages initialState) in H.
  unfold getPageMap. fold initialState.
  destruct (getFiles JSON_parse getProperty grayMatter readDone currentResourcePath pagesDir "/" pages
                     initialState) as [pageMap st]. cbn in *.
  apply H; [discriminate | reflexivity].
Qed.

Lemma getPageMap_no_active_file_witness :
  forallb (noFileAt "/site/pages/missing.md" "/site/pages") aboutTitlePages = true /\
  snd (getPageMap exampleParse exampleProperty exampleMatter exampleDone "/site/pages/missing.md"
                  "/site/pages" aboutTitlePages) = JStr "".
Proof.
  assert (Hno : forallb (noFileAt "/site/pages/missing.md" "/site/pages") aboutTitlePages
                = true) by reflexivity.
  split; [exact Hno|].
  exact (proj2 (@getPageMap_no_active_file exampleParse exampleProperty exampleMatter exampleDone
                  "/site/pages/missing.md" "/site/pages" aboutTitlePages Hno)).
Defined.

(** *** More on the sibling analyzer and the dispatch module *)

Section AnalyzeMore.
Variable RegExp_test : string -> string -> string -> bool.
Variable defaultLocale : option string.
Variable accepts : string -> bool.


Lemma analyzeEntries_bound listing : forall acc d,
  (defaultIndex acc < Nat.max 1 (List.length (files acc)))%nat ->
  analyzeEntries RegExp_test defaultLocale accepts listing acc = Some d ->
  (defaultIndex d < Nat.max 1 (List.length (files d)))%nat /\
  (List.length (files acc) <= List.length (files d))%nat.
Proof.
  induction listing as [|f listing IH]; intros acc d Hacc; cbn [analyzeEntries].
  - intros [= <-]. split; [exact Hacc | lia].
  - unfold analyzeEntry.
    destruct (negb (accepts (dirent_name f))).
    + now apply IH.
    + destruct f as [name content|name entries]; [|discriminate].
      intros H. apply IH in H as [H1 H2].
      * split; [exact H1|]. cbn [files] in H2. rewrite length_app in H2.
        cbn [List.length] in H2. lia.
      * cbn [files defaultIndex]. rewrite length_app. cbn [List.length].
        destruct (strict_eq _ _); lia.
Qed.

End AnalyzeMore.


Lemma pageChain_default locale files defaultIndex : forall i,
  (forall file, In file files -> strict_eq locale (Some (literalOf file)) = false) ->
  runChain locale (pageChain_from i files defaultIndex) = RenderPage defaultIndex.
Proof.
  induction files as [|file files IH]; intros i Hnone; simpl; [reflexivity|].
  change (show_locale (file_locale file)) with (literalOf file).
  rewrite (Hnone file) by now left. simpl. apply IH. intros f Hf. apply Hnone. now right.
Qed.

(** X19. What the dispatch module refers to is imported, as soon as one
    variant is found: the default index of an analysis is the index of one
    of its files, and so is every index the page dispatcher renders and
    every index whose fetch function the fetch dispatcher calls.  When no
    variant is found the analysis has no file and the default index 0: the
    module imports no page, and its dispatcher renders [Page_0] for every
    locale. *)
Theorem analyzeLocalizedEntries_indices
        (RegExp_test : string -> string -> string -> bool)
        (RegExp : string -> option (string -> bool))
        (currentResourcePath : string) (defaultLocale : option string)
        (listing : list Dirent) (d : Analysis) :
  analyzeLocalizedEntries RegExp_test RegExp currentResourcePath defaultLocale listing = Some d ->
  (files d <> [] ->
   (defaultIndex d < List.length (files d))%nat /\
   (forall locale i,
      runChain locale (pageChain (files d) (defaultIndex d)) = RenderPage i ->
      (i < List.length (files d))%nat)) /\
  (forall locale j,
     runChain locale (fetchChain (ssg d) (files d)) = CallPageData j ->
     (j < List.length (files d))%nat) /\
  (files d = [] ->
   defaultIndex d = 0%nat /\
   mapi importLine (files d) = [] /\
   forall locale, runChain locale (pageChain (files d) (defaultIndex d)) = RenderPage 0).
Proof.
  intros Hd. unfold analyzeLocalizedEntries in Hd.
  destruct (newFilenameRe RegExp (getFileName currentResourcePath)) as [accepts|];
    [|discriminate].
  apply analyzeEntries_bound in Hd as [Hb _]; [|simpl; lia].
  split; [|split].
  - intros Hne. assert (Hlen : (0 < List.length (files d))%nat)
      by (destruct (files d); [congruence | simpl; lia]).
    split; [lia|]. intros locale i Hr.
    destruct (pageChain_resolved _ _ _ _ Hr) as [(file & Hn & _ & _)|Hnone].
    + rewrite Nat.sub_0_r in Hn. apply nth_error_Some. congruence.
    + unfold pageChain in Hr. rewrite pageChain_default in Hr by exact Hnone.
      injection Hr as <-. lia.
  - intros locale j Hc. apply fetchChain_call in Hc as (file & Hn & _).
    rewrite Nat.sub_0_r in Hn. apply nth_error_Some. congruence.
  - intros Hnil. rewrite Hnil in *. simpl in Hb.
    assert (H0 : defaultIndex d = 0%nat) by lia.
    rewrite H0. repeat split.
Qed.

Lemma analyzeLocalizedEntries_indices_witness :
  exists d,
    analyzeLocalizedEntries exampleRegExp exampleCompile "/site/pages/a.en.md" (Some "fr")
                            exampleListing
    = Some d /\
    (defaultIndex d < List.length (files d))%nat.
Proof.
  eexists. assert (H : analyzeLocalizedEntries exampleRegExp exampleCompile
                                                  "/site/pages/a.en.md" (Some "fr")
                                                  exampleListing = Some _) by reflexivity.
  split; [exact H|].
  apply (proj1 (@analyzeLocalizedEntries_indices _ _ _ _ _ _ H)). discriminate.
Defined.

(** X20. The fetch function that the generated dispatcher calls for a
    variant is the export of that variant of the kind the module itself
    exports: when the module exports [getStaticProps], [page_data_j] is
    the [getStaticProps] of variant [j]; when it exports
    [getServerSideProps], it is the [getServerSideProps] of variant [j]. *)
Theorem i18nEntry_fetch_import (d : Analysis) (locale : option string) (j : nat) :
  consistent d ->
  runChain locale (fetchChain (ssg d) (files d)) = CallPageData j ->
  exists file,
    nth_error (files d) j = Some file /\
    importLine j file =
    "import Page_" +++ show_nat j +++ ", { " +++
    (if ssg d then "getStaticProps" else "getServerSideProps") +++
    " as page_data_" +++ show_nat j +++ " } from './" +++ file_name file +++ "?nextra-raw'" /\
    fetchExport (files d) (ssg d) (ssr d) =
    "export async function " +++
    (if ssg d then "getStaticProps" else "getServerSideProps") +++ " (context) {" +++ newline +++
    "  const locale = context.locale" +++ newline +++
    "  " +++ fetchDispatcher (files d) (ssg d) +++ newline +++
    "}".
Proof.
  intros [Hssg Hssr] Hc.
  apply fetchChain_call in Hc as (file & Hn & _ & _ & Hex).
  rewrite Nat.sub_0_r in Hn. exists file. split; [exact Hn|].
  assert (Hin : In file (files d)) by (eapply nth_error_In; exact Hn).
  unfold exportsChosen in Hex. unfold importLine, fetchExport.
  destruct (ssg d) eqn:Hs.
  - rewrite Hex. simpl. rewrite !append_assoc. split; reflexivity.
  - assert (Hno : file_ssg file = false).
    { symmetry in Hssg. destruct (file_ssg file) eqn:Hf; [|reflexivity].
      assert (existsb file_ssg (files d) = true)
        by (apply existsb_exists; exists file; auto).
      congruence. }
    assert (Hany : ssr d = true).
    { rewrite Hssr. apply existsb_exists. exists file. auto. }
    rewrite Hno, Hex, Hany. simpl. rewrite !append_assoc. split; reflexivity.
Qed.

Lemma i18nEntry_fetch_import_witness :
  consistent englishStatic /\
  runChain (Some "en") (fetchChain (ssg englishStatic) (files englishStatic)) = CallPageData 0 /\
  exists file, nth_error (files englishStatic) 0 = Some file /\ file_ssg file = true.
Proof.
  assert (Hc : consistent englishStatic) by (split; reflexivity).
  assert (Hr : runChain (Some "en") (fetchChain (ssg englishStatic) (files englishStatic))
               = CallPageData 0) by reflexivity.
  split; [exact Hc|]. split; [exact Hr|].
  destruct (@i18nEntry_fetch_import englishStatic (Some "en") 0%nat Hc Hr) as (file & Hn & _).
  exists file. split; [exact Hn|]. injection Hn as <-. reflexivity.
Defined.

(** *** The search index *)

Lemma search_Lit_cons c x s i :
  search (Lit c) i (x :: s) =
  if Ascii.eqb c x then Some (i, MState (S i) s []) else search (Lit c) (S i) s.
Proof. cbn [search m rest pos caps]. now destruct (Ascii.eqb c x). Qed.

Lemma search_Lit_Some c : forall s i j st,
  search (Lit c) i s = Some (j, st) -> (i <= j)%nat /\ pos st = S j.
Proof.
  induction s as [|x s IH]; intros i j st.
  - cbn. discriminate.
  - rewrite search_Lit_cons. destruct (Ascii.eqb c x).
    + intros [= <- <-]. split; [lia | reflexivity].
    + intros H. apply IH in H as [H1 H2]. split; [lia | exact H2].
Qed.

(** With fuel for every character, replacing a character everywhere is
    a substitution, character by character. *)
Lemma replaceAll_from_Lit c repl : forall s fuel i,
  (List.length s < fuel)%nat ->
  replaceAll_from fuel (Lit c) repl i s = substitute c repl s.
Proof.
  induction s as [|x s IH]; intros fuel i Hfuel.
  - destruct fuel; [simpl in Hfuel; lia | reflexivity].
  - destruct fuel as [|fuel]; [simpl in Hfuel; lia|]. simpl in Hfuel.
    cbn [replaceAll_from substitute flat_map]. rewrite search_Lit_cons.
    destruct (Ascii.eqb c x) eqn:Hc.
    + cbn [pos rest]. rewrite Nat.sub_diag. cbn [firstn app].
      replace (Nat.eqb (S i) i) with false by (symmetry; apply Nat.eqb_neq; lia).
      f_equal. apply IH. lia.
    + specialize (IH (S fuel) (S i)). cbn [replaceAll_from] in IH.
      destruct (search (Lit c) (S i) s) as [[j st]|] eqn:Hs.
      * apply search_Lit_Some in Hs as [Hle Hpos].
        replace (j - i)%nat with (S (j - S i)) by lia. cbn [firstn app].
        f_equal. apply IH. lia.
      * cbn [app]. f_equal. apply IH. lia.
Qed.

Lemma replaceAll_Lit c (repl s : string) :
  replaceAll (Lit c) repl s =
  string_of_list_ascii (substitute c (list_ascii_of_string repl) (list_ascii_of_string s)).
Proof. unfold replaceAll. cbv zeta. now rewrite replaceAll_from_Lit by lia. Qed.

Lemma substitute_app c repl (a b : list ascii) :
  substitute c repl (a ++ b) = substitute c repl a ++ substitute c repl b.
Proof. apply flat_map_app. Qed.

Lemma substitute_none c repl (s : list ascii) :
  ~ In c s -> substitute c repl s = s.
Proof.
  induction s as [|x s IH]; intros H; [reflexivity|]. cbn [substitute flat_map].
  destruct (Ascii.eqb_spec c x) as [->|_]; [exfalso; apply H; now left|].
  cbn [app]. f_equal. apply IH. intros Hin. apply H. now right.
Qed.

Lemma escapeQuote_substitute (str : string) :
  list_ascii_of_string (Stork.escapeQuote str) =
  substitute Stork.quote [Stork.backslash; Stork.quote] (list_ascii_of_string str).
Proof.
  unfold Stork.escapeQuote. rewrite replaceAll_Lit.
  now rewrite list_ascii_of_string_of_list_ascii.
Qed.

Lemma length_string_of_list_ascii (l : list ascii) :
  String.length (string_of_list_ascii l) = List.length l.
Proof. induction l as [|c l IH]; simpl; [reflexivity | now rewrite IH]. Qed.

(** X21. [escapeQuote] puts a backslash before every double quote of the
    text, the first and all the others, and changes nothing else: a text
    without a double quote comes back as it is, backslashes included, and
    the escape of two texts put together is their escapes put together. *)
Theorem escapeQuote_every_quote (str : string) :
  list_ascii_of_string (Stork.escapeQuote str) =
    substitute Stork.quote [Stork.backslash; Stork.quote] (list_ascii_of_string str) /\
  (~ In Stork.quote (list_ascii_of_string str) -> Stork.escapeQuote str = str) /\
  (forall more, Stork.escapeQuote (str +++ more) =
                Stork.escapeQuote str +++ Stork.escapeQuote more) /\
  String.length (Stork.escapeQuote str) =
    (String.length str +
     List.length (filter (Ascii.eqb Stork.quote) (list_ascii_of_string str)))%nat.
Proof.
  split; [apply escapeQuote_substitute|]. split; [|split].
  - intros H. rewrite <- (string_of_list_ascii_of_string (Stork.escapeQuote str)).
    rewrite escapeQuote_substitute, substitute_none by exact H.
    apply string_of_list_ascii_of_string.
  - intros more.
    rewrite <- (string_of_list_ascii_of_string (Stork.escapeQuote (str +++ more))).
    rewrite escapeQuote_substitute, list_ascii_of_string_append, substitute_app.
    rewrite <- !escapeQuote_substitute, string_of_list_ascii_app.
    now rewrite !string_of_list_ascii_of_string.
  - rewrite <- (string_of_list_ascii_of_string (Stork.escapeQuote str)).
    rewrite escapeQuote_substitute.
    rewrite <- (string_of_list_ascii_of_string str) at 2.
    rewrite !length_string_of_list_ascii.
    induction (list_ascii_of_string str) as [|x s IH]; [reflexivity|].
    cbn [substitute flat_map filter]. rewrite length_app. fold (substitute Stork.quote
      [Stork.backslash; Stork.quote] s). rewrite IH.
    destruct (Ascii.eqb Stork.quote x); simpl; lia.
Qed.

Lemma substitute_quote_preceded (s : list ascii) : forall pre post,
  substitute Stork.quote [Stork.backslash; Stork.quote] s = pre ++ Stork.quote :: post ->
  exists pre', pre = pre' ++ [Stork.backslash].
Proof.
  induction s as [|x s IH]; intros pre post H.
  - destruct pre; discriminate.
  - cbn [substitute flat_map] in H.
    fold (substitute Stork.quote [Stork.backslash; Stork.quote] s) in H.
    destruct (Ascii.eqb_spec Stork.quote x) as [<-|Hne].
    + destruct pre as [|p1 [|p2 pre]]; cbn [app] in H.
      * discriminate.
      * injection H as <- _. now exists [].
      * injection H as <- <- H. apply IH in H as (pre' & ->).
        now exists (Stork.backslash :: Stork.quote :: pre').
    + destruct pre as [|p1 pre]; cbn [app] in H.
      * injection H as H _. congruence.
      * injection H as <- H. apply IH in H as (pre' & ->). now exists (x :: pre').
Qed.

Lemma substitute_quote_head (s : list ascii) (t : list ascii) :
  substitute Stork.quote [Stork.backslash; Stork.quote] s <> Stork.quote :: t.
Proof.
  intros H. destruct (@substitute_quote_preceded s [] t H) as (pre' & Hp).
  destruct pre'; discriminate.
Qed.

Lemma substitute_quote_injective (a : list ascii) : forall b,
  substitute Stork.quote [Stork.backslash; Stork.quote] a =
  substitute Stork.quote [Stork.backslash; Stork.quote] b -> a = b.
Proof.
  induction a as [|x a IH]; intros [|y b] H; cbn [substitute flat_map] in H.
  - reflexivity.
  - destruct (Ascii.eqb Stork.quote y); discriminate.
  - destruct (Ascii.eqb Stork.quote x); discriminate.
  - fold (substitute Stork.quote [Stork.backslash; Stork.quote] a) in H.
    fold (substitute Stork.quote [Stork.backslash; Stork.quote] b) in H.
    destruct (Ascii.eqb_spec Stork.quote x) as [<-|Hx],
             (Ascii.eqb_spec Stork.quote y) as [<-|Hy]; cbn [app] in H.
    + injection H as H. f_equal. now apply IH.
    + injection H as <- H. symmetry in H. now apply substitute_quote_head in H.
    + injection H as -> H. now apply substitute_quote_head in H.
    + injection H as <- H. f_equal. now apply IH.
Qed.

(** X22. In what [escapeQuote] returns, every double quote stands right
    after a backslash, and no two texts have the same escape. *)
Theorem escapeQuote_no_bare_quote (str : string) :
  (forall pre post,
     list_ascii_of_string (Stork.escapeQuote str) = pre ++ Stork.quote :: post ->
     exists pre', pre = pre' ++ [Stork.backslash]) /\
  (forall other, Stork.escapeQuote str = Stork.escapeQuote other <-> str = other).
Proof.
  split.
  - intros pre post H. rewrite escapeQuote_substitute in H.
    now apply substitute_quote_preceded in H.
  - intros other. split; [|now intros ->].
    intros H. apply (f_equal list_ascii_of_string) in H.
    rewrite !escapeQuote_substitute in H. apply substitute_quote_injective in H.
    rewrite <- (string_of_list_ascii_of_string str), H.
    apply string_of_list_ascii_of_string.
Qed.

Lemma lowerCase_e (c : ascii) :
  Stork.lowerCase c = "e"%char <-> c = "e"%char \/ c = "E"%char.
Proof.
  destruct c as [[] [] [] [] [] [] [] []]; vm_compute;
    split; intros H; try discriminate H; try (destruct H as [H|H]; discriminate H);
    auto.
Qed.

Lemma lowerCase_n (c : ascii) :
  Stork.lowerCase c = "n"%char <-> c = "n"%char \/ c = "N"%char.
Proof.
  destruct c as [[] [] [] [] [] [] [] []]; vm_compute;
    split; intros H; try discriminate H; try (destruct H as [H|H]; discriminate H);
    auto.
Qed.

(** X23. The stemming language is [English] for the locales whose first
    two characters are [en] in any case, such as [en], [EN] or [en-US], and
    [None] for every other locale, the empty one and [default] among
    them. *)
Theorem getStemmingLanguage_english (locale : string) :
  (Stork.getStemmingLanguage locale = "English" <->
   exists c1 c2 more,
     locale = String c1 (String c2 more) /\
     (c1 = "e"%char \/ c1 = "E"%char) /\ (c2 = "n"%char \/ c2 = "N"%char)) /\
  (Stork.getStemmingLanguage locale <> "English" ->
   Stork.getStemmingLanguage locale = "None").
Proof.
  unfold Stork.getStemmingLanguage, Stork.startsWith, Stork.toLowerCase. split.
  - destruct locale as [|c1 [|c2 more]].
    + split; [discriminate | intros (c1 & c2 & more & H & _); discriminate].
    + cbn [list_ascii_of_string map string_of_list_ascii String.prefix]. split.
      * destruct (ascii_dec "e" (Stork.lowerCase c1)); intros H; discriminate H.
      * intros (x & y & more & H & _). discriminate.
    + cbn [list_ascii_of_string map string_of_list_ascii String.prefix].
      destruct (ascii_dec "e" (Stork.lowerCase c1)) as [H1|H1].
      * destruct (ascii_dec "n" (Stork.lowerCase c2)) as [H2|H2].
        -- replace (String.prefix "" _) with true by (now destruct (string_of_list_ascii _)).
           split; [intros _|reflexivity]. exists c1, c2, more.
           split; [reflexivity|]. split; [now apply lowerCase_e | now apply lowerCase_n].
        -- split; [discriminate|]. intros (x & y & more' & [= <- <- <-] & _ & Hn).
           apply lowerCase_n in Hn. congruence.
      * split; [discriminate|]. intros (x & y & more' & [= <- <- <-] & He & _).
        apply lowerCase_e in He. congruence.
  - destruct (String.prefix _ _); [congruence | reflexivity].
Qed.

Lemma prefix_iff (a s : string) :
  String.prefix a s = true <-> exists more, s = a +++ more.
Proof.
  split.
  - revert s. induction a as [|c a IH]; intros s H; [now exists s|].
    destruct s as [|x s]; [discriminate|]. simpl in H.
    destruct (ascii_dec c x) as [->|]; [|discriminate].
    apply IH in H as (more & ->). now exists more.
  - intros (more & ->). apply prefix_append.
Qed.

Lemma test_Bos r (s : string) :
  test (Cat Bos r) s =
  match m r (MState 0 (list_ascii_of_string s) []) Some with
  | Some _ => true
  | None => false
  end.
Proof. unfold test. rewrite search_Bos. now destruct (m r _ Some). Qed.

Lemma test_importExport (text : string) :
  test Stork.importExport text = Stork.isImportOrExport text.
Proof.
  unfold Stork.importExport. rewrite test_Bos. unfold Stork.isImportOrExport, Stork.startsWith.
  destruct (m _ _ Some) as [st|] eqn:Hm.
  - symmetry. apply m_sound in Hm as (st' & Hm & _). cbn [pos rest lits] in Hm.
    remember (list_ascii_of_string text) as l eqn:Hl.
    apply orb_true_iff. invert_matches; [left|right]; apply prefix_iff;
      exists (string_of_list_ascii (rest st'));
      match goal with
      | Heq : _ = list_ascii_of_string text |- _ =>
          rewrite <- (string_of_list_ascii_of_string text), <- Heq
      end; reflexivity.
  - symmetry. apply orb_false_iff.
    split; apply not_true_is_false; intros H; apply prefix_iff in H as (more & ->);
      rewrite list_ascii_of_string_append in Hm; cbn in Hm; discriminate.
Qed.

Lemma fold_collect (nodes : list Stork.MdNode) : forall plainText,
  fold_left Stork.collect nodes plainText =
  plainText +++
  join "" (map (fun text => text +++ newline)
               (filter (fun text => negb (Stork.isImportOrExport text))
                       (flat_map Stork.firstValue nodes))).
Proof.
  induction nodes as [|node nodes IH]; intros plainText; cbn [fold_left flat_map].
  - simpl. now rewrite append_nil_r.
  - rewrite IH, filter_app, map_app. unfold Stork.collect, Stork.firstValue.
    destruct (Stork.children node) as [[|child more]|]; cbn [app filter map]; trivial.
    rewrite test_importExport.
    destruct (Stork.isImportOrExport _); cbn [negb app map]; [reflexivity|].
    rewrite join_empty_cons, !append_assoc. reflexivity.
Qed.

(** X24. The plain text of a page is made of the value of the first
    child of every top node, each followed by a line feed, in order; the
    values that start with [import ] or with [export ] are left out, and so
    are the nodes that have no first child.  A first child that has no
    value gives the line [undefined]. *)
Theorem getPlainText_lines (stripped : string -> list Stork.MdNode) (content : string) :
  Stork.getPlainText stripped content =
    join "" (map (fun text => text +++ newline)
                 (filter (fun text => negb (Stork.isImportOrExport text))
                         (flat_map Stork.firstValue (stripped content)))) /\
  (forall text, test Stork.importExport text = Stork.isImportOrExport text) /\
  (forall plainText node,
     Stork.children node = None \/ Stork.children node = Some [] ->
     Stork.collect plainText node = plainText) /\
  (forall plainText more,
     Stork.collect plainText
                   {| Stork.children := Some ({| Stork.value := None |} :: more) |} =
     plainText +++ "undefined" +++ newline).
Proof.
  split; [|split; [|split]].
  - unfold Stork.getPlainText. now rewrite fold_collect.
  - apply test_importExport.
  - intros plainText node [H|H]; unfold Stork.collect; now rewrite H.
  - reflexivity.
Qed.

(** *** [_extends] *)

Section ExtendsFacts.
Variable V : Type.
Implicit Types (o target source : JsObject.t V) (k : string).

Lemma get_assign target source k :
  NoDup (JsObject.keys source) ->
  JsObject.get k (assign target source) =
  match JsObject.get k source with
  | Some v => Some v
  | None => JsObject.get k target
  end.
Proof.
  unfold assign. revert target.
  induction source as [|[k1 v1] source IH]; intros target Hnd; [reflexivity|].
  cbn [fold_left fst snd JsObject.get]. cbn [JsObject.keys map fst] in Hnd.
  apply NoDup_cons_iff in Hnd as [Hk1 Hnd]. rewrite IH by exact Hnd.
  destruct (String.eqb_spec k k1) as [->|Hne].
  - assert (Hnone : JsObject.get k1 source = None) by now apply get_None_not_In.
    rewrite Hnone. apply get_set_same.
  - destruct (JsObject.get k source); [reflexivity|]. now apply get_set_other.
Qed.

Lemma assign_snoc target source k (v : V) :
  assign target (source ++ [(k, v)]) = JsObject.set k v (assign target source).
Proof. unfold assign. now rewrite fold_left_app. Qed.

Lemma keys_assign_empty o :
  NoDup (JsObject.keys o) ->
  JsObject.keys (assign (JsObject.empty V) o) = jsOrder (JsObject.keys o).
Proof.
  induction o as [|[k v] o IH] using rev_ind; intros Hnd; [reflexivity|].
  unfold JsObject.keys in Hnd. rewrite map_app in Hnd. cbn [map fst] in Hnd.
  apply NoDup_snoc in Hnd as [Hnd Hk].
  rewrite assign_snoc, keys_set.
  assert (Hhas : JsObject.has k (assign (JsObject.empty V) o) = false).
  { unfold JsObject.has. rewrite get_assign by exact Hnd.
    assert (Hnone : JsObject.get k o = None) by now apply get_None_not_In.
    now rewrite Hnone. }
  rewrite Hhas, IH by exact Hnd.
  unfold JsObject.keys. rewrite map_app. cbn [map fst]. symmetry. apply jsOrder_snoc.
Qed.

Lemma object_eq o : forall o',
  NoDup (JsObject.keys o) -> JsObject.keys o = JsObject.keys o' ->
  (forall k, JsObject.get k o = JsObject.get k o') -> o = o'.
Proof.
  induction o as [|[k v] o IH]; intros [|[k' v'] o'] Hnd Hkeys Hget;
    try discriminate Hkeys; [reflexivity|].
  cbn [JsObject.keys map fst] in *. injection Hkeys as <- Hkeys.
  apply NoDup_cons_iff in Hnd as [Hk Hnd].
  pose proof (Hget k) as Hv. cbn [JsObject.get] in Hv. rewrite String.eqb_refl in Hv.
  injection Hv as <-. f_equal. apply IH; [exact Hnd | exact Hkeys|].
  intros k0. destruct (String.eqb_spec k0 k) as [->|Hne].
  - assert (H1 : JsObject.get k o = None) by now apply get_None_not_In.
    assert (H2 : JsObject.get k o' = None).
    { apply get_None_not_In. unfold JsObject.keys. now rewrite <- Hkeys. }
    now rewrite H1, H2.
  - specialize (Hget k0). cbn [JsObject.get] in Hget.
    apply String.eqb_neq in Hne. now rewrite Hne in Hget.
Qed.

End ExtendsFacts.

(** X25. [_extends] merges from left to right: what the result holds for
    a key is what the last source with that key holds, and what the target
    held when no source has the key.  For the call with a page and a new
    [children], every property is that of the page except [children]. *)
Theorem extends_merge (V : Type) (target page extra : JsObject.t V) (k : string) :
  (NoDup (JsObject.keys page) ->
   JsObject.get k (_extends target [page]) =
   match JsObject.get k page with
   | Some v => Some v
   | None => JsObject.get k target
   end) /\
  (NoDup (JsObject.keys page) -> NoDup (JsObject.keys extra) ->
   JsObject.get k (_extends (JsObject.empty V) [page; extra]) =
   match JsObject.get k extra with
   | Some v => Some v
   | None => JsObject.get k page
   end).
Proof.
  unfold _extends. cbn [fold_left]. split.
  - apply get_assign.
  - intros Hp He. rewrite get_assign by exact He.
    destruct (JsObject.get k extra); [reflexivity|]. rewrite get_assign by exact Hp.
    now destruct (JsObject.get k page).
Qed.

(** X26. Copying an object with [_extends({}, item)] gives an object
    with the same properties, enumerated in the order a plain object
    enumerates keys that were created in the order of the item; for an item
    that is itself in enumeration order the copy is the item. *)
Theorem extends_copy (V : Type) (item : JsObject.t V) :
  NoDup (JsObject.keys item) ->
  JsObject.keys (_extends (JsObject.empty V) [item]) = jsOrder (JsObject.keys item) /\
  (forall k, JsObject.get k (_extends (JsObject.empty V) [item]) = JsObject.get k item) /\
  (jsOrder (JsObject.keys item) = JsObject.keys item ->
   _extends (JsObject.empty V) [item] = item).
Proof.
  intros Hnd. unfold _extends. cbn [fold_left].
  assert (Hkeys := @keys_assign_empty V item Hnd).
  assert (Hget : forall k, JsObject.get k (assign (JsObject.empty V) item) =
                           JsObject.get k item).
  { intros k. rewrite get_assign by exact Hnd. now destruct (JsObject.get k item). }
  split; [exact Hkeys|]. split; [exact Hget|].
  intros Horder. symmetry. apply object_eq; [exact Hnd | congruence|].
  intros k. now rewrite Hget.
Qed.

Lemma extends_copy_witness :
  NoDup (JsObject.keys [("name", 1); ("route", 2)]) /\
  _extends (JsObject.empty nat) [[("name", 1); ("route", 2)]] = [("name", 1); ("route", 2)].
Proof.
  assert (Hnd : NoDup (JsObject.keys [("name", 1); ("route", 2)])).
  { repeat constructor; simpl; intuition discriminate. }
  split; [exact Hnd|].
  apply (proj2 (proj2 (@extends_copy nat [("name", 1); ("route", 2)] Hnd))).
  reflexivity.
Defined.

(** *** [addStorkIndex] *)

Section StorkFacts.
Variable isProduction : bool.
Variable cwd : string.
Variable stripped : string -> list Stork.MdNode.

Local Abbreviation addStorkIndex := (Stork.addStorkIndex isProduction cwd stripped).

Lemma append_not_empty (a b : string) : b <> "" -> a +++ b <> "".
Proof. intros Hb H. destruct a; [now simpl in H | discriminate]. Qed.

Lemma get_appendToml text (entry : Stork.Entry) k :
  JsObject.get k (Stork.appendToml text entry) =
  if String.eqb k "toml"
  then Some (Stork.Text (Stork.show (JsObject.get "toml" entry) +++ text))
  else JsObject.get k entry.
Proof.
  unfold Stork.appendToml. destruct (String.eqb_spec k "toml") as [->|Hne].
  - apply get_set_same.
  - now apply get_set_other.
Qed.

Lemma truthy_appendToml text (entry : Stork.Entry) k :
  text <> "" -> Stork.truthy (JsObject.get k entry) = true ->
  Stork.truthy (JsObject.get k (Stork.appendToml text entry)) = true.
Proof.
  intros Ht Hk. rewrite get_appendToml. destruct (String.eqb k "toml"); [|exact Hk].
  cbn. apply negb_true_iff, String.eqb_neq. now apply append_not_empty.
Qed.

Lemma truthy_appendToml_toml text (entry : Stork.Entry) :
  text <> "" -> Stork.truthy (JsObject.get "toml" (Stork.appendToml text entry)) = true.
Proof.
  intros Ht. rewrite get_appendToml. cbn.
  apply negb_true_iff, String.eqb_neq. now apply append_not_empty.
Qed.

Lemma truthy_flagged route (entry : Stork.Entry) text :
  text <> "" ->
  Stork.truthy (JsObject.get route
                  (Stork.appendToml text (JsObject.set route Stork.True_ entry))) = true.
Proof.
  intros Ht. apply truthy_appendToml; [exact Ht|]. now rewrite get_set_same.
Qed.

Lemma newline_not_empty : newline <> "".
Proof. discriminate. Qed.

End StorkFacts.

Section StorkCalls.
Variable isProduction : bool.
Variable cwd : string.
Variable stripped : string -> list Stork.MdNode.

Local Abbreviation addStorkIndex := (Stork.addStorkIndex isProduction cwd stripped).

(** The entry of the locale as the call finds or makes it. *)
Lemma entry_found fileLocale (s : Stork.State) :
  exists entry,
    JsObject.get fileLocale
      (match JsObject.get fileLocale (Stork.files s) with
       | Some _ => Stork.files s
       | None => JsObject.set fileLocale [("toml", Stork.Text (Stork.header fileLocale))]
                              (Stork.files s)
       end) = Some entry /\
    entry = match JsObject.get fileLocale (Stork.files s) with
            | Some e => e
            | None => [("toml", Stork.Text (Stork.header fileLocale))]
            end.
Proof.
  destruct (JsObject.get fileLocale (Stork.files s)) as [e|] eqn:H.
  - exists e. now split.
  - eexists. split; [apply get_set_same | reflexivity].
Qed.

(** A call for a route that is indexed changes nothing. *)
Lemma addStorkIndex_indexed fileLocale route title data content (s : Stork.State) entry :
  JsObject.get fileLocale (Stork.files s) = Some entry ->
  Stork.truthy (JsObject.get route entry) = true ->
  addStorkIndex fileLocale route title data content s = (s, Stork.Fulfilled).
Proof.
  intros Hl Hr. unfold Stork.addStorkIndex.
  destruct isProduction; cbn [negb]; [|reflexivity].
  cbv zeta. rewrite !Hl. cbv beta iota. rewrite Hr. now destruct s.
Qed.

(** After a call in production the route is indexed for the locale. *)
Lemma addStorkIndex_flags fileLocale route title data content (s : Stork.State) :
  isProduction = true ->
  exists entry,
    JsObject.get fileLocale
      (Stork.files (fst (addStorkIndex fileLocale route title data content s))) = Some entry /\
    Stork.truthy (JsObject.get route entry) = true.
Proof.
  intros Hprod. unfold Stork.addStorkIndex. rewrite Hprod. cbn [negb].
  destruct (entry_found fileLocale s) as (entry & Hget & _).
  cbv zeta. rewrite Hget.
  destruct (Stork.truthy (JsObject.get route entry)) eqn:Hr.
  - exists entry. cbn [fst Stork.files]. now split.
  - destruct (Stork.titleOf data title); cbn [fst Stork.files]; eexists;
      (split; [apply get_set_same|]);
      repeat (apply truthy_appendToml; [discriminate|]);
      now rewrite get_set_same.
Qed.

End StorkCalls.

(** X27. A page is indexed once: outside production [addStorkIndex]
    does nothing, and in production a second call for the same locale and
    route, whatever the title, the front matter and the text, leaves
    [files], the directory and what was written as the first call left
    them. *)
Theorem addStorkIndex_once
        (isProduction : bool) (cwd : string) (stripped : string -> list Stork.MdNode)
        (fileLocale route : string) (title title' : json) (data data' : mapping)
        (content content' : string) (s : Stork.State) :
  (isProduction = false ->
   Stork.addStorkIndex isProduction cwd stripped fileLocale route title data content s =
   (s, Stork.Fulfilled)) /\
  Stork.addStorkIndex isProduction cwd stripped fileLocale route title' data' content'
    (fst (Stork.addStorkIndex isProduction cwd stripped fileLocale route title data content s)) =
  (fst (Stork.addStorkIndex isProduction cwd stripped fileLocale route title data content s),
   Stork.Fulfilled).
Proof.
  destruct isProduction eqn:Hprod.
  - split; [discriminate|].
    destruct (@addStorkIndex_flags true cwd stripped fileLocale route title data content s
                eq_refl) as (entry & Hl & Hr).
    now apply addStorkIndex_indexed with (entry := entry).
  - split; reflexivity.
Qed.

Section StorkBlock.
Variable isProduction : bool.
Variable cwd : string.
Variable stripped : string -> list Stork.MdNode.

Local Abbreviation addStorkIndex := (Stork.addStorkIndex isProduction cwd stripped).

Lemma show_appendToml text (entry : Stork.Entry) :
  Stork.show (JsObject.get "toml" (Stork.appendToml text entry)) =
  Stork.show (JsObject.get "toml" entry) +++ text.
Proof. now rewrite get_appendToml. Qed.

Lemma get_appendToml_other text (entry : Stork.Entry) k :
  k <> "toml" -> JsObject.get k (Stork.appendToml text entry) = JsObject.get k entry.
Proof. intros Hk. rewrite get_appendToml. apply String.eqb_neq in Hk. now rewrite Hk. Qed.

Lemma indexed_entry fileLocale route (s : Stork.State) entry :
  entry = match JsObject.get fileLocale (Stork.files s) with
          | Some e => e
          | None => [("toml", Stork.Text (Stork.header fileLocale))]
          end ->
  Stork.indexed fileLocale route s = Stork.truthy (JsObject.get route entry) /\
  Stork.tomlOf fileLocale s = Stork.show (JsObject.get "toml" entry).
Proof.
  intros ->. unfold Stork.indexed, Stork.tomlOf.
  now destruct (JsObject.get fileLocale (Stork.files s)).
Qed.

Lemma get_files_other fileLocale l' (entry : Stork.Entry) (s : Stork.State) :
  l' <> fileLocale ->
  JsObject.get l'
    (JsObject.set fileLocale entry
       (match JsObject.get fileLocale (Stork.files s) with
        | Some _ => Stork.files s
        | None => JsObject.set fileLocale [("toml", Stork.Text (Stork.header fileLocale))]
                               (Stork.files s)
        end)) = JsObject.get l' (Stork.files s).
Proof.
  intros Hne. rewrite get_set_other by exact Hne.
  destruct (JsObject.get fileLocale (Stork.files s)); [reflexivity|].
  now apply get_set_other.
Qed.

End StorkBlock.

(** X28. In production, a call for a route that is not yet indexed, with
    a title that is a string, the locale and the route not being names of
    members of [Object.prototype], adds one [[input.files]] section to the
    text of the locale, the header first when the locale is new, marks the
    route as indexed, makes sure [public] exists and writes the whole text
    to the index file of the locale; the other locales are left alone. *)
Theorem addStorkIndex_adds_section
        (isProduction : bool) (cwd : string) (stripped : string -> list Stork.MdNode)
        (fileLocale route : string) (title : json) (data : mapping) (content text : string)
        (s : Stork.State) :
  isProduction = true -> route <> "toml" ->
  JsObject.inherited fileLocale = false -> JsObject.inherited route = false ->
  Stork.indexed fileLocale route s = false ->
  Stork.titleOf data title = JStr text ->
  let result :=
    Stork.addStorkIndex isProduction cwd stripped fileLocale route title data content s in
  snd result = Stork.Fulfilled /\
  Stork.tomlOf fileLocale (fst result) =
    Stork.tomlOf fileLocale s +++ Stork.inputFile stripped route text content /\
  Stork.indexed fileLocale route (fst result) = true /\
  Stork.written (fst result) =
    Stork.written s ++
    [(Stork.tomlFile cwd fileLocale,
      Stork.tomlOf fileLocale s +++ Stork.inputFile stripped route text content)] /\
  Stork.publicDir (fst result) = true /\
  (forall other, other <> fileLocale ->
                 JsObject.get other (Stork.files (fst result)) =
                 JsObject.get other (Stork.files s)).
Proof.
  intros Hprod Hroute _ _ Hnew Htitle result. subst result.
  destruct (entry_found fileLocale s) as (entry & Hget & Hentry).
  destruct (indexed_entry fileLocale route s Hentry) as [Hi Ht].
  rewrite Hi in Hnew. rewrite Ht.
  unfold Stork.addStorkIndex. rewrite Hprod. cbn [negb]. cbv zeta.
  rewrite Hget, Hnew, Htitle. cbn [fst snd Stork.files Stork.written Stork.publicDir].
  assert (Htoml :
    Stork.show (JsObject.get "toml"
      (Stork.appendToml newline
         (Stork.appendToml ("filetype = " +++ dquote +++ "PlainText" +++ dquote)
            (Stork.appendToml
               ("contents = " +++ dquote +++
                Stork.escapeQuote (Stork.escapeLinefeed (Stork.getPlainText stripped content))
                +++ dquote +++ newline)
               (Stork.appendToml
                  ("url = " +++ dquote +++ Stork.escapeQuote route +++ dquote +++ newline)
                  (Stork.appendToml
                     ("title = " +++ dquote +++ Stork.escapeQuote text +++ dquote +++ newline)
                     (Stork.appendToml ("[[input.files]]" +++ newline)
                        (JsObject.set route Stork.True_ entry)))))))) =
    Stork.show (JsObject.get "toml" entry) +++ Stork.inputFile stripped route text content).
  { rewrite !show_appendToml, get_set_other by (intros H; now apply Hroute).
    unfold Stork.inputFile. now rewrite !append_assoc. }
  split; [reflexivity|]. split; [|split; [|split; [|split]]].
  - unfold Stork.tomlOf. cbn [Stork.files]. now rewrite get_set_same, Htoml.
  - unfold Stork.indexed. cbn [Stork.files]. rewrite get_set_same.
    repeat (apply truthy_appendToml; [discriminate|]). now rewrite get_set_same.
  - now rewrite Htoml.
  - reflexivity.
  - intros other Hne. now apply get_files_other.
Qed.

Lemma addStorkIndex_adds_section_witness :
  JsObject.inherited "en" = false /\ JsObject.inherited "/a" = false /\
  Stork.indexed "en" "/a"
    {| Stork.files := JsObject.empty Stork.Entry; Stork.publicDir := false;
       Stork.written := [] |} = false /\
  Stork.publicDir
    (fst (Stork.addStorkIndex true "/site" (fun _ => []) "en" "/a" (JStr "A") [] ""
            {| Stork.files := JsObject.empty Stork.Entry; Stork.publicDir := false;
               Stork.written := [] |})) = true.
Proof.
  assert (Hroute : "/a" <> "toml") by discriminate.
  assert (Hnew : Stork.indexed "en" "/a"
                   {| Stork.files := JsObject.empty Stork.Entry; Stork.publicDir := false;
                      Stork.written := [] |} = false) by reflexivity.
  split; [reflexivity|]. split; [reflexivity|]. split; [exact Hnew|].
  exact (proj1 (proj2 (proj2 (proj2 (proj2
    (@addStorkIndex_adds_section true "/site" (fun _ => []) "en" "/a" (JStr "A") [] "" "A"
       _ eq_refl Hroute eq_refl eq_refl Hnew eq_refl)))))).
Defined.

(** X29. A title that is not a string stops the call half way:
    [escapeQuote] throws, the call is rejected, and nothing is written; but
    the route is already marked as indexed and the text of the locale has
    its [[input.files]] line already, so the section stays without its
    fields and no later call for the route completes it. *)
Theorem addStorkIndex_rejects
        (isProduction : bool) (cwd : string) (stripped : string -> list Stork.MdNode)
        (fileLocale route : string) (title : json) (data : mapping) (content : string)
        (s : Stork.State) :
  isProduction = true -> route <> "toml" ->
  Stork.indexed fileLocale route s = false ->
  (forall text, Stork.titleOf data title <> JStr text) ->
  let result :=
    Stork.addStorkIndex isProduction cwd stripped fileLocale route title data content s in
  snd result = Stork.Rejected /\
  Stork.tomlOf fileLocale (fst result) =
    Stork.tomlOf fileLocale s +++ "[[input.files]]" +++ newline /\
  Stork.indexed fileLocale route (fst result) = true /\
  Stork.written (fst result) = Stork.written s /\
  Stork.publicDir (fst result) = Stork.publicDir s /\
  (forall title' data' content',
     Stork.addStorkIndex isProduction cwd stripped fileLocale route title' data' content'
                         (fst result) = (fst result, Stork.Fulfilled)).
Proof.
  intros Hprod Hroute Hnew Htitle result.
  assert (Hres : snd result = Stork.Rejected /\
                 Stork.tomlOf fileLocale (fst result) =
                   Stork.tomlOf fileLocale s +++ "[[input.files]]" +++ newline /\
                 Stork.indexed fileLocale route (fst result) = true /\
                 Stork.written (fst result) = Stork.written s /\
                 Stork.publicDir (fst result) = Stork.publicDir s).
  { subst result.
    destruct (entry_found fileLocale s) as (entry & Hget & Hentry).
    destruct (indexed_entry fileLocale route s Hentry) as [Hi Ht].
    rewrite Hi in Hnew. rewrite Ht.
    unfold Stork.addStorkIndex. rewrite Hprod. cbn [negb]. cbv zeta.
    rewrite Hget, Hnew.
    destruct (Stork.titleOf data title) as [| | |text| | |] eqn:Hjson;
      [| | |now specialize (Htitle text)| | |];
      cbn [fst snd Stork.files Stork.written Stork.publicDir];
      (split; [reflexivity|]); (split; [|split; [|split; reflexivity]]);
      unfold Stork.tomlOf, Stork.indexed; cbn [Stork.files]; rewrite get_set_same;
      try (rewrite show_appendToml, get_set_other by (intros H; now apply Hroute);
           reflexivity);
      apply truthy_flagged; discriminate. }
  destruct Hres as (H1 & H2 & H3 & H4 & H5).
  repeat (split; [assumption|]).
  intros title' data' content'. unfold Stork.indexed in H3.
  destruct (JsObject.get fileLocale (Stork.files (fst result))) as [entry|] eqn:Hl.
  - now apply addStorkIndex_indexed with (entry := entry).
  - exfalso. subst result.
    destruct (@addStorkIndex_flags isProduction cwd stripped fileLocale route title data
                content s Hprod) as (e & He & _).
    congruence.
Qed.

Lemma addStorkIndex_rejects_witness :
  Stork.titleOf [("title", JNum 2021)] (JStr "A") = JNum 2021 /\
  snd (Stork.addStorkIndex true "/site" (fun _ => []) "en" "/a" (JStr "A")
         [("title", JNum 2021)] ""
         {| Stork.files := JsObject.empty Stork.Entry; Stork.publicDir := false;
            Stork.written := [] |}) = Stork.Rejected.
Proof.
  assert (Hroute : "/a" <> "toml") by discriminate.
  assert (Htitle : forall text, Stork.titleOf [("title", JNum 2021)] (JStr "A") <> JStr text)
    by discriminate.
  split; [reflexivity|].
  exact (proj1
    (@addStorkIndex_rejects true "/site" (fun _ => []) "en" "/a" (JStr "A")
       [("title", JNum 2021)] ""
       {| Stork.files := JsObject.empty Stork.Entry; Stork.publicDir := false;
          Stork.written := [] |} eq_refl Hroute eq_refl Htitle)).
Defined.

Section StorkInvariant.
Variable isProduction : bool.
Variable cwd : string.
Variable stripped : string -> list Stork.MdNode.

(** The text of the entry starts with the header of the locale. *)
Local Abbreviation headed :=
  (fun (fileLocale : string) (entry : Stork.Entry) =>
     exists more, JsObject.get "toml" entry =
                  Some (Stork.Text (Stork.header fileLocale +++ more))).

Lemma headed_truthy fileLocale (entry : Stork.Entry) :
  headed fileLocale entry -> Stork.truthy (JsObject.get "toml" entry) = true.
Proof. intros (more & ->). reflexivity. Qed.

Lemma headed_appendToml fileLocale text (entry : Stork.Entry) :
  headed fileLocale entry -> headed fileLocale (Stork.appendToml text entry).
Proof.
  intros (more & H). exists (more +++ text).
  rewrite get_appendToml, H. cbn. now rewrite append_assoc.
Qed.

Lemma headed_flag fileLocale route (entry : Stork.Entry) :
  route <> "toml" -> headed fileLocale entry ->
  headed fileLocale (JsObject.set route Stork.True_ entry).
Proof.
  intros Hr (more & H). exists more. rewrite get_set_other; [exact H|].
  intros Heq. now apply Hr.
Qed.

Lemma headed_files_set fileLocale (entry : Stork.Entry) (fs : JsObject.t Stork.Entry) :
  (forall l e, JsObject.get l fs = Some e -> headed l e) ->
  headed fileLocale entry ->
  forall l e, JsObject.get l (JsObject.set fileLocale entry fs) = Some e -> headed l e.
Proof.
  intros Hfs He l e. destruct (String.eqb_spec l fileLocale) as [->|Hne].
  - rewrite get_set_same. now intros [= <-].
  - rewrite get_set_other by exact Hne. apply Hfs.
Qed.

(** Every text in [files] and every text written starts with the header
    of its locale, in every state the module goes through. *)
Lemma reachable_headed (s : Stork.State) :
  Stork.reachable isProduction cwd stripped s ->
  (forall l e, JsObject.get l (Stork.files s) = Some e -> headed l e) /\
  (forall path text,
     In (path, text) (Stork.written s) ->
     exists l more, path = Stork.tomlFile cwd l /\ text = Stork.header l +++ more).
Proof.
  induction 1 as [exists_|s fileLocale route title data content _ _ [IHf IHw]].
  - split; [intros l e H; discriminate H | intros path text []].
  - unfold Stork.addStorkIndex. destruct isProduction; cbn [negb fst]; [|now split].
    cbv zeta.
    set (files1 := match JsObject.get fileLocale (Stork.files s) with
                   | Some _ => Stork.files s
                   | None => JsObject.set fileLocale
                               [("toml", Stork.Text (Stork.header fileLocale))] (Stork.files s)
                   end).
    assert (Hf1 : forall l e, JsObject.get l files1 = Some e -> headed l e).
    { subst files1. destruct (JsObject.get fileLocale (Stork.files s)); [exact IHf|].
      apply headed_files_set; [exact IHf|]. exists "". cbn. now rewrite append_nil_r. }
    destruct (entry_found fileLocale s) as (entry & Hget & _). fold files1 in Hget.
    rewrite Hget. pose proof (Hf1 _ _ Hget) as Hentry.
    destruct (Stork.truthy (JsObject.get route entry)) eqn:Hr; [now split|].
    assert (Hroute : route <> "toml").
    { intros ->. rewrite (headed_truthy Hentry) in Hr. discriminate. }
    destruct (Stork.titleOf data title);
      cbn [fst Stork.files Stork.written]; (split; [|try exact IHw]);
      try (apply headed_files_set; [exact Hf1|];
           repeat apply headed_appendToml; now apply headed_flag).
    intros path text Hin. apply in_app_iff in Hin as [Hin|[[= <- <-]|[]]];
      [now apply IHw|].
    exists fileLocale.
    match goal with
    | |- exists more, _ /\ Stork.show (JsObject.get "toml" ?e) = _ =>
        assert (H7 : headed fileLocale e)
          by (repeat apply headed_appendToml; now apply headed_flag)
    end.
    destruct H7 as (more & H7). exists more. split; [reflexivity|]. now rewrite H7.
Qed.

End StorkInvariant.

(** X30. Whatever the calls were, for locales that are not names of
    members of [Object.prototype], every text that [files] holds for a
    locale, and every text that was written to an index file, starts with
    the [input] section of its locale, stemming language included; and the
    file it was written to is the index file of that locale under
    [public]. *)
Theorem addStorkIndex_header
        (isProduction : bool) (cwd : string) (stripped : string -> list Stork.MdNode)
        (s : Stork.State) :
  Stork.reachable isProduction cwd stripped s ->
  (forall fileLocale entry,
     JsObject.get fileLocale (Stork.files s) = Some entry ->
     exists more, JsObject.get "toml" entry =
                  Some (Stork.Text (Stork.header fileLocale +++ more))) /\
  (forall path text,
     In (path, text) (Stork.written s) ->
     exists fileLocale more,
       path = Stork.tomlFile cwd fileLocale /\
       text = Stork.header fileLocale +++ more).
Proof. apply reachable_headed. Qed.

Lemma addStorkIndex_header_witness :
  Stork.reachable true "/site" (fun _ => [])
    (fst (Stork.addStorkIndex true "/site" (fun _ => []) "en" "/a" (JStr "A") [] ""
            {| Stork.files := JsObject.empty Stork.Entry; Stork.publicDir := false;
               Stork.written := [] |})) /\
  forall path text,
    In (path, text)
       (Stork.written
          (fst (Stork.addStorkIndex true "/site" (fun _ => []) "en" "/a" (JStr "A") [] ""
                  {| Stork.files := JsObject.empty Stork.Entry; Stork.publicDir := false;
                     Stork.written := [] |}))) ->
    exists fileLocale more,
      path = Stork.tomlFile "/site" fileLocale /\ text = Stork.header fileLocale +++ more.
Proof.
  assert (Hr : Stork.reachable true "/site" (fun _ => [])
                 (fst (Stork.addStorkIndex true "/site" (fun _ => []) "en" "/a" (JStr "A")
                         [] ""
                         {| Stork.files := JsObject.empty Stork.Entry;
                            Stork.publicDir := false; Stork.written := [] |})))
    by (apply Stork.reachable_call; [reflexivity | apply Stork.reachable_start]).
  split; [exact Hr|].
  exact (proj2 (@addStorkIndex_header true "/site" (fun _ => []) _ Hr)).
Defined.
